(** * wsget: the command engine, checked against its description

    A shallow embedding of the command factory (package [command]), the
    executers of [pkg/cmd/commands.go], the macro repository (package
    [macro]) and the connection life cycle (package [ws]), followed by the
    properties stated about them. *)

From Stdlib Require Import ZArith Lia Ascii.
From stdpp Require Import base option list strings gmap fin_maps.

Set Warnings "-register-all".
Local Open Scope Z_scope.

(** ** Outcomes of a Go call

    A call either returns its results, panics, blocks for ever on a
    channel, or (in the model only) runs out of the fuel that bounds the
    recursion. *)

Inductive outcome (A : Type) : Type :=
| Returned (a : A)
| Panicked (msg : string)
| Blocked
| Exhausted.

Arguments Returned {A} a.
Arguments Panicked {A} msg.
Arguments Blocked {A}.
Arguments Exhausted {A}.

#[global] Instance outcome_ret : MRet outcome := fun A a => Returned a.
#[global] Instance outcome_bind : MBind outcome := fun A B k m =>
  match m with
  | Returned a => k a
  | Panicked msg => Panicked msg
  | Blocked => Blocked
  | Exhausted => Exhausted
  end.

(** ** The parts of the Go library the commands rely on *)

Module strings.

(** [s[n:]] for [n <= len(s)]. *)
Fixpoint drop (n : nat) (s : string) : string :=
  match n, s with
  | O, _ => s
  | S n', String _ s' => drop n' s'
  | S _, EmptyString => EmptyString
  end.

(** [strings.Cut]: the text before and after the first occurrence of
    [sep], if there is one. *)
Fixpoint Cut (s sep : string) : option (string * string) :=
  if String.prefix sep s then Some (EmptyString, drop (String.length sep) s)
  else match s with
       | EmptyString => None
       | String c s' =>
           match Cut s' sep with
           | Some (before, after) => Some (String c before, after)
           | None => None
           end
       end.

(** The loop of [genSplit]: at most [cuts] cuts, the rest kept whole. *)
Fixpoint pieces (cuts : nat) (s sep : string) : list string :=
  match cuts with
  | O => [s]
  | S cuts' =>
      match Cut s sep with
      | Some (before, after) => before :: pieces cuts' after sep
      | None => [s]
      end
  end.

(** [strings.SplitN] for a non-empty separator (the commands only ever
    split on a single space): [n = 0] gives no piece, [n < 0] all of them,
    [n > 0] at most [n] with the last one unsplit. *)
Definition SplitN (s sep : string) (n : Z) : list string :=
  if n =? 0 then []
  else if n <? 0 then pieces (String.length s) s sep
  else pieces (Z.to_nat (n - 1)) s sep.

(** [strings.HasSuffix]. *)
Definition HasSuffix (s suffix : string) : bool :=
  let n := String.length s in
  let k := String.length suffix in
  (k <=? n)%nat && String.eqb (drop (n - k) s) suffix.

(** [strings.Split]: all the pieces. *)
Definition Split (s sep : string) : list string := SplitN s sep (-1).

End strings.

Module strconv.

Definition maxUint64 : Z := 18446744073709551615.
Definition maxInt64 : Z := 9223372036854775807.
Definition minInt64 : Z := -9223372036854775808.

(** The value of a decimal digit; any other byte is a syntax error. *)
Definition digit (c : ascii) : option Z :=
  let n := Z.of_N (N_of_ascii c) in
  if (48 <=? n) && (n <=? 57) then Some (n - 48) else None.

(** What went wrong in a conversion: [ErrSyntax] or [ErrRange]. *)
Inductive failure := ErrSyntax | ErrRange.

(** The loop of [ParseUint] in base 10 with 64 bits: it stops at the first
    byte that is not a digit, or as soon as the value no longer fits. *)
Fixpoint scan (n : Z) (s : string) : Z * option failure :=
  match s with
  | EmptyString => (n, None)
  | String c s' =>
      match digit c with
      | None => (0, Some ErrSyntax)
      | Some d =>
          if maxUint64 / 10 + 1 <=? n then (maxUint64, Some ErrRange)
          else
            let n1 := n * 10 + d in
            if maxUint64 <? n1 then (maxUint64, Some ErrRange) else scan n1 s'
      end
  end.

Definition ParseUint (s : string) : Z * option failure :=
  match s with
  | EmptyString => (0, Some ErrSyntax)
  | _ => scan 0 s
  end.

(** [ParseInt(s, 10, 0)] where [int] has 64 bits: an optional sign, then
    [ParseUint]; on a range error the nearest bound comes with the error. *)
Definition ParseInt (s : string) : Z * option failure :=
  match s with
  | EmptyString => (0, Some ErrSyntax)
  | String c rest =>
      let neg := Ascii.eqb c "-" in
      let body := if neg || Ascii.eqb c "+" then rest else s in
      match ParseUint body with
      | (_, Some ErrSyntax) => (0, Some ErrSyntax)
      | (un, _) =>
          if negb neg && (maxInt64 + 1 <=? un) then (maxInt64, Some ErrRange)
          else if neg && (maxInt64 + 1 <? un) then (minInt64, Some ErrRange)
          else (if neg then - un else un, None)
      end
  end.

(** [strconv.Atoi]: its fast path for short texts computes what [ParseInt]
    does. *)
Definition Atoi (s : string) : Z * option failure := ParseInt s.

End strconv.

Module time.

(** [time.Duration] is an [int64] count of nanoseconds; its arithmetic
    wraps around. *)
Definition Duration := Z.

Definition wrap64 (z : Z) : Z := (z + 2 ^ 63) mod 2 ^ 64 - 2 ^ 63.

Definition Second : Duration := 1000000000.

Definition mul (a b : Duration) : Duration := wrap64 (a * b).

End time.

(** ** Messages (package [ws]) *)

(** [MessageType] is a [uint8]; three of its values are named. *)
Definition MessageType := Z.

Definition NotDefined : MessageType := 0.
Definition Request : MessageType := 1.
Definition Response : MessageType := 2.

Definition MessageType_String (mt : MessageType) : string :=
  if mt =? Request then "Request"
  else if mt =? Response then "Response"
  else "Not defined".

Record Message := { Data : string; Type_ : MessageType }.

(** ** Errors

    An error made by [fmt.Errorf] is kept as its format and its arguments,
    so that the text it carries can be read off without a model of the
    verbs. *)

Inductive error :=
| ErrEmptyCommand
| ErrEmptyRequest
| ErrInvalidTimeout (timeout : string)
| ErrUnknownCommand (command : string)
| NumError (func num : string) (why : strconv.failure)
| ForeignError (text : string)
| Errorf (format : string) (args : list fmt_arg)
with fmt_arg :=
| ArgString (s : string)
| ArgType (mt : MessageType)
| ArgError (e : option error).

(** [strconv.Atoi] with the error value Go builds for a failure. *)
Definition Atoi (s : string) : Z * option error :=
  let '(n, bad) := strconv.Atoi s in
  (n, NumError "Atoi" s <$> bad).

(** ** Executers

    [Command] lists the variants; a Go [Executer] is an interface value,
    that is a command or [nil]. *)

Inductive Command :=
| CommandExit
| CommandEdit (content : string)
| CommandSend (request : string)
| CommandPrintMsg (msg : Message)
| CommandWaitForResp (timeout : time.Duration)
| CommandCmdEdit
| CommandSequence (subCommands : list (option Command))
| RepeatCommand (times : Z) (subCommand : option Command)
| SleepCommand (duration : time.Duration).

Definition Executer := option Command.

(** The constructors of [pkg/cmd/commands.go]. *)
Definition NewCommandExit : Executer := Some CommandExit.
Definition NewCommandEdit (content : string) : Executer := Some (CommandEdit content).
Definition NewCommandSend (request : string) : Executer := Some (CommandSend request).
Definition NewCommandPrintMsg (msg : Message) : Executer := Some (CommandPrintMsg msg).
Definition NewCommandWaitForResp (timeout : time.Duration) : Executer :=
  Some (CommandWaitForResp timeout).
Definition NewCommandCmdEdit : Executer := Some CommandCmdEdit.
Definition NewCommandSequence (subCommands : list Executer) : Executer :=
  Some (CommandSequence subCommands).

(** Modelled from the spec: the constructors that package [command] calls
    ([NewExit], [NewEdit], ..., [NewRepeatCommand], [NewSleepCommand]) are
    declared in files that are not among the sources.  Each builds the
    variant of section 4.2 it is named after, holding "only its own
    constructor-time parameters". *)
Definition NewExit : Executer := Some CommandExit.
Definition NewEdit (content : string) : Executer := Some (CommandEdit content).
Definition NewCmdEdit : Executer := Some CommandCmdEdit.
Definition NewSend (request : string) : Executer := Some (CommandSend request).
Definition NewPrintMsg (msg : Message) : Executer := Some (CommandPrintMsg msg).
Definition NewWaitForResp (timeout : time.Duration) : Executer :=
  Some (CommandWaitForResp timeout).
Definition NewRepeatCommand (times : Z) (subCommand : Executer) : Executer :=
  Some (RepeatCommand times subCommand).
Definition NewSleepCommand (duration : time.Duration) : Executer :=
  Some (SleepCommand duration).

(** Modelled from the spec: the constant [PartsNumber] of package
    [command] is declared outside the sources; the factory "splits the line
    on the first whitespace into a command keyword and a remainder", which
    is two parts ([CommandPartsNumber] of [pkg/cmd] is 2 as well). *)
Definition PartsNumber : Z := 2.

(** [CommandPartsNumber] of [pkg/cmd/commands.go]. *)
Definition CommandPartsNumber : Z := 2.

(** [err != nil]. *)
Definition notnil {A : Type} (x : option A) : bool :=
  match x with Some _ => true | None => false end.

(** [a[i]]: indexing a slice panics out of range. *)
Definition index (a : list string) (i : nat) : outcome string :=
  match a !! i with
  | Some s => Returned s
  | None => Panicked "index out of range"
  end.

Definition len (a : list string) : Z := Z.of_nat (length a).

(** ** The command factory (package [command]) *)

Module command.

(** The [MacroRepo] interface: [Get(name, argString)], taken as a call
    that returns an executer or an error. *)
Definition MacroRepo := string → string → Executer * option error.

Section Factory.

(** The factory's [macro] field; [None] is the nil interface. *)
Variable macro : option MacroRepo.

(** The body of [Factory.Create], with the recursive call on the
    sub-command of [repeat] passed in as [Create]. *)
Definition Create_body (Create : string → outcome (Executer * option error))
    (raw : string) : outcome (Executer * option error) :=
  if String.eqb raw "" then Returned (None, Some ErrEmptyCommand) else
  let parts := strings.SplitN raw " " PartsNumber in
  cmd ← index parts 0;
  if String.eqb cmd "exit" then Returned (NewExit, None)
  else if String.eqb cmd "edit" then
    content ← (if 1 <? len parts then index parts 1 else Returned "");
    Returned (NewEdit content, None)
  else if String.eqb cmd "editcmd" then Returned (NewCmdEdit, None)
  else if String.eqb cmd "send" then
    if len parts =? 1 then Returned (None, Some ErrEmptyRequest) else
    request ← index parts 1;
    Returned (NewSend request, None)
  else if String.eqb cmd "print" then
    if len parts =? 1 then Returned (None, Some ErrEmptyRequest) else
    rest ← index parts 1;
    let args := strings.SplitN rest " " PartsNumber in
    if len args <? PartsNumber then
      Returned (None, Some (Errorf "not enough arguments for print command: %s"
                                   [ArgString raw]))
    else
    kind ← index args 0;
    if String.eqb kind "Request" then
      msg ← index args 1;
      Returned (NewPrintMsg {| Type_ := Request; Data := msg |}, None)
    else if String.eqb kind "Response" then
      msg ← index args 1;
      Returned (NewPrintMsg {| Type_ := Response; Data := msg |}, None)
    else
      p0 ← index parts 0;
      Returned (None, Some (Errorf "invalid message type: %s" [ArgString p0]))
  else if String.eqb cmd "wait" then
    if 1 <? len parts then
      arg ← index parts 1;
      let '(sec, err) := Atoi arg in
      if notnil err || (sec <? 0) then
        Returned (None, Some (ErrInvalidTimeout arg))
      else Returned (NewWaitForResp (time.mul sec time.Second), None)
    else Returned (NewWaitForResp 0, None)
  else if String.eqb cmd "repeat" then
    if len parts <? PartsNumber then
      Returned (None, Some (Errorf "not enough arguments for repeat command: %s"
                                   [ArgString raw]))
    else
    rest ← index parts 1;
    let repeatParts := strings.SplitN rest " " PartsNumber in
    if len parts <? PartsNumber then
      Returned (None, Some (Errorf "not enough arguments for repeat command: %s"
                                   [ArgString raw]))
    else
    count ← index repeatParts 0;
    let '(times, err) := Atoi count in
    if notnil err || (times <=? 0) then
      Returned (None, Some (Errorf "invalid repeat times: %s" [ArgString count]))
    else
    sub ← index repeatParts 1;
    '(subCommand, err) ← Create sub;
    if notnil err then Returned (None, err)
    else Returned (NewRepeatCommand times subCommand, None)
  else if String.eqb cmd "sleep" then
    if len parts <? PartsNumber then
      Returned (None, Some (Errorf "not enough arguments for sleep command: %s"
                                   [ArgString raw]))
    else
    arg ← index parts 1;
    let '(sec, err) := Atoi arg in
    if notnil err || (sec <? 0) then
      Returned (None, Some (Errorf "invalid sleep duration: %s" [ArgString arg]))
    else Returned (NewSleepCommand (time.mul sec time.Second), None)
  else
    args ← (if 1 <? len parts then index parts 1 else Returned "");
    match macro with
    | Some repo => Returned (repo cmd args)
    | None => Returned (None, Some (ErrUnknownCommand cmd))
    end.

Fixpoint Create_fuel (fuel : nat) (raw : string)
    : outcome (Executer * option error) :=
  match fuel with
  | O => Exhausted
  | S fuel' => Create_body (Create_fuel fuel') raw
  end.

(** [Factory.Create]: a sub-command is strictly shorter than the line
    it comes from, so the length of the line bounds the recursion. *)
Definition Create (raw : string) : outcome (Executer * option error) :=
  Create_fuel (S (String.length raw)) raw.

End Factory.

End command.

(** ** The executers of [pkg/cmd/commands.go] *)

Module cmd.

Definition ESC : string := String (ascii_of_nat 27) "".
Definition NL : string := String (ascii_of_nat 10) "".
Definition CR : string := String (ascii_of_nat 13) "".

Definition LineUp : string := ESC +:+ "[1A".
Definition LineClear : string := ESC +:+ "[2K".
Definition HideCursor : string := ESC +:+ "[?25l".
Definition ShowCursor : string := ESC +:+ "[?25h".

(** [Macro.Get(name)] of this package. *)
Definition Macro := string → Executer * option error.

(** [CommandFactory]. *)
Definition CommandFactory (raw : string) (macro : option Macro)
    : outcome (Executer * option error) :=
  if String.eqb raw "" then Returned (None, Some (Errorf "empty command" [])) else
  let parts := strings.SplitN raw " " CommandPartsNumber in
  cmd ← index parts 0;
  if String.eqb cmd "exit" then Returned (NewCommandExit, None)
  else if String.eqb cmd "edit" then
    content ← (if 1 <? len parts then index parts 1 else Returned "");
    Returned (NewCommandEdit content, None)
  else if String.eqb cmd "send" then
    if len parts =? 1 then Returned (None, Some (Errorf "empty request" [])) else
    request ← index parts 1;
    Returned (NewCommandSend request, None)
  else if String.eqb cmd "wait" then
    if 1 <? len parts then
      arg ← index parts 1;
      let '(sec, err) := Atoi arg in
      if notnil err || (sec <? 0) then
        Returned (None, Some (Errorf "invalid timeout: %s" [ArgError err]))
      else Returned (NewCommandWaitForResp (time.mul sec time.Second), None)
    else Returned (NewCommandWaitForResp 0, None)
  else
    match macro with
    | Some get => Returned (get cmd)
    | None => Returned (None, Some (Errorf "unknown command: %s" [ArgString cmd]))
    end.

(** What is written to a sink: plain text ([fmt.Fprint] and the like),
    text through a colour ([color.New(c).Fprint]), or an error value and
    a newline through a colour ([color.New(c).Fprintln]). *)
Inductive Color := FgGreen | FgRed.

Inductive chunk :=
| Plain (text : string)
| Colored (c : Color) (text : string)
| ColoredErrLn (c : Color) (e : option error).

Section Engine.

(** The state of everything the commands do not own: the terminal and
    its key stream, the transport, the inbound stream and the clock. *)
Context {E : Type}.

(** The capabilities an [ExecutionContext] hands out.  The editors, the
    transport and the stream act on the outside state; the formatter
    only computes. *)
Record ExecutionContext := {
  (** whether [OutputFile()] is a sink rather than nil *)
  OutputFile : bool;
  Formater_FormatMessage : Message → string * option error;
  Formater_FormatForFile : Message → string * option error;
  (** [websocket.Message.Send] on the connection's transport *)
  ws_Send : string → E → option error * E;
  (** the next event of [Connection().Messages()], if one ever comes:
      a message, or the close of the stream *)
  Messages : E → option (option Message * E);
  (** in a [select] against [time.After(d)] with a stream event due,
      whether the timer is the case that runs *)
  timer_first : time.Duration → E → bool;
  (** the outside state once [d] has gone by *)
  elapse : time.Duration → E → E;
  RequestEditor_Edit : string → E → (string * option error) * E;
  CmdEditor_Edit : string → E → (string * option error) * E;
  Macro_ : option Macro;
}.

(** What a command can change: the outside state, the screen and the
    file sink. *)
Record World := { env : E; screen : list chunk; file : list string }.

Definition Fprint (c : chunk) (w : World) : World :=
  {| env := env w; screen := screen w ++ [c]; file := file w |}.

Definition FprintFile (s : string) (w : World) : World :=
  {| env := env w; screen := screen w; file := file w ++ [s] |}.

Definition with_env (e : E) (w : World) : World :=
  {| env := e; screen := screen w; file := file w |}.

Variable exCtx : ExecutionContext.

(** [Connection.Send] of package [ws], as a command sees it: the
    in-flight counter goes up and down around the transport write. *)
Definition Connection_Send (msg : string) (e : E)
    : (option Message * option error) * E :=
  let '(err, e') := ws_Send exCtx msg e in
  if notnil err then ((None, err), e')
  else ((Some {| Type_ := Request; Data := msg |}, None), e').

Definition result := ((Executer * option error) * World)%type.

(** [CommandEdit.Execute]. *)
Definition CommandEdit_Execute (content : string) (w : World) : outcome result :=
  let w := Fprint (Colored FgGreen ("->" +:+ NL)) w in
  let w := Fprint (Plain ShowCursor) w in
  let '((req, err), e) := RequestEditor_Edit exCtx content (env w) in
  let w := with_env e w in
  let w := Fprint (Plain (LineUp +:+ LineClear)) w in
  let w := Fprint (Plain HideCursor) w in
  if notnil err || String.eqb req "" then Returned ((None, err), w)
  else Returned ((NewCommandSend req, None), w).

(** [CommandSend.Execute]. *)
Definition CommandSend_Execute (request : string) (w : World) : outcome result :=
  let '((msg, err), e) := Connection_Send request (env w) in
  let w := with_env e w in
  if notnil err then
    Returned ((None, Some (Errorf "fail to send request: %s" [ArgError err])), w)
  else
    match msg with
    | Some m => Returned ((NewCommandPrintMsg m, None), w)
    | None => Panicked "nil pointer dereference"
    end.

(** [CommandPrintMsg.Execute]. *)
Definition CommandPrintMsg_Execute (msg : Message) (w : World) : outcome result :=
  let '(output, err) := Formater_FormatMessage exCtx msg in
  if notnil err then
    Returned ((None, Some (Errorf "fail to format for output file: %s, data: %q"
                                  [ArgError err; ArgString (Data msg)])), w)
  else
  let marked :=
    if Type_ msg =? Request then Some (Fprint (Colored FgGreen ("->" +:+ NL)) w)
    else if Type_ msg =? Response then Some (Fprint (Colored FgRed ("<-" +:+ NL)) w)
    else None in
  match marked with
  | None =>
      Returned ((None, Some (Errorf "unknown message type: %s, data: %q"
                                    [ArgType (Type_ msg); ArgString (Data msg)])), w)
  | Some w =>
      let w := Fprint (Plain (output +:+ NL)) w in
      if OutputFile exCtx then
        let '(output, err) := Formater_FormatForFile exCtx msg in
        if notnil err then
          Returned ((None, Some (Errorf "fail to write to output file: %s"
                                        [ArgError err])), w)
        else Returned ((None, None), FprintFile (output +:+ NL) w)
      else Returned ((None, None), w)
  end.

(** [CommandExit.Execute]. *)
Definition CommandExit_Execute (w : World) : outcome result :=
  Returned ((None, Some (Errorf "interrupted" [])), w).

(** [CommandWaitForResp.Execute].  [c.timeout.Seconds() == 0] compares
    [float64(d/Second) + float64(d%Second)/1e9] with zero; the two terms
    have the sign of [d], so the test holds exactly when [d] is zero. *)
Definition CommandWaitForResp_Execute (timeout : time.Duration) (w : World)
    : outcome result :=
  let received (ev : option Message * E) : outcome result :=
    match ev with
    | (Some msg, e) => Returned ((NewCommandPrintMsg msg, None), with_env e w)
    | (None, e) =>
        Returned ((None, Some (Errorf "connection closed" [])), with_env e w)
    end in
  let timed_out : outcome result :=
    Returned ((None, Some (Errorf "timeout" [])),
              with_env (elapse exCtx timeout (env w)) w) in
  if timeout =? 0 then
    match Messages exCtx (env w) with
    | Some ev => received ev
    | None => Blocked
    end
  else
    match Messages exCtx (env w) with
    | Some ev => if timer_first exCtx timeout (env w) then timed_out else received ev
    | None => timed_out
    end.

(** [CommandCmdEdit.Execute]. *)
Definition CommandCmdEdit_Execute (w : World) : outcome result :=
  let w := Fprint (Plain ":") w in
  let w := Fprint (Plain ShowCursor) w in
  let '((rawCmd, err), e) := RequestEditor_Edit exCtx "" (env w) in
  let w := with_env e w in
  let w := Fprint (Plain (LineClear +:+ CR)) w in
  let w := Fprint (Plain HideCursor) w in
  if notnil err then Returned ((None, err), w) else
  '(cmd, err) ← CommandFactory rawCmd (Macro_ exCtx);
  if notnil err then Returned ((None, None), Fprint (ColoredErrLn FgRed err) w)
  else Returned ((cmd, None), w).

(** Modelled from the spec: [SleepCommand.Execute] is not among the
    sources.  "Sleep | duration | blocks for the duration | none". *)
Definition SleepCommand_Execute (duration : time.Duration) (w : World)
    : outcome result :=
  Returned ((None, None), with_env (elapse exCtx duration (env w)) w).

(** The outer loop of [CommandSequence.Execute], given [drain], the
    inner loop that runs one sub-command and whatever it returns until
    nothing is returned. *)
Fixpoint each (drain : Executer → World → outcome (option error * World))
    (subCommands : list Executer) (w : World) : outcome result :=
  match subCommands with
  | [] => Returned ((None, None), w)
  | cmd :: rest =>
      '(err, w') ← drain cmd w;
      if notnil err then Returned ((None, err), w') else each drain rest w'
  end.

(** Modelled from the spec: [RepeatCommand.Execute] is not among the
    sources.  "Repeat | count, sub-Executer | runs the sub-Executer's
    full chain count times in a row | sub-chain error aborts": a
    counting loop around the inner loop of [CommandSequence]. *)
Fixpoint again (drain : Executer → World → outcome (option error * World))
    (left : nat) (subCommand : Executer) (w : World) : outcome result :=
  match left with
  | O => Returned ((None, None), w)
  | S left' =>
      '(err, w') ← drain subCommand w;
      if notnil err then Returned ((None, err), w')
      else again drain left' subCommand w'
  end.

(** [Execute], by variant, and [drain], the loop
    [for cmd != nil { cmd, err = cmd.Execute(exCtx); ... }].  A chain
    may go on for ever (a command editor that keeps being handed
    [editcmd] lines), so both are bounded by fuel. *)
Fixpoint Execute (fuel : nat) (c : Command) (w : World) {struct fuel}
    : outcome result :=
  match fuel with
  | O => Exhausted
  | S fuel' =>
      match c with
      | CommandExit => CommandExit_Execute w
      | CommandEdit content => CommandEdit_Execute content w
      | CommandSend request => CommandSend_Execute request w
      | CommandPrintMsg msg => CommandPrintMsg_Execute msg w
      | CommandWaitForResp timeout => CommandWaitForResp_Execute timeout w
      | CommandCmdEdit => CommandCmdEdit_Execute w
      | CommandSequence subCommands => each (drain fuel') subCommands w
      | RepeatCommand times subCommand =>
          again (drain fuel') (Z.to_nat times) subCommand w
      | SleepCommand duration => SleepCommand_Execute duration w
      end
  end
with drain (fuel : nat) (cmd : Executer) (w : World) {struct fuel}
    : outcome (option error * World) :=
  match cmd with
  | None => Returned (None, w)
  | Some c =>
      match fuel with
      | O => Exhausted
      | S fuel' =>
          '((next, err), w') ← Execute fuel' c w;
          if notnil err then Returned (err, w') else drain fuel' next w'
      end
  end.

End Engine.

Arguments ExecutionContext : clear implicits.
Arguments World : clear implicits.

End cmd.

(** ** The macro repository (package [macro]) *)

Module macro.

Record DirEntry := { Name : string; IsDir : bool }.

(** The [config] a macro file is decoded into. *)
Record config := {
  Version : string;
  Source : string;
  Macro : gmap string (list string);
  Domains : list string;
}.

Section Repo.

(** The values a repository holds are pointers to [command.Templates],
    a type declared outside the sources. *)
Variable Templates : Type.

(** [command.NewMacro]. *)
Variable NewMacro : list string → Templates * option error.

Record Repo := { macro : gmap string Templates; domains : list string }.

Definition New (domains : list string) : Repo :=
  {| macro := ∅; domains := domains |}.

Definition duplicate (name : string) : error :=
  Errorf "duplicate macro: %s" [ArgString name].

(** [m.macro[name] = cmd]. *)
Definition store (name : string) (cmd : Templates) (m : Repo) : Repo :=
  {| macro := <[name := cmd]> (macro m); domains := domains m |}.

(** [Repo.AddCommands]; the repository is updated in place, so the
    repository afterwards is returned with the error. *)
Definition AddCommands (m : Repo) (name : string) (rawCommands : list string)
    : Repo * option error :=
  if bool_decide (is_Some (macro m !! name)) then (m, Some (duplicate name))
  else if len rawCommands =? 0 then
    (m, Some (Errorf "empty macro: %s" [ArgString name]))
  else
    let '(cmds, err) := NewMacro rawCommands in
    if notnil err then (m, err) else (store name cmds m, None).

(** [Repo.merge].  Go visits the entries of a map in an order of its
    own choosing; [visit] is the order in which this [range] yields the
    entries of [macro.macro], some permutation of them.  The target is
    updated in place as the loop goes. *)
Fixpoint merge (m : Repo) (visit : list (string * Templates))
    : Repo * option error :=
  match visit with
  | [] => (m, None)
  | (name, cmd) :: rest =>
      if bool_decide (is_Some (macro m !! name)) then (m, Some (duplicate name))
      else merge (store name cmd m) rest
  end.

(** An order in which [range] may visit a map. *)
Definition ranges (entries : gmap string Templates)
    (visit : list (string * Templates)) : Prop :=
  visit ≡ₚ map_to_list entries.

(** The file system as [LoadMacroForDomain] meets it: what
    [LoadFromFile] gives for a path, and the order in which the [range]
    of [merge] visits the repository loaded from each file. *)
Variable LoadFromFile : string → Repo * option error.
Variable range_of : string → gmap string Templates → list (string * Templates).

Fixpoint hasDomain (domain : string) (fileDomains : list string) : bool :=
  match fileDomains with
  | [] => false
  | fileDomain :: rest =>
      if strings.HasSuffix domain fileDomain then true else hasDomain domain rest
  end.

(** The loop of [LoadMacroForDomain] over the entries of the directory,
    with [macro] the repository gathered so far (nil at first). *)
Fixpoint load (macroDir domain : string) (files : list DirEntry)
    (macro_ : option Repo) : option Repo * option error :=
  match files with
  | [] => (macro_, None)
  | file :: rest =>
      if IsDir file || (negb (strings.HasSuffix (Name file) ".yaml")
                        && negb (strings.HasSuffix (Name file) ".yml"))
      then load macroDir domain rest macro_
      else
        let '(fileMacro, err) := LoadFromFile (macroDir +:+ "/" +:+ Name file) in
        if notnil err then (None, err)
        else if negb (hasDomain domain (domains fileMacro))
        then load macroDir domain rest macro_
        else
          match macro_ with
          | None => load macroDir domain rest (Some fileMacro)
          | Some m =>
              let '(m', err) :=
                merge m (range_of (Name file) (macro fileMacro)) in
              if notnil err then
                (None, Some (Errorf "fail to loading macro from file %s, %w "
                                    [ArgString (Name file); ArgError err]))
              else load macroDir domain rest (Some m')
          end
  end.

(** [LoadMacroForDomain], once [os.ReadDir] has listed the directory. *)
Definition LoadMacroForDomain (macroDir domain : string) (files : list DirEntry)
    : option Repo * option error :=
  load macroDir domain files None.

(** [Templates.GetExecuter] of package [command] and [strings.Fields],
    which [Repo.Get] hands the argument text to. *)
Variable GetExecuter : Templates → list string → Executer * option error.
Variable Fields : string → list string.

(** [Repo.Get]. *)
Definition Get (m : Repo) (name argString : string) : Executer * option error :=
  match macro m !! name with
  | Some cmd => GetExecuter cmd (Fields argString)
  | None => (None, Some (Errorf "unknown command: %s" [ArgString name]))
  end.

(** [Repo.GetNames], over the order in which its [range] visits the
    entries: each name is appended in turn. *)
Fixpoint GetNames_loop (names : list string) (visit : list (string * Templates))
    : list string :=
  match visit with
  | [] => names
  | (name, _) :: rest => GetNames_loop (names ++ [name]) rest
  end.

Definition GetNames (visit : list (string * Templates)) : list string :=
  GetNames_loop [] visit.

(** The loop of [parseConfig] over [cfg.Macro], in the order its [range]
    visits the entries. *)
Fixpoint addAll (repo : Repo) (visit : list (string * list string))
    : Repo * option error :=
  match visit with
  | [] => (repo, None)
  | (name, rawCommands) :: rest =>
      let '(repo', err) := AddCommands repo name rawCommands in
      if notnil err then
        (repo', Some (Errorf "fail to add macro: %w" [ArgError err]))
      else addAll repo' rest
  end.

(** [parseConfig], given what the YAML decoder made of the source: the
    decoded [cfg] (a pointer, nil if the document holds none) and its
    error. *)
Definition parseConfig (decoded : option config * option error)
    (visit : list (string * list string))
    : outcome (option Repo * option config * option error) :=
  let '(cfg, err) := decoded in
  if notnil err then Returned (None, None, err) else
  match cfg with
  | None => Panicked "nil pointer dereference"
  | Some c =>
      if negb (String.eqb (Version c) "1") then
        Returned (None, None,
                  Some (Errorf "unsupported macro version: %s" [ArgString (Version c)]))
      else
        let '(repo, err) := addAll (New (Domains c)) visit in
        if notnil err then Returned (None, None, err)
        else Returned (Some repo, cfg, None)
  end.

End Repo.

Arguments macro {Templates} r.
Arguments domains {Templates} r.
Arguments merge {Templates} m visit.
Arguments ranges {Templates} entries visit.
Arguments store {Templates} name cmd m.
Arguments New {Templates} domains.
Arguments AddCommands {Templates} NewMacro m name rawCommands.
Arguments Get {Templates} GetExecuter Fields m name argString.
Arguments GetNames {Templates} visit.
Arguments addAll {Templates} NewMacro repo visit.
Arguments parseConfig {Templates} NewMacro decoded visit.

End macro.

(** ** The connection (package [ws]) *)

Module ws.

Definition WSMessageBufferSize : nat := 100.

(** A [Connection]: how often the transport has been closed, the
    [Messages] channel (its buffer and whether it is closed), the
    in-flight counter of the wait group and the closed flag. *)
Record Connection := {
  ws_closes : nat;
  Messages : list Message;
  Messages_closed : bool;
  waitGroup : Z;
  isClosed : bool;
}.

(** What [NewWS] builds after a successful dial. *)
Definition NewWS : Connection :=
  {| ws_closes := 0; Messages := []; Messages_closed := false;
     waitGroup := 0; isClosed := false |}.

(** [Connection.Close]. *)
Definition Close (c : Connection) : Connection :=
  if isClosed c then c
  else {| ws_closes := S (ws_closes c); Messages := Messages c;
          Messages_closed := Messages_closed c; waitGroup := waitGroup c;
          isClosed := true |}.

(** Where the goroutine running [handleResponses] stands: at
    [websocket.Message.Receive], at the send on [Messages], in the
    deferred function at [waitGroup.Wait()] or at [close(Messages)], or
    finished. *)
Inductive receiver :=
| AtReceive
| AtPublish (msg : Message)
| AtWait
| AtClose
| Finished.

Record System := { conn : Connection; loop : receiver }.

(** The atomic steps of the receive loop and of its callers.  A call of
    [Close] is taken as one step: what it reads and writes, the closed flag
    and the transport, is touched by no other step. *)
Inductive event :=
| Receive_ok (data : string)   (* Receive returns a message *)
| Receive_err                  (* Receive returns an error: the loop exits *)
| Publish                      (* Messages <- msg *)
| Wait_returns                 (* waitGroup.Wait() finds the counter at zero *)
| Close_stream                 (* close(Messages) *)
| Send_begins                  (* Send: waitGroup.Add(1) *)
| Send_ends                    (* Send: the write returned, waitGroup.Done() *)
| Close_called                 (* Close() *)
| Consume.                     (* a command receives from Messages *)

Definition with_conn (c : Connection) (s : System) : System :=
  {| conn := c; loop := loop s |}.

Definition at_ (r : receiver) (s : System) : System :=
  {| conn := conn s; loop := r |}.

Definition set_Messages (buf : list Message) (closed : bool) (c : Connection)
    : Connection :=
  {| ws_closes := ws_closes c; Messages := buf; Messages_closed := closed;
     waitGroup := waitGroup c; isClosed := isClosed c |}.

Definition set_waitGroup (n : Z) (c : Connection) : Connection :=
  {| ws_closes := ws_closes c; Messages := Messages c;
     Messages_closed := Messages_closed c; waitGroup := n;
     isClosed := isClosed c |}.

(** One step of a schedule: [Panicked] where Go panics (a send on, or a
    second close of, a closed channel), [Blocked] where the step cannot be
    taken in that state (the goroutine is not there, or waits). *)
Definition step (s : System) (e : event) : outcome System :=
  let c := conn s in
  match e, loop s with
  | Receive_ok data, AtReceive =>
      Returned (at_ (AtPublish {| Type_ := Response; Data := data |}) s)
  | Receive_err, AtReceive => Returned (at_ AtWait s)
  | Publish, AtPublish msg =>
      if Messages_closed c then Panicked "send on closed channel"
      else if (length (Messages c) <? WSMessageBufferSize)%nat then
        Returned (at_ AtReceive
                   (with_conn (set_Messages (Messages c ++ [msg]) false c) s))
      else Blocked
  | Wait_returns, AtWait =>
      if waitGroup c =? 0 then Returned (at_ AtClose s) else Blocked
  | Close_stream, AtClose =>
      if Messages_closed c then Panicked "close of closed channel"
      else Returned (at_ Finished (with_conn (set_Messages (Messages c) true c) s))
  | Send_begins, _ =>
      Returned (with_conn (set_waitGroup (waitGroup c + 1) c) s)
  | Send_ends, _ =>
      if 0 <? waitGroup c
      then Returned (with_conn (set_waitGroup (waitGroup c - 1) c) s)
      else Blocked
  | Close_called, _ => Returned (with_conn (Close c) s)
  | Consume, _ =>
      match Messages c with
      | _ :: rest =>
          Returned (with_conn (set_Messages rest (Messages_closed c) c) s)
      | [] => if Messages_closed c then Returned s else Blocked
      end
  | _, _ => Blocked
  end.

(** A run: the events of a schedule taken one after the other. *)
Fixpoint run (schedule : list event) (s : System) : outcome System :=
  match schedule with
  | [] => Returned s
  | e :: rest => s' ← step s e; run rest s'
  end.

(** A connection as [NewWS] hands it over, its receive loop started. *)
Definition started : System := {| conn := NewWS; loop := AtReceive |}.

Definition HeaderPartsNumber : Z := 2.

(** The loop of [NewWS] over [opts.Headers]: each input is split on every
    colon and must give two parts, which are trimmed and added in turn; the
    first input that does not ends the dial with an error.  [TrimSpace] is
    [strings.TrimSpace]; [added] lists the pairs handed to [Headers.Add] so
    far, in that order. *)
Fixpoint Headers (TrimSpace : string → string) (added : list (string * string))
    (inputs : list string) : option (list (string * string)) * option error :=
  match inputs with
  | [] => (Some added, None)
  | headerInput :: rest =>
      let splited := strings.Split headerInput ":" in
      if negb (len splited =? HeaderPartsNumber) then
        (None, Some (Errorf "invalid header: %s" [ArgString headerInput]))
      else
        match splited with
        | header :: value :: _ =>
            Headers TrimSpace (added ++ [(TrimSpace header, TrimSpace value)]) rest
        | _ => (None, Some (Errorf "invalid header: %s" [ArgString headerInput]))
        end
  end.

(** What the commands take off the stream along a schedule: the message
    each [Consume] receives while the buffer holds one. *)
Fixpoint delivered (schedule : list event) (s : System) : list Message :=
  match schedule with
  | [] => []
  | e :: rest =>
      match step s e with
      | Returned s' =>
          match e, Messages (conn s) with
          | Consume, msg :: _ => msg :: delivered rest s'
          | _, _ => delivered rest s'
          end
      | _ => []
      end
  end.

(** What the transport hands to the receive loop along a schedule. *)
Fixpoint received (schedule : list event) : list string :=
  match schedule with
  | [] => []
  | Receive_ok data :: rest => data :: received rest
  | _ :: rest => received rest
  end.

(** The message the receive loop holds and has not yet put on the stream. *)
Definition pending (s : System) : list Message :=
  match loop s with
  | AtPublish msg => [msg]
  | _ => []
  end.

End ws.

(** ** Vocabulary of the statements *)

(** A token: a text without a space in it. *)
Fixpoint spaceless (s : string) : bool :=
  match s with
  | EmptyString => true
  | String c s' => negb (Ascii.eqb c " ") && spaceless s'
  end.

(** The double quote, and the payload [{"a":1}]. *)
Definition dquote : ascii := ascii_of_nat 34.
Definition payload_a1 : string :=
  "{" +:+ String dquote ("a" +:+ String dquote ":1}").

(** A call that comes back: it returns or panics, rather than block or
    exceed the bound of the model. *)
Definition settles {A : Type} (o : outcome A) : Prop :=
  match o with
  | Returned _ | Panicked _ => True
  | Blocked | Exhausted => False
  end.

(** Running a chain to its end: [completes] when the command and all it
    returns have run and no error came up, [aborts] when one of them
    returned an error. *)
Definition completes {E : Type} (exCtx : cmd.ExecutionContext E)
    (c : Executer) (w w' : cmd.World E) : Prop :=
  ∃ fuel, cmd.drain exCtx fuel c w = Returned (None, w').

Definition aborts {E : Type} (exCtx : cmd.ExecutionContext E)
    (c : Executer) (w : cmd.World E) (e : error) (w' : cmd.World E) : Prop :=
  ∃ fuel, cmd.drain exCtx fuel c w = Returned (Some e, w').

(** [chains exCtx c n w w']: [n] complete runs of the chain of [c], one
    after the other, lead from [w] to [w']. *)
Inductive chains {E : Type} (exCtx : cmd.ExecutionContext E) (c : Executer)
    : nat → cmd.World E → cmd.World E → Prop :=
| chains_none w : chains exCtx c 0 w w
| chains_more n w w1 w2 :
    completes exCtx c w w1 → chains exCtx c n w1 w2 → chains exCtx c (S n) w w2.

(** One run of a chain told step by step, with no loop of the engine in
    between: the command is executed; if it returns an error the run ends
    there with that error; otherwise the command it returned is executed
    in turn, until none is returned. *)
Inductive unwinds {E : Type} (exCtx : cmd.ExecutionContext E)
    : Executer → cmd.World E → option error → cmd.World E → Prop :=
| unwinds_end w : unwinds exCtx None w None w
| unwinds_error c w fuel next e w' :
    cmd.Execute exCtx fuel c w = Returned ((next, Some e), w') →
    unwinds exCtx (Some c) w (Some e) w'
| unwinds_next c w fuel next w1 r w2 :
    cmd.Execute exCtx fuel c w = Returned ((next, None), w1) →
    unwinds exCtx next w1 r w2 →
    unwinds exCtx (Some c) w r w2.

(** [rounds exCtx c n w w']: [n] such runs of [c] without error, each
    starting in the state the one before ended in, lead from [w] to [w']. *)
Inductive rounds {E : Type} (exCtx : cmd.ExecutionContext E) (c : Executer)
    : nat → cmd.World E → cmd.World E → Prop :=
| rounds_none w : rounds exCtx c 0 w w
| rounds_more n w w1 w2 :
    unwinds exCtx c w None w1 → rounds exCtx c n w1 w2 →
    rounds exCtx c (S n) w w2.

(** What [n] requests sent and printed leave on the screen and in the
    file. *)
Definition sent (request : string) (n : nat) : list cmd.chunk :=
  concat (replicate n [cmd.Colored cmd.FgGreen ("->" +:+ cmd.NL);
                      cmd.Plain (request +:+ cmd.NL)]).
Definition filed (request : string) (n : nat) : list string :=
  replicate n (request +:+ cmd.NL).

(** A context over an outside state that only records which editor was
    opened; the request editor is handed [exit], the command-line editor
    [send hello]. *)
Definition two_editors : cmd.ExecutionContext (list string) :=
  {| cmd.OutputFile := false;
     cmd.Formater_FormatMessage := fun msg => (Data msg, None);
     cmd.Formater_FormatForFile := fun msg => (Data msg, None);
     cmd.ws_Send := fun _ e => (None, e);
     cmd.Messages := fun _ => None;
     cmd.timer_first := fun _ _ => true;
     cmd.elapse := fun _ e => e;
     cmd.RequestEditor_Edit := fun _ e => (("exit", None), e ++ ["request editor"]);
     cmd.CmdEditor_Edit := fun _ e => (("send hello", None), e ++ ["command-line editor"]);
     cmd.Macro_ := None |}.

Definition blank {E : Type} (e : E) : cmd.World E :=
  {| cmd.env := e; cmd.screen := []; cmd.file := [] |}.

(** A context over an outside state that counts the writes made on the
    transport; every write succeeds, nothing ever arrives. *)
Definition counting : cmd.ExecutionContext nat :=
  {| cmd.OutputFile := true;
     cmd.Formater_FormatMessage := fun msg => (Data msg, None);
     cmd.Formater_FormatForFile := fun msg => (Data msg, None);
     cmd.ws_Send := fun _ n => (None, S n);
     cmd.Messages := fun _ => None;
     cmd.timer_first := fun _ _ => true;
     cmd.elapse := fun _ n => n;
     cmd.RequestEditor_Edit := fun seed n => ((seed, None), n);
     cmd.CmdEditor_Edit := fun seed n => ((seed, None), n);
     cmd.Macro_ := None |}.

(** The inner loop of a sequence, as a function; [extends d1 d2] when [d2]
    agrees with [d1] wherever [d1] does not run out of fuel. *)
Definition drainer (E : Type) : Type :=
  Executer → cmd.World E → outcome (option error * cmd.World E).

Definition extends {E : Type} (d1 d2 : drainer E) : Prop :=
  ∀ c w, d1 c w ≠ Exhausted → d2 c w = d1 c w.

(** Two repositories that share the name [b]: the target holds [b], the
    source [a] and [b]; and the order in which a [range] over the source
    yields [a] before [b]. *)
Definition target_b : macro.Repo unit :=
  {| macro.macro := {[ "b" := tt ]}; macro.domains := ["example.com"] |}.
Definition source_ab : macro.Repo unit :=
  {| macro.macro := <[ "a" := tt ]> {[ "b" := tt ]}; macro.domains := ["example.com"] |}.
Definition a_then_b : list (string * unit) := [("a", tt); ("b", tt)].

(** A repository that shares no name with [target_b], and the one order
    in which its single macro can be visited. *)
Definition source_c : macro.Repo unit :=
  {| macro.macro := {[ "c" := tt ]}; macro.domains := [".org"] |}.
Definition only_c : list (string * unit) := [("c", tt)].

(** A decoded macro file with one macro of two steps, the order in which
    its single entry is visited, and a [NewMacro] that keeps the steps. *)
Definition cfg_greet : macro.config :=
  {| macro.Version := "1"; macro.Source := "test";
     macro.Macro := {[ "greet" := ["send hello {0}"; "wait"] ]};
     macro.Domains := ["example.com"] |}.
Definition only_greet : list (string * list string) :=
  [("greet", ["send hello {0}"; "wait"])].
Definition keep_steps (rawCommands : list string) : list string * option error :=
  (rawCommands, None).

(** Commands that [AddCommands] accepts for a macro: there is at least
    one, and [NewMacro] makes a template of them. *)
Definition usable {Templates : Type}
    (NewMacro : list string → Templates * option error)
    (rawCommands : list string) : Prop :=
  rawCommands ≠ [] ∧ (NewMacro rawCommands).2 = None.

(** The steps that the receive loop itself takes. *)
Definition of_receiver (e : ws.event) : bool :=
  match e with
  | ws.Receive_ok _ | ws.Receive_err | ws.Publish | ws.Wait_returns
  | ws.Close_stream => true
  | ws.Send_begins | ws.Send_ends | ws.Close_called | ws.Consume => false
  end.

(** The stream is closed exactly when the receive loop has finished. *)
Definition closed_when_finished (s : ws.System) : Prop :=
  ws.Messages_closed (ws.conn s)
  = match ws.loop s with ws.Finished => true | _ => false end.

(** A call that returns. *)
Definition returns {A : Type} (o : outcome A) : Prop :=
  match o with
  | Returned _ => True
  | _ => False
  end.

(** The keywords [Create] handles itself; any other goes to the macro
    repository. *)
Definition builtin (keyword : string) : bool :=
  String.eqb keyword "exit" || String.eqb keyword "edit"
  || String.eqb keyword "editcmd" || String.eqb keyword "send"
  || String.eqb keyword "print" || String.eqb keyword "wait"
  || String.eqb keyword "repeat" || String.eqb keyword "sleep".

(** A count that [Create] accepts for [repeat]. *)
Definition repeatable (count : string) : Prop :=
  ∃ times, Atoi count = (times, None) ∧ 0 < times.

(** The [repeat] lines, nested or not, whose innermost [repeat] has an
    accepted count and nothing after it. *)
Inductive count_only : string → Prop :=
| count_only_here count :
    repeatable count → count_only ("repeat " +:+ count)
| count_only_inside count sub :
    repeatable count → count_only sub →
    count_only ("repeat " +:+ count +:+ " " +:+ sub).

(** The sinks of [w'] hold what those of [w] held, and maybe more after. *)
Definition grows {E : Type} (w w' : cmd.World E) : Prop :=
  cmd.screen w `prefix_of` cmd.screen w' ∧ cmd.file w `prefix_of` cmd.file w'.

(** How many colons a text holds. *)
Fixpoint colons (s : string) : nat :=
  match s with
  | EmptyString => O
  | String c s' => if Ascii.eqb c ":" then S (colons s') else colons s'
  end.

(** The directory entries [LoadMacroForDomain] reads: files whose name
    ends in [.yaml] or [.yml]. *)
Definition macro_file (file : macro.DirEntry) : bool :=
  negb (macro.IsDir file)
  && (strings.HasSuffix (macro.Name file) ".yaml"
      || strings.HasSuffix (macro.Name file) ".yml").

(** A decoded macro file of a version that is not supported. *)
Definition cfg_v2 : macro.config :=
  {| macro.Version := "2"; macro.Source := "test";
     macro.Macro := {[ "greet" := ["exit"] ]}; macro.Domains := [] |}.

(** A source applies to a domain when its entry in the directory is a
    macro file and the domain ends with one of the suffixes it lists. *)
Definition applies {Templates : Type}
    (LoadFromFile : string → macro.Repo Templates * option error)
    (macroDir domain : string) (file : macro.DirEntry) : Prop :=
  macro_file file = true
  ∧ macro.hasDomain domain
      (macro.domains (LoadFromFile (macroDir +:+ "/" +:+ macro.Name file)).1) = true.

(** A directory with a sub-directory, a text file and two macro files, and
    what loading the two gives: both list the suffix [example.com]. *)
Definition some_dir : list macro.DirEntry :=
  [ {| macro.Name := "old"; macro.IsDir := true |};
    {| macro.Name := "b.yaml"; macro.IsDir := false |};
    {| macro.Name := "notes.txt"; macro.IsDir := false |};
    {| macro.Name := "c.yml"; macro.IsDir := false |} ].
Definition some_files (path : string) : macro.Repo unit * option error :=
  if String.eqb path "macros/b.yaml" then (target_b, None)
  else if String.eqb path "macros/c.yml"
       then ({| macro.macro := {[ "c" := tt ]}; macro.domains := ["example.com"] |}, None)
       else (macro.New [], Some (ForeignError "no such file")).
Definition some_order (file : string) (entries : gmap string unit)
    : list (string * unit) := map_to_list entries.

(** * Properties *)

(** ** Splitting on a space *)

Section Splitting.

Lemma Cut_space_cons c s :
  strings.Cut (String c s) " " =
    if Ascii.eqb c " " then Some (EmptyString, s)
    else match strings.Cut s " " with
         | Some (before, after) => Some (String c before, after)
         | None => None
         end.
Proof.
  cbn [strings.Cut String.prefix String.length strings.drop].
  destruct (Ascii.ascii_dec " " c) as [<-|Hne].
  - destruct s; reflexivity.
  - destruct (Ascii.eqb_spec c " ") as [->|_]; [congruence|reflexivity].
Qed.

Lemma Cut_space_nil : strings.Cut "" " " = None.
Proof. reflexivity. Qed.

Lemma Cut_spaceless s : spaceless s = true → strings.Cut s " " = None.
Proof.
  induction s as [|c s IH]; [reflexivity|].
  cbn [spaceless]. intros [Hc Hs]%andb_prop.
  rewrite Cut_space_cons, (IH Hs).
  destruct (Ascii.eqb c " "); [discriminate|reflexivity].
Qed.

Lemma Cut_token token rest :
  spaceless token = true →
  strings.Cut (token +:+ " " +:+ rest) " " = Some (token, rest).
Proof.
  induction token as [|c s IH].
  { intros _. change ("" +:+ " " +:+ rest) with (String " " rest).
    rewrite Cut_space_cons. reflexivity. }
  cbn [spaceless]. intros [Hc Hs]%andb_prop.
  change (String c s +:+ " " +:+ rest) with (String c (s +:+ " " +:+ rest)).
  rewrite Cut_space_cons, (IH Hs).
  destruct (Ascii.eqb c " "); [discriminate|reflexivity].
Qed.

Lemma Cut_space_length s before after :
  strings.Cut s " " = Some (before, after) →
  String.length s = S (String.length before + String.length after).
Proof.
  revert before; induction s as [|c s IH]; intros before; [discriminate|].
  rewrite Cut_space_cons.
  destruct (Ascii.eqb c " ").
  - intros [= <- <-]. reflexivity.
  - destruct (strings.Cut s " ") as [[b a]|]; [|discriminate].
    intros [= <- <-]. cbn [String.length]. rewrite (IH b eq_refl). reflexivity.
Qed.

Lemma SplitN_two s :
  strings.SplitN s " " 2 =
    match strings.Cut s " " with
    | Some (before, after) => [before; after]
    | None => [s]
    end.
Proof.
  unfold strings.SplitN. change (Z.to_nat (2 - 1)) with 1%nat.
  cbn [Z.eqb Z.ltb Z.compare strings.pieces].
  destruct (strings.Cut s " ") as [[? ?]|]; reflexivity.
Qed.

Lemma SplitN_token token rest :
  spaceless token = true →
  strings.SplitN (token +:+ " " +:+ rest) " " 2 = [token; rest].
Proof. intros H. rewrite SplitN_two, (Cut_token _ _ H). reflexivity. Qed.

Lemma SplitN_spaceless s :
  spaceless s = true → strings.SplitN s " " 2 = [s].
Proof. intros H. rewrite SplitN_two, (Cut_spaceless _ H). reflexivity. Qed.

(** The second part of a split is strictly shorter than the text. *)
Lemma SplitN_second_shorter s after :
  index (strings.SplitN s " " 2) 1 = Returned after →
  (String.length after < String.length s)%nat.
Proof.
  rewrite SplitN_two.
  destruct (strings.Cut s " ") as [[b a]|] eqn:Hcut; [|discriminate].
  intros [= <-]. apply Cut_space_length in Hcut. lia.
Qed.

Lemma SplitN_first s : ∃ first, index (strings.SplitN s " " 2) 0 = Returned first.
Proof.
  rewrite SplitN_two.
  destruct (strings.Cut s " ") as [[b a]|]; eexists; reflexivity.
Qed.

Lemma spaceless_app a b :
  spaceless (a +:+ b) = spaceless a && spaceless b.
Proof.
  induction a as [|c a IH]; [reflexivity|].
  change (String c a +:+ b) with (String c (a +:+ b)).
  cbn [spaceless]. rewrite IH. apply andb_assoc.
Qed.

End Splitting.

(** ** Numerals *)

Section Numerals.

Lemma digit_not_space c d : strconv.digit c = Some d → Ascii.eqb c " " = false.
Proof.
  destruct (Ascii.eqb_spec c " ") as [->|]; [discriminate|reflexivity].
Qed.

Lemma scan_spaceless s acc n :
  strconv.scan acc s = (n, None) → spaceless s = true.
Proof.
  revert acc; induction s as [|c s IH]; intros acc; [reflexivity|].
  cbn [strconv.scan spaceless].
  destruct (strconv.digit c) as [d|] eqn:Hd; [|discriminate].
  rewrite (digit_not_space _ _ Hd).
  repeat case_match; try discriminate. apply IH.
Qed.

Lemma scan_range s acc un :
  strconv.scan acc s = (un, Some strconv.ErrRange) → un = strconv.maxUint64.
Proof.
  revert acc; induction s as [|c s IH]; intros acc; [discriminate|].
  cbn [strconv.scan].
  repeat case_match; try discriminate; try (intros [= <-]; reflexivity). apply IH.
Qed.

Lemma ParseUint_spaceless s n :
  strconv.ParseUint s = (n, None) → spaceless s = true.
Proof. destruct s; [discriminate|]. apply scan_spaceless. Qed.

Lemma ParseUint_range s un :
  strconv.ParseUint s = (un, Some strconv.ErrRange) → un = strconv.maxUint64.
Proof. destruct s; [discriminate|]. apply scan_range. Qed.

(** A text that [Atoi] accepts has no space in it. *)
Lemma Atoi_spaceless s n : Atoi s = (n, None) → spaceless s = true.
Proof.
  unfold Atoi, strconv.Atoi, strconv.ParseInt.
  destruct s as [|c rest]; [discriminate|].
  destruct (Ascii.eqb c "-" || Ascii.eqb c "+") eqn:Hsign.
  - destruct (strconv.ParseUint rest) as [un [[]|]] eqn:Hun.
    + discriminate.
    + apply ParseUint_range in Hun as ->.
      destruct (Ascii.eqb c "-"); discriminate.
    + intros _. cbn [spaceless]. rewrite (ParseUint_spaceless _ _ Hun), andb_true_r.
      destruct (Ascii.eqb_spec c " ") as [->|]; [discriminate Hsign|reflexivity].
  - destruct (strconv.ParseUint (String c rest)) as [un [[]|]] eqn:Hun.
    + discriminate.
    + apply ParseUint_range in Hun as ->.
      destruct (Ascii.eqb c "-"); discriminate.
    + intros _. exact (ParseUint_spaceless _ _ Hun).
Qed.

End Numerals.

(** ** The factory terminates *)

Section FactoryTermination.

Variable macro : option command.MacroRepo.

(** The body of [Create] only looks at the recursive call on texts
    shorter than the line. *)
Lemma Create_body_ext F G raw :
  (∀ sub, (String.length sub < String.length raw)%nat → F sub = G sub) →
  command.Create_body macro F raw = command.Create_body macro G raw.
Proof.
  intros HFG. unfold command.Create_body.
  destruct (String.eqb raw "") eqn:Hraw; [reflexivity|].
  destruct (index (strings.SplitN raw " " PartsNumber) 0) as [cmd| | |] eqn:Hcmd;
    try reflexivity.
  cbn [mbind outcome_bind].
  repeat (match goal with
          | |- (if ?b then _ else _) = (if ?b then _ else _) =>
              destruct b; try reflexivity
          end).
  destruct (index (strings.SplitN raw " " PartsNumber) 1) as [rest| | |] eqn:Hrest;
    try reflexivity.
  cbn [mbind outcome_bind].
  repeat (match goal with
          | |- (if ?b then _ else _) = (if ?b then _ else _) =>
              destruct b; try reflexivity
          end).
  destruct (index (strings.SplitN rest " " PartsNumber) 0) as [count| | |];
    try reflexivity.
  cbn [mbind outcome_bind].
  destruct (Atoi count) as [times err].
  destruct (notnil err || (times <=? 0)); [reflexivity|].
  destruct (index (strings.SplitN rest " " PartsNumber) 1) as [sub| | |] eqn:Hsub;
    try reflexivity.
  cbn [mbind outcome_bind].
  rewrite (HFG sub); [reflexivity|].
  apply SplitN_second_shorter in Hrest, Hsub. lia.
Qed.

Lemma Create_fuel_enough fuel raw :
  (String.length raw < fuel)%nat →
  command.Create_fuel macro fuel raw = command.Create macro raw.
Proof.
  unfold command.Create.
  remember (S (String.length raw)) as fuel' eqn:Hfuel'.
  assert (String.length raw < fuel')%nat as Hlt by lia. clear Hfuel'.
  revert fuel' raw Hlt.
  induction fuel as [|fuel IH]; intros fuel' raw Hlt' Hlt; [lia|].
  destruct fuel' as [|fuel']; [lia|].
  cbn [command.Create_fuel]. apply Create_body_ext.
  intros sub Hsub. apply IH; lia.
Qed.

(** [Create] satisfies the equation the Go function is written as. *)
Lemma Create_unfold raw :
  command.Create macro raw = command.Create_body macro (command.Create macro) raw.
Proof.
  unfold command.Create at 1. cbn [command.Create_fuel].
  apply Create_body_ext. intros sub Hsub. apply Create_fuel_enough. lia.
Qed.

Lemma Create_body_settles F raw :
  (∀ sub, (String.length sub < String.length raw)%nat → settles (F sub)) →
  settles (command.Create_body macro F raw).
Proof.
  intros HF. unfold command.Create_body, PartsNumber.
  destruct (String.eqb raw ""); [exact I|].
  destruct (SplitN_first raw) as [cmd ->].
  cbn [mbind outcome_bind].
  repeat (match goal with
          | |- settles (Returned _) => exact I
          | |- settles (Panicked _) => exact I
          | |- settles (if ?b then _ else _) => destruct b
          | |- settles (match ?m with Some _ => _ | None => _ end) => destruct m
          | |- settles (let '(_, _) := ?p in _) => destruct p
          | |- settles (mbind _ (if ?b then _ else _)) => destruct b
          | |- settles (mbind _ (Returned _)) => cbn [mbind outcome_bind]
          | |- settles (mbind _ (index ?a ?i)) =>
              let H := fresh "Hidx" in
              destruct (index a i) eqn:H; cbn [mbind outcome_bind];
              [ | exact I | exfalso; revert H; unfold index; case_match; discriminate
                | exfalso; revert H; unfold index; case_match; discriminate ]
          end).
  match goal with
  | |- settles (mbind _ (F ?sub)) =>
      assert (settles (F sub)) as Hsub
        by (apply HF; apply SplitN_second_shorter in Hidx, Hidx1; lia);
      destruct (F sub) as [[subCommand err]| | |]; cbn [mbind outcome_bind];
      [destruct (notnil err); exact I | exact I | exact Hsub | exact Hsub]
  end.
Qed.

(** [Create] comes back on every line. *)
Lemma Create_settles raw : settles (command.Create macro raw).
Proof.
  remember (String.length raw) as n eqn:Hn.
  revert raw Hn. induction (lt_wf n) as [n _ IH]. intros raw ->.
  rewrite Create_unfold. apply Create_body_settles.
  intros sub Hsub. exact (IH _ Hsub sub eq_refl).
Qed.

(** Only the [repeat] branch can fail to return: a line with any other
    keyword gives a result, be it an executer or an error. *)
Lemma Create_returns_unless_repeat raw keyword :
  index (strings.SplitN raw " " PartsNumber) 0 = Returned keyword →
  keyword ≠ "repeat" →
  returns (command.Create macro raw).
Proof.
  intros Hkw Hne. apply String.eqb_neq in Hne.
  rewrite Create_unfold. unfold command.Create_body, PartsNumber in *.
  destruct (String.eqb raw ""); [exact I|].
  rewrite Hkw. cbn [mbind outcome_bind]. rewrite Hne.
  rewrite !SplitN_two in *.
  destruct (strings.Cut raw " ") as [[first rest]|];
    repeat (match goal with
            | |- returns (Returned _) => exact I
            | |- context [len [?a; ?b]] => change (len [a; b]) with 2
            | |- context [len [?a]] => change (len [a]) with 1
            | |- context [index (?a :: _) 0] =>
                cbn [index lookup list_lookup mbind outcome_bind]
            | |- context [index (_ :: ?b :: _) 1] =>
                cbn [index lookup list_lookup mbind outcome_bind]
            | |- context [1 <? 2] => change (1 <? 2) with true; cbv iota
            | |- context [1 <? 1] => change (1 <? 1) with false; cbv iota
            | |- context [2 <? 2] => change (2 <? 2) with false; cbv iota
            | |- context [1 <? 2] => change (1 <? 2) with true; cbv iota
            | |- context [2 =? 1] => change (2 =? 1) with false; cbv iota
            | |- context [1 =? 1] => change (1 =? 1) with true; cbv iota
            | |- returns (mbind _ (Returned _)) => cbn [mbind outcome_bind]
            | |- context [strings.SplitN ?x " " 2] =>
                rewrite (SplitN_two x);
                destruct (strings.Cut x " ") as [[? ?]|]
            | |- returns (if ?b then _ else _) => destruct b
            | |- returns (match ?m with Some _ => _ | None => _ end) => destruct m
            | |- returns (let '(_, _) := ?p in _) => destruct p
            end).
Qed.

End FactoryTermination.

(** ** What the factory makes of a line *)

Section FactoryLines.

Variable macro : option command.MacroRepo.

(** A line that is a keyword, a space and a remainder splits there. *)
Lemma Create_keyword keyword rest :
  spaceless keyword = true →
  command.Create macro (keyword +:+ " " +:+ rest) =
  command.Create_body macro (command.Create macro) (keyword +:+ " " +:+ rest)
  ∧ strings.SplitN (keyword +:+ " " +:+ rest) " " PartsNumber = [keyword; rest].
Proof.
  intros Hk. split; [apply Create_unfold|exact (SplitN_token _ _ Hk)].
Qed.

(** C1 (the code departs from it): a [repeat] line with a count and no
    sub-command makes [Create] panic on [repeatParts[1]] instead of
    returning an error. *)
Theorem Create_repeat_count_only_panics :
  command.Create macro "repeat 3" = Panicked "index out of range".
Proof. reflexivity. Qed.

(** C7 (the code departs from it): [send] followed by the separating
    space alone is accepted, with an empty request. *)
Theorem Create_send_space_accepted :
  command.Create macro "send " = Returned (NewSend "", None)
  ∧ command.Create macro "send" = Returned (None, Some ErrEmptyRequest).
Proof. split; reflexivity. Qed.

Lemma Create_send_line request :
  command.Create macro ("send " +:+ request) = Returned (NewSend request, None).
Proof.
  change ("send " +:+ request) with ("send" +:+ " " +:+ request).
  destruct (Create_keyword "send" request eq_refl) as [-> Hparts].
  unfold command.Create_body. rewrite Hparts. reflexivity.
Qed.

Lemma Create_print_line rest :
  command.Create macro ("print " +:+ rest) =
    let args := strings.SplitN rest " " PartsNumber in
    if len args <? PartsNumber then
      Returned (None, Some (Errorf "not enough arguments for print command: %s"
                                   [ArgString ("print " +:+ rest)]))
    else
      kind ← index args 0;
      if String.eqb kind "Request" then
        msg ← index args 1;
        Returned (NewPrintMsg {| Type_ := Request; Data := msg |}, None)
      else if String.eqb kind "Response" then
        msg ← index args 1;
        Returned (NewPrintMsg {| Type_ := Response; Data := msg |}, None)
      else Returned (None, Some (Errorf "invalid message type: %s"
                                        [ArgString "print"])).
Proof.
  change ("print " +:+ rest) with ("print" +:+ " " +:+ rest).
  destruct (Create_keyword "print" rest eq_refl) as [-> Hparts].
  unfold command.Create_body. rewrite Hparts. reflexivity.
Qed.

(** The [print] lines that are handled as described:
    [print Response {"a":1}] gives a [PrintMessage] of a Response with
    exactly that data; [print Bogus x] gives an error about an invalid
    message type; and so does every [print] line whose type word is
    neither [Request] nor [Response]; [print] alone, and [print] with one
    word and no space after it, are errors too. *)
Theorem Create_print :
  command.Create macro ("print Response " +:+ payload_a1)
    = Returned (NewPrintMsg {| Type_ := Response; Data := payload_a1 |}, None)
  ∧ command.Create macro "print Bogus x"
    = Returned (None, Some (Errorf "invalid message type: %s" [ArgString "print"]))
  ∧ (∀ kind msg,
       spaceless kind = true → kind ≠ "Request" → kind ≠ "Response" →
       command.Create macro ("print " +:+ kind +:+ " " +:+ msg)
       = Returned (None, Some (Errorf "invalid message type: %s"
                                      [ArgString "print"])))
  ∧ command.Create macro "print" = Returned (None, Some ErrEmptyRequest)
  ∧ (∀ kind,
       spaceless kind = true →
       command.Create macro ("print " +:+ kind)
       = Returned (None, Some (Errorf "not enough arguments for print command: %s"
                                      [ArgString ("print " +:+ kind)]))).
Proof.
  repeat split; try reflexivity.
  - intros kind msg Hk Hreq Hresp.
    rewrite Create_print_line. cbv zeta.
    unfold PartsNumber. rewrite (SplitN_token _ _ Hk).
    apply String.eqb_neq in Hreq, Hresp.
    cbn [len length Z.of_nat Z.ltb Z.compare Pos.of_succ_nat Pos.succ Pos.compare
         Pos.compare_cont index lookup list_lookup mbind outcome_bind].
    rewrite Hreq, Hresp. reflexivity.
  - intros kind Hk.
    rewrite Create_print_line. cbv zeta.
    unfold PartsNumber. rewrite (SplitN_spaceless _ Hk). reflexivity.
Qed.

(** C8 (the code departs from it): the two scenarios hold, but a [print]
    line whose message is missing is not always an error: [print Response]
    or [print Request] followed by the separating space alone is accepted,
    with an empty message, whereas without that space the line is
    refused. *)
Theorem Create_print_space_accepted :
  command.Create macro "print Response "
    = Returned (NewPrintMsg {| Type_ := Response; Data := "" |}, None)
  ∧ command.Create macro "print Request "
    = Returned (NewPrintMsg {| Type_ := Request; Data := "" |}, None)
  ∧ command.Create macro "print Response"
    = Returned (None, Some (Errorf "not enough arguments for print command: %s"
                                   [ArgString "print Response"]))
  ∧ command.Create macro ("print Response " +:+ payload_a1)
    = Returned (NewPrintMsg {| Type_ := Response; Data := payload_a1 |}, None)
  ∧ command.Create macro "print Bogus x"
    = Returned (None, Some (Errorf "invalid message type: %s" [ArgString "print"])).
Proof. repeat split; reflexivity. Qed.

End FactoryLines.

Example Create_print_witness :
  command.Create None "print Bogus x"
  = Returned (None, Some (Errorf "invalid message type: %s" [ArgString "print"])).
Proof.
  destruct (Create_print None) as (_ & _ & H & _).
  apply (H "Bogus" "x"); [reflexivity|discriminate|discriminate].
Defined.

(** ** More fuel changes nothing *)

Section Fuel.

Context {E : Type} (exCtx : cmd.ExecutionContext E).

Lemma each_extends (d1 d2 : drainer E) subCommands w :
  extends d1 d2 →
  cmd.each d1 subCommands w ≠ Exhausted →
  cmd.each d2 subCommands w = cmd.each d1 subCommands w.
Proof.
  intros Hext. revert w.
  induction subCommands as [|c rest IH]; intros w; [reflexivity|].
  cbn [cmd.each]. intros Hne.
  destruct (d1 c w) as [[err w']| | |] eqn:Hd1;
    try (rewrite (Hext c w), Hd1 by (rewrite Hd1; discriminate); reflexivity).
  - rewrite (Hext c w), Hd1 by (rewrite Hd1; discriminate).
    cbn [mbind outcome_bind] in *.
    destruct (notnil err); [reflexivity|]. apply IH, Hne.
  - exfalso. apply Hne. reflexivity.
Qed.

Lemma again_extends (d1 d2 : drainer E) n c w :
  extends d1 d2 →
  cmd.again d1 n c w ≠ Exhausted →
  cmd.again d2 n c w = cmd.again d1 n c w.
Proof.
  intros Hext. revert w.
  induction n as [|n IH]; intros w; [reflexivity|].
  cbn [cmd.again]. intros Hne.
  destruct (d1 c w) as [[err w']| | |] eqn:Hd1;
    try (rewrite (Hext c w), Hd1 by (rewrite Hd1; discriminate); reflexivity).
  - rewrite (Hext c w), Hd1 by (rewrite Hd1; discriminate).
    cbn [mbind outcome_bind] in *.
    destruct (notnil err); [reflexivity|]. apply IH, Hne.
  - exfalso. apply Hne. reflexivity.
Qed.

Lemma fuel_step fuel :
  (∀ c w, cmd.Execute exCtx fuel c w ≠ Exhausted →
          cmd.Execute exCtx (S fuel) c w = cmd.Execute exCtx fuel c w)
  ∧ extends (cmd.drain exCtx fuel) (cmd.drain exCtx (S fuel)).
Proof.
  induction fuel as [|fuel [IHe IHd]].
  - split.
    + intros c w H. exfalso. apply H. reflexivity.
    + intros [c|] w H; [exfalso; apply H|]; reflexivity.
  - split.
    + intros c w H.
      destruct c; try reflexivity.
      * apply each_extends; assumption.
      * apply again_extends; assumption.
    + intros [c|] w H; [|reflexivity].
      change (cmd.drain exCtx (S (S fuel)) (Some c) w)
        with ('((next, err), w') ← cmd.Execute exCtx (S fuel) c w;
              if notnil err then Returned (err, w')
              else cmd.drain exCtx (S fuel) next w').
      change (cmd.drain exCtx (S fuel) (Some c) w)
        with ('((next, err), w') ← cmd.Execute exCtx fuel c w;
              if notnil err then Returned (err, w')
              else cmd.drain exCtx fuel next w') in H |- *.
      destruct (cmd.Execute exCtx fuel c w) as [[[next err] w']| | |] eqn:Hex;
        try (rewrite IHe, Hex by (rewrite Hex; discriminate); reflexivity).
      * rewrite IHe, Hex by (rewrite Hex; discriminate).
        cbn [mbind outcome_bind] in *.
        destruct (notnil err); [reflexivity|]. apply IHd, H.
      * exfalso. apply H. reflexivity.
Qed.

Lemma Execute_more_fuel fuel fuel' c w :
  (fuel ≤ fuel')%nat →
  cmd.Execute exCtx fuel c w ≠ Exhausted →
  cmd.Execute exCtx fuel' c w = cmd.Execute exCtx fuel c w.
Proof.
  induction 1 as [|fuel' _ IH]; [reflexivity|].
  intros H. rewrite <- (IH H).
  apply fuel_step. rewrite (IH H). exact H.
Qed.

Lemma drain_more_fuel fuel fuel' c w :
  (fuel ≤ fuel')%nat →
  cmd.drain exCtx fuel c w ≠ Exhausted →
  cmd.drain exCtx fuel' c w = cmd.drain exCtx fuel c w.
Proof.
  induction 1 as [|fuel' _ IH]; [reflexivity|].
  intros H. rewrite <- (IH H).
  apply fuel_step. rewrite (IH H). exact H.
Qed.

End Fuel.

(** ** Repeat *)

Section RepeatLines.

Variable macro : option command.MacroRepo.

Lemma Create_repeat_line count sub :
  spaceless count = true →
  command.Create macro ("repeat " +:+ count +:+ " " +:+ sub) =
    let '(times, err) := Atoi count in
    if notnil err || (times <=? 0) then
      Returned (None, Some (Errorf "invalid repeat times: %s" [ArgString count]))
    else
      '(subCommand, err) ← command.Create macro sub;
      if notnil err then Returned (None, err)
      else Returned (NewRepeatCommand times subCommand, None).
Proof.
  intros Hcount.
  change ("repeat " +:+ count +:+ " " +:+ sub)
    with ("repeat" +:+ " " +:+ (count +:+ " " +:+ sub)).
  destruct (Create_keyword macro "repeat" (count +:+ " " +:+ sub) eq_refl)
    as [-> Hparts].
  unfold command.Create_body. rewrite Hparts.
  cbn [String.append String.eqb index lookup list_lookup mbind outcome_bind].
  change (len ["repeat"; count +:+ " " +:+ sub] <? PartsNumber) with false.
  cbv iota. unfold PartsNumber. rewrite (SplitN_token _ _ Hcount).
  reflexivity.
Qed.

Lemma Create_repeat_count_only count :
  spaceless count = true →
  command.Create macro ("repeat " +:+ count) =
    let '(times, err) := Atoi count in
    if notnil err || (times <=? 0) then
      Returned (None, Some (Errorf "invalid repeat times: %s" [ArgString count]))
    else Panicked "index out of range".
Proof.
  intros Hcount.
  change ("repeat " +:+ count) with ("repeat" +:+ " " +:+ count).
  destruct (Create_keyword macro "repeat" count eq_refl) as [-> Hparts].
  unfold command.Create_body. rewrite Hparts.
  cbn [String.append String.eqb index lookup list_lookup mbind outcome_bind].
  change (len ["repeat"; count] <? PartsNumber) with false.
  cbv iota. unfold PartsNumber. rewrite (SplitN_spaceless _ Hcount).
  cbn [index lookup list_lookup mbind outcome_bind].
  destruct (Atoi count) as [times err].
  destruct (notnil err || (times <=? 0)); reflexivity.
Qed.

End RepeatLines.

Section RepeatRuns.

Context {E : Type} (exCtx : cmd.ExecutionContext E).

Lemma drain_extends fuel fuel' :
  (fuel ≤ fuel')%nat →
  extends (cmd.drain exCtx fuel) (cmd.drain exCtx fuel').
Proof. intros Hle c w H. apply drain_more_fuel; assumption. Qed.

Lemma again_chains n c w w' :
  chains exCtx c n w w' →
  ∃ fuel, ∀ fuel', (fuel ≤ fuel')%nat →
    cmd.again (cmd.drain exCtx fuel') n c w = Returned ((None, None), w').
Proof.
  induction 1 as [w|n w w1 w2 [f1 Hrun] _ [f2 IH]].
  - exists O. reflexivity.
  - exists (f1 `max` f2)%nat. intros fuel' Hle. cbn [cmd.again].
    rewrite (drain_more_fuel exCtx f1 fuel'), Hrun
      by (first [lia | rewrite Hrun; discriminate]).
    cbn [mbind outcome_bind notnil]. apply IH. lia.
Qed.

Lemma chains_again fuel n c w w' :
  cmd.again (cmd.drain exCtx fuel) n c w = Returned ((None, None), w') →
  chains exCtx c n w w'.
Proof.
  revert w. induction n as [|n IH]; intros w; cbn [cmd.again].
  - intros [= <-]. constructor.
  - destruct (cmd.drain exCtx fuel c w) as [[[e|] w1]| | |] eqn:Hrun;
      cbn [mbind outcome_bind notnil]; try discriminate.
    intros H. econstructor; [exists fuel; exact Hrun|exact (IH _ H)].
Qed.

Lemma again_aborts k n c w w1 e w2 :
  chains exCtx c k w w1 → aborts exCtx c w1 e w2 → (k < n)%nat →
  ∃ fuel, ∀ fuel', (fuel ≤ fuel')%nat →
    cmd.again (cmd.drain exCtx fuel') n c w = Returned ((None, Some e), w2).
Proof.
  intros Hruns [fa Habort]. revert n.
  induction Hruns as [w|k w w1 w' [f1 Hrun] _ IH]; intros n Hlt.
  - exists fa. intros fuel' Hle.
    destruct n as [|n]; [lia|]. cbn [cmd.again].
    rewrite (drain_more_fuel exCtx fa fuel'), Habort
      by (first [lia | rewrite Habort; discriminate]).
    reflexivity.
  - destruct n as [|n]; [lia|].
    destruct (IH Habort n) as [f2 IH2]; [lia|].
    exists (f1 `max` f2)%nat. intros fuel' Hle. cbn [cmd.again].
    rewrite (drain_more_fuel exCtx f1 fuel'), Hrun
      by (first [lia | rewrite Hrun; discriminate]).
    cbn [mbind outcome_bind notnil]. apply IH2. lia.
Qed.

(** The loop [for cmd != nil { cmd, err = cmd.Execute(exCtx) ... }] ends
    with [r] exactly when the steps it stands for can be taken one after
    the other: the command, then what it returned, and so on. *)
Lemma drain_unwinds fuel c w r w' :
  cmd.drain exCtx fuel c w = Returned (r, w') → unwinds exCtx c w r w'.
Proof.
  revert c w. induction fuel as [|fuel IH]; intros [c|] w.
  - discriminate.
  - intros [= <- <-]. constructor.
  - change (cmd.drain exCtx (S fuel) (Some c) w)
      with ('((next, err), w1) ← cmd.Execute exCtx fuel c w;
            if notnil err then Returned (err, w1)
            else cmd.drain exCtx fuel next w1).
    destruct (cmd.Execute exCtx fuel c w) as [[[next [e|]] w1]| | |] eqn:Hstep;
      cbn [mbind outcome_bind notnil]; try discriminate.
    + intros [= <- <-]. exact (unwinds_error exCtx c w fuel next e w1 Hstep).
    + intros Hrest.
      exact (unwinds_next exCtx c w fuel next w1 r w' Hstep (IH _ _ Hrest)).
  - intros [= <- <-]. constructor.
Qed.

Lemma unwinds_drain c w r w' :
  unwinds exCtx c w r w' → ∃ fuel, cmd.drain exCtx fuel c w = Returned (r, w').
Proof.
  induction 1 as [w|c w fuel next e w' Hstep|c w fuel next w1 r w2 Hstep _ [f2 IH]].
  - exists O. reflexivity.
  - exists (S fuel).
    change (cmd.drain exCtx (S fuel) (Some c) w)
      with ('((next, err), w1) ← cmd.Execute exCtx fuel c w;
            if notnil err then Returned (err, w1)
            else cmd.drain exCtx fuel next w1).
    rewrite Hstep. reflexivity.
  - exists (S (fuel `max` f2))%nat.
    change (cmd.drain exCtx (S (fuel `max` f2)) (Some c) w)
      with ('((next, err), w1) ← cmd.Execute exCtx (fuel `max` f2) c w;
            if notnil err then Returned (err, w1)
            else cmd.drain exCtx (fuel `max` f2) next w1).
    rewrite (Execute_more_fuel exCtx fuel), Hstep
      by (first [lia | rewrite Hstep; discriminate]).
    cbn [mbind outcome_bind notnil].
    rewrite (drain_more_fuel exCtx f2), IH
      by (first [lia | rewrite IH; discriminate]).
    reflexivity.
Qed.

Lemma chains_rounds n c w w' : chains exCtx c n w w' ↔ rounds exCtx c n w w'.
Proof.
  split.
  - induction 1 as [w|n w w1 w2 [fuel Hrun] _ IH]; [constructor|].
    econstructor; [exact (drain_unwinds _ _ _ _ _ Hrun)|exact IH].
  - induction 1 as [w|n w w1 w2 Hrun _ IH]; [constructor|].
    econstructor; [exact (unwinds_drain _ _ _ _ Hrun)|exact IH].
Qed.

Lemma again_aborted fuel n c w e w2 :
  cmd.again (cmd.drain exCtx fuel) n c w = Returned ((None, Some e), w2) →
  ∃ k w1, (k < n)%nat ∧ chains exCtx c k w w1 ∧ aborts exCtx c w1 e w2.
Proof.
  revert w. induction n as [|n IH]; intros w; cbn [cmd.again]; [discriminate|].
  destruct (cmd.drain exCtx fuel c w) as [[[bad|] w1]| | |] eqn:Hrun;
    cbn [mbind outcome_bind notnil]; try discriminate.
  - intros [= <- <-]. exists O, w.
    split; [lia|]. split; [constructor|]. exists fuel. exact Hrun.
  - intros H. destruct (IH _ H) as (k & w' & Hlt & Hruns & Habort).
    exists (S k), w'. split; [lia|]. split; [|exact Habort].
    econstructor; [exists fuel; exact Hrun|exact Hruns].
Qed.

(** A [repeat] never hands on a successor. *)
Lemma again_last (d : drainer E) n c w next err w' :
  cmd.again d n c w = Returned ((next, err), w') → next = None.
Proof.
  revert w. induction n as [|n IH]; intros w; cbn [cmd.again].
  - intros [= <- _ _]. reflexivity.
  - destruct (d c w) as [[[bad|] w1]| | |]; cbn [mbind outcome_bind notnil];
      try discriminate.
    + intros [= <- _ _]. reflexivity.
    + apply IH.
Qed.

End RepeatRuns.

(** [n] runs of [send request] on the transport that counts its writes,
    from any state: [n] more writes, and the request printed and filed
    [n] more times. *)
Lemma again_counting n request k s f :
  cmd.again (cmd.drain counting 3) n (NewSend request)
    {| cmd.env := k; cmd.screen := s; cmd.file := f |}
  = Returned ((None, None),
      {| cmd.env := (k + n)%nat; cmd.screen := s ++ sent request n;
         cmd.file := f ++ filed request n |}).
Proof.
  revert k s f. induction n as [|n IH]; intros k s f.
  - cbn [cmd.again sent filed replicate concat].
    rewrite !app_nil_r, Nat.add_0_r. reflexivity.
  - cbn [cmd.again].
    change (cmd.drain counting 3 (NewSend request)
              {| cmd.env := k; cmd.screen := s; cmd.file := f |})
      with (Returned (None : option error,
              {| cmd.env := S k;
                 cmd.screen := (s ++ [cmd.Colored cmd.FgGreen ("->" +:+ cmd.NL)])
                               ++ [cmd.Plain (request +:+ cmd.NL)];
                 cmd.file := f ++ [request +:+ cmd.NL] |})).
    cbn [mbind outcome_bind notnil]. rewrite IH.
    cbn [sent filed replicate concat]. rewrite <- !app_assoc.
    replace (S k + n)%nat with (k + S n)%nat by lia. reflexivity.
Qed.

(** C4: a line [repeat N cmd] whose [N] reads as a positive [int] and whose
    [cmd] parses gives a Repeat of the parsed command.  Executing it comes
    back without error (and with no successor) exactly when [N] runs of the
    sub-command can be taken one after the other, each made of the
    sub-command executed and then every command returned in turn executed
    until none is returned, and it comes back in the state the last run
    ended in; it comes back with an error exactly when fewer than [N] such
    runs were followed by one in which a command returned that error, in
    the state that command left.  So [repeat N send request] on a transport
    that counts its writes makes [N] writes and prints and files the
    request [N] times.  An [N] that does not read as an [int] or is not
    positive is rejected with an error, and an error from parsing [cmd] is
    returned as it is. *)
Theorem Repeat_runs_chain_N_times (macro : option command.MacroRepo) :
  (∀ count n sub subCommand,
     Atoi count = (n, None) → 0 < n →
     command.Create macro sub = Returned (subCommand, None) →
     command.Create macro ("repeat " +:+ count +:+ " " +:+ sub)
     = Returned (NewRepeatCommand n subCommand, None))
  ∧ (∀ (E : Type) (exCtx : cmd.ExecutionContext E) n subCommand w w',
       rounds exCtx subCommand (Z.to_nat n) w w' ↔
       ∃ fuel next, cmd.Execute exCtx fuel (RepeatCommand n subCommand) w
                    = Returned ((next, None), w'))
  ∧ (∀ (E : Type) (exCtx : cmd.ExecutionContext E) n subCommand w e w2,
       (∃ k w1, Z.of_nat k < n ∧ rounds exCtx subCommand k w w1
                ∧ unwinds exCtx subCommand w1 (Some e) w2) ↔
       ∃ fuel next, cmd.Execute exCtx fuel (RepeatCommand n subCommand) w
                    = Returned ((next, Some e), w2))
  ∧ (∀ (E : Type) (exCtx : cmd.ExecutionContext E) fuel n subCommand w next err w',
       cmd.Execute exCtx fuel (RepeatCommand n subCommand) w
       = Returned ((next, err), w') → next = None)
  ∧ (∀ count n request,
       Atoi count = (n, None) → 0 < n →
       ∃ repeated,
         command.Create macro ("repeat " +:+ count +:+ " send " +:+ request)
         = Returned (Some repeated, None)
         ∧ cmd.Execute counting 4 repeated (blank 0%nat)
           = Returned ((None, None),
               {| cmd.env := Z.to_nat n;
                  cmd.screen := sent request (Z.to_nat n);
                  cmd.file := filed request (Z.to_nat n) |}))
  ∧ (∀ count tail,
       spaceless count = true → (tail = "" ∨ ∃ sub, tail = " " +:+ sub) →
       (snd (Atoi count) ≠ None ∨ fst (Atoi count) ≤ 0) →
       command.Create macro ("repeat " +:+ count +:+ tail)
       = Returned (None, Some (Errorf "invalid repeat times: %s" [ArgString count])))
  ∧ (∀ count n sub r e,
       Atoi count = (n, None) → 0 < n →
       command.Create macro sub = Returned (r, Some e) →
       command.Create macro ("repeat " +:+ count +:+ " " +:+ sub)
       = Returned (None, Some e)).
Proof.
  assert (∀ count n sub,
            Atoi count = (n, None) → 0 < n →
            command.Create macro ("repeat " +:+ count +:+ " " +:+ sub)
            = '(subCommand, err) ← command.Create macro sub;
              if notnil err then Returned (None, err)
              else Returned (NewRepeatCommand n subCommand, None)) as Hline.
  { intros count n sub Hn Hpos.
    rewrite Create_repeat_line by exact (Atoi_spaceless _ _ Hn).
    rewrite Hn. cbn [notnil orb].
    destruct (Z.leb_spec n 0); [lia|reflexivity]. }
  split; [|split; [|split; [|split; [|split; [|split]]]]].
  - intros count n sub subCommand Hn Hpos Hsub.
    rewrite (Hline _ _ _ Hn Hpos), Hsub. reflexivity.
  - intros E exCtx n subCommand w w'. rewrite <- chains_rounds. split.
    + intros Hruns. destruct (again_chains exCtx _ _ _ _ Hruns) as [fuel H].
      exists (S fuel), None. cbn [cmd.Execute]. apply H. lia.
    + intros ([|fuel] & next & H); [discriminate|].
      cbn [cmd.Execute] in H.
      pose proof (again_last _ _ _ _ _ _ _ H) as ->.
      exact (chains_again exCtx _ _ _ _ _ H).
  - intros E exCtx n subCommand w e w2. split.
    + intros (k & w1 & Hlt & Hruns & Hbad).
      apply chains_rounds in Hruns.
      destruct (again_aborts exCtx k (Z.to_nat n) subCommand w w1 e w2 Hruns)
        as [fuel H]; [exact (unwinds_drain _ _ _ _ _ Hbad)|lia|].
      exists (S fuel), None. cbn [cmd.Execute]. apply H. lia.
    + intros ([|fuel] & next & H); [discriminate|].
      cbn [cmd.Execute] in H.
      pose proof (again_last _ _ _ _ _ _ _ H) as ->.
      destruct (again_aborted exCtx _ _ _ _ _ _ H) as (k & w1 & Hlt & Hruns & [f Hbad]).
      exists k, w1. split; [lia|].
      split; [apply chains_rounds; exact Hruns|exact (drain_unwinds _ _ _ _ _ _ Hbad)].
  - intros E exCtx [|fuel] n subCommand w next err w' H; [discriminate|].
    cbn [cmd.Execute] in H. exact (again_last _ _ _ _ _ _ _ H).
  - intros count n request Hn Hpos.
    exists (RepeatCommand n (Some (CommandSend request))). split.
    + change ("repeat " +:+ count +:+ " send " +:+ request)
        with ("repeat " +:+ count +:+ " " +:+ ("send " +:+ request)).
      rewrite (Hline _ _ _ Hn Hpos).
      rewrite (Create_send_line macro request). reflexivity.
    + cbn [cmd.Execute]. exact (again_counting (Z.to_nat n) request 0 [] []).
  - intros count tail Hcount Htail Hbad.
    assert (notnil (Atoi count).2 || ((Atoi count).1 <=? 0) = true) as Hrej.
    { destruct (Atoi count) as [times [err|]]; [reflexivity|].
      cbn [fst snd notnil orb] in *. destruct Hbad as [Hbad|Hbad]; [congruence|].
      apply Z.leb_le, Hbad. }
    destruct Htail as [->|[sub ->]].
    + replace (count +:+ "") with count
        by (clear; induction count as [|c s IH]; [reflexivity|];
            change (String c s +:+ "") with (String c (s +:+ "")); congruence).
      rewrite Create_repeat_count_only by exact Hcount.
      destruct (Atoi count) as [times err]. cbn [fst snd] in Hrej.
      rewrite Hrej. reflexivity.
    + rewrite Create_repeat_line by exact Hcount.
      destruct (Atoi count) as [times err]. cbn [fst snd] in Hrej.
      rewrite Hrej. reflexivity.
  - intros count n sub r e Hn Hpos Hsub.
    rewrite (Hline _ _ _ Hn Hpos), Hsub. reflexivity.
Qed.

Example Repeat_runs_chain_N_times_witness :
  Atoi "3" = (3, None) ∧ 0 < 3
  ∧ command.Create None "send x" = Returned (NewSend "x", None)
  ∧ command.Create None "repeat 3 send x"
    = Returned (NewRepeatCommand 3 (NewSend "x"), None)
  ∧ ∃ repeated,
      command.Create None "repeat 3 send x" = Returned (Some repeated, None)
      ∧ cmd.Execute counting 4 repeated (blank 0%nat)
        = Returned ((None, None),
            {| cmd.env := 3%nat; cmd.screen := sent "x" 3; cmd.file := filed "x" 3 |}).
Proof.
  destruct (Repeat_runs_chain_N_times None) as (Hparse & _ & _ & _ & Hsends & _).
  split; [reflexivity|]. split; [reflexivity|]. split; [reflexivity|]. split.
  - apply (Hparse "3" 3 "send x" (NewSend "x")); reflexivity.
  - apply (Hsends "3" 3 "x"); reflexivity.
Defined.

(** Three runs of [send x] on a transport that counts its writes: three
    writes, and the request printed and filed three times. *)
Example repeat_three_sends :
  cmd.Execute counting 4 (RepeatCommand 3 (NewSend "x")) (blank 0%nat)
  = Returned ((None, None),
      {| cmd.env := 3%nat;
         cmd.screen :=
           [cmd.Colored cmd.FgGreen ("->" +:+ cmd.NL); cmd.Plain ("x" +:+ cmd.NL);
            cmd.Colored cmd.FgGreen ("->" +:+ cmd.NL); cmd.Plain ("x" +:+ cmd.NL);
            cmd.Colored cmd.FgGreen ("->" +:+ cmd.NL); cmd.Plain ("x" +:+ cmd.NL)];
         cmd.file := ["x" +:+ cmd.NL; "x" +:+ cmd.NL; "x" +:+ cmd.NL] |}).
Proof. reflexivity. Qed.

(** ** Wait *)

Lemma Create_wait_line (macro : option command.MacroRepo) arg :
  command.Create macro ("wait " +:+ arg) =
    let '(sec, err) := Atoi arg in
    if notnil err || (sec <? 0) then Returned (None, Some (ErrInvalidTimeout arg))
    else Returned (NewWaitForResp (time.mul sec time.Second), None).
Proof.
  change ("wait " +:+ arg) with ("wait" +:+ " " +:+ arg).
  destruct (Create_keyword macro "wait" arg eq_refl) as [-> Hparts].
  unfold command.Create_body. rewrite Hparts.
  cbn [String.append String.eqb index lookup list_lookup mbind outcome_bind].
  destruct (Atoi arg) as [sec err]. reflexivity.
Qed.

(** C6: [wait 0] and [wait] give the same executer, a wait with no
    timeout; executing it reads the stream with no timer: a message gives a
    [PrintMessage] of it, the close of the stream a "connection closed"
    error, and it is never a timeout; a negative or non-numeric argument
    makes [Create] return an invalid-timeout error. *)
Theorem wait_zero_is_wait (macro : option command.MacroRepo) :
  command.Create macro "wait 0" = command.Create macro "wait"
  ∧ command.Create macro "wait" = Returned (NewWaitForResp 0, None)
  ∧ (∀ (E : Type) (exCtx : cmd.ExecutionContext E) fuel (w : cmd.World E),
       cmd.Execute exCtx (S fuel) (CommandWaitForResp 0) w =
         match cmd.Messages exCtx (cmd.env w) with
         | Some (Some msg, e) =>
             Returned ((NewCommandPrintMsg msg, None), cmd.with_env e w)
         | Some (None, e) =>
             Returned ((None, Some (Errorf "connection closed" [])), cmd.with_env e w)
         | None => Blocked
         end)
  ∧ (∀ (E : Type) (exCtx : cmd.ExecutionContext E) fuel (w w' : cmd.World E) next,
       cmd.Execute exCtx fuel (CommandWaitForResp 0) w
       ≠ Returned ((next, Some (Errorf "timeout" [])), w'))
  ∧ (∀ arg,
       snd (Atoi arg) ≠ None ∨ fst (Atoi arg) < 0 →
       command.Create macro ("wait " +:+ arg)
       = Returned (None, Some (ErrInvalidTimeout arg))).
Proof.
  split; [reflexivity|]. split; [reflexivity|]. repeat apply conj.
  - intros E exCtx fuel w. cbn [cmd.Execute].
    unfold cmd.CommandWaitForResp_Execute. cbn [Z.eqb].
    destruct (cmd.Messages exCtx (cmd.env w)) as [[[msg|] e]|]; reflexivity.
  - intros E exCtx [|fuel] w w' next; [discriminate|].
    cbn [cmd.Execute]. unfold cmd.CommandWaitForResp_Execute. cbn [Z.eqb].
    destruct (cmd.Messages exCtx (cmd.env w)) as [[[msg|] e]|]; discriminate.
  - intros arg Hbad. rewrite Create_wait_line.
    destruct (Atoi arg) as [sec [err|]]; [reflexivity|].
    cbn [fst snd notnil orb] in *. destruct Hbad as [Hbad|Hbad]; [congruence|].
    destruct (Z.ltb_spec sec 0); [reflexivity|lia].
Qed.

Example wait_zero_is_wait_witness :
  (snd (Atoi "-5") ≠ None ∨ fst (Atoi "-5") < 0)
  ∧ command.Create None "wait -5" = Returned (None, Some (ErrInvalidTimeout "-5")).
Proof.
  assert (snd (Atoi "-5") ≠ None ∨ fst (Atoi "-5") < 0) as H
    by (right; reflexivity).
  split; [exact H|].
  destruct (wait_zero_is_wait None) as (_ & _ & _ & _ & Hbad).
  exact (Hbad "-5" H).
Defined.

(** ** Printing a message *)

(** C10: for a message that is neither a Request nor a Response and that
    the formatter accepts, [PrintMessage] returns no successor and an
    "unknown message type" error, and leaves the screen and the file sink
    (and everything else) as they were. *)
Theorem PrintMsg_unknown_type {E : Type} (exCtx : cmd.ExecutionContext E)
    fuel msg output (w : cmd.World E) :
  Type_ msg ≠ Request → Type_ msg ≠ Response →
  cmd.Formater_FormatMessage exCtx msg = (output, None) →
  cmd.Execute exCtx (S fuel) (CommandPrintMsg msg) w
  = Returned ((None, Some (Errorf "unknown message type: %s, data: %q"
                                  [ArgType (Type_ msg); ArgString (Data msg)])), w).
Proof.
  intros Hreq Hresp Hfmt. cbn [cmd.Execute].
  unfold cmd.CommandPrintMsg_Execute. rewrite Hfmt. cbn [notnil].
  apply Z.eqb_neq in Hreq, Hresp. rewrite Hreq, Hresp. reflexivity.
Qed.

Example PrintMsg_unknown_type_witness :
  cmd.Execute counting 1 (CommandPrintMsg {| Type_ := NotDefined; Data := "x" |})
    (blank 0%nat)
  = Returned ((None, Some (Errorf "unknown message type: %s, data: %q"
                                  [ArgType NotDefined; ArgString "x"])), blank 0%nat).
Proof.
  apply (PrintMsg_unknown_type counting 0 {| Type_ := NotDefined; Data := "x" |} "x");
    [discriminate|discriminate|reflexivity].
Defined.

(** ** The command editor *)

(** [CommandCmdEdit.Execute] never consults the command-line editor: two
    contexts that differ in it alone give the same result. *)
Lemma CmdEdit_ignores_CmdEditor {E : Type} (exCtx : cmd.ExecutionContext E)
    other fuel (w : cmd.World E) :
  cmd.Execute
    {| cmd.OutputFile := cmd.OutputFile exCtx;
       cmd.Formater_FormatMessage := cmd.Formater_FormatMessage exCtx;
       cmd.Formater_FormatForFile := cmd.Formater_FormatForFile exCtx;
       cmd.ws_Send := cmd.ws_Send exCtx;
       cmd.Messages := cmd.Messages exCtx;
       cmd.timer_first := cmd.timer_first exCtx;
       cmd.elapse := cmd.elapse exCtx;
       cmd.RequestEditor_Edit := cmd.RequestEditor_Edit exCtx;
       cmd.CmdEditor_Edit := other;
       cmd.Macro_ := cmd.Macro_ exCtx |} (S fuel) CommandCmdEdit w
  = cmd.Execute exCtx (S fuel) CommandCmdEdit w.
Proof. reflexivity. Qed.

(** What [CommandCmdEdit.Execute] does with the line and the error that the
    request editor hands back: an editor error is returned, a line that
    parses gives the parsed command as next, and the error of a line that
    does not parse is printed and neither returned nor followed. *)
Lemma CmdEdit_outcomes {E : Type} (exCtx : cmd.ExecutionContext E)
    fuel (w : cmd.World E) rawCmd err e :
  cmd.RequestEditor_Edit exCtx "" (cmd.env w) = ((rawCmd, err), e) →
  let opened := cmd.Fprint (cmd.Plain cmd.ShowCursor) (cmd.Fprint (cmd.Plain ":") w) in
  let closed :=
    cmd.Fprint (cmd.Plain cmd.HideCursor)
      (cmd.Fprint (cmd.Plain (cmd.LineClear +:+ cmd.CR)) (cmd.with_env e opened)) in
  cmd.Execute exCtx (S fuel) CommandCmdEdit w =
    match err with
    | Some _ => Returned ((None, err), closed)
    | None =>
        '(next, perr) ← cmd.CommandFactory rawCmd (cmd.Macro_ exCtx);
        match perr with
        | Some _ =>
            Returned ((None, None), cmd.Fprint (cmd.ColoredErrLn cmd.FgRed perr) closed)
        | None => Returned ((next, None), closed)
        end
    end.
Proof.
  intros Hedit. cbn [cmd.Execute]. unfold cmd.CommandCmdEdit_Execute.
  cbn [cmd.Fprint cmd.env]. rewrite Hedit.
  destruct err as [err|]; [reflexivity|]. cbn [notnil].
  destruct (cmd.CommandFactory rawCmd (cmd.Macro_ exCtx)) as [[next [perr|]]| | |];
    reflexivity.
Qed.

(** C5 (the code departs from it): with a request editor that is handed
    [exit] and a command-line editor that is handed [send hello], CmdEdit
    opens the request editor and returns Exit as the next command. *)
Theorem CmdEdit_opens_request_editor :
  cmd.Execute two_editors 1 CommandCmdEdit (blank [])
  = Returned ((NewCommandExit, None),
      {| cmd.env := ["request editor"];
         cmd.screen := [cmd.Plain ":"; cmd.Plain cmd.ShowCursor;
                        cmd.Plain (cmd.LineClear +:+ cmd.CR);
                        cmd.Plain cmd.HideCursor];
         cmd.file := [] |}).
Proof. reflexivity. Qed.

(** ** Merging repositories *)

Section Merge.

Context {Templates : Type}.
Implicit Types (m src : macro.Repo Templates) (visit : list (string * Templates)).

Lemma merge_keeps_domains visit m :
  macro.domains (macro.merge m visit).1 = macro.domains m.
Proof.
  revert m. induction visit as [|[name cmd] rest IH]; intros m; [reflexivity|].
  cbn [macro.merge]. case_bool_decide; [reflexivity|]. rewrite IH. reflexivity.
Qed.

(** What the target held before, it still holds afterwards. *)
Lemma merge_keeps_target visit m k t :
  macro.macro m !! k = Some t →
  macro.macro (macro.merge m visit).1 !! k = Some t.
Proof.
  revert m. induction visit as [|[name cmd] rest IH]; intros m Hk; [exact Hk|].
  cbn [macro.merge]. case_bool_decide as Hdup; [exact Hk|].
  apply IH. cbn [macro.store macro.macro].
  rewrite lookup_insert_ne; [exact Hk|].
  intros ->. apply Hdup. rewrite Hk. eauto.
Qed.

(** What the target holds afterwards was its own or was visited. *)
Lemma merge_adds_visited visit m k t :
  macro.macro (macro.merge m visit).1 !! k = Some t →
  macro.macro m !! k = Some t ∨ (k, t) ∈ visit.
Proof.
  revert m. induction visit as [|[name cmd] rest IH]; intros m; [by left|].
  cbn [macro.merge]. case_bool_decide as Hdup; [by left|].
  intros [Hk|Hin]%IH.
  - cbn [macro.store macro.macro] in Hk.
    destruct (decide (name = k)) as [->|Hne].
    + rewrite lookup_insert_eq in Hk. injection Hk as ->. right. left.
    + rewrite lookup_insert_ne in Hk by exact Hne. by left.
  - right. by right.
Qed.

(** With a name of the target among those visited, the merge stops at
    the first such name. *)
Lemma merge_stops_at_shared visit m name :
  NoDup visit.*1 → name ∈ visit.*1 → is_Some (macro.macro m !! name) →
  ∃ shared, shared ∈ visit.*1 ∧ is_Some (macro.macro m !! shared)
            ∧ (macro.merge m visit).2 = Some (macro.duplicate shared).
Proof.
  revert m. induction visit as [|[n cmd] rest IH]; intros m Hnodup Hin Hsome.
  { by apply elem_of_nil in Hin. }
  cbn [fmap list_fmap fst] in Hnodup, Hin.
  apply NoDup_cons in Hnodup as [Hfresh Hnodup].
  cbn [macro.merge]. case_bool_decide as Hdup.
  - exists n. split; [left|]. by split.
  - apply elem_of_cons in Hin as [->|Hin]; [contradiction|].
    destruct (IH (macro.store n cmd m) Hnodup Hin) as (shared & Hs & Hm & Herr).
    { cbn [macro.store macro.macro]. rewrite lookup_insert_ne; [exact Hsome|].
      intros ->. contradiction. }
    exists shared. split; [by right|]. split; [|exact Herr].
    cbn [macro.store macro.macro] in Hm. rewrite lookup_insert_ne in Hm; [exact Hm|].
    intros ->. contradiction.
Qed.

Lemma ranges_NoDup (entries : gmap string Templates) visit :
  macro.ranges entries visit → NoDup visit.*1.
Proof.
  unfold macro.ranges. intros ->. apply NoDup_fst_map_to_list.
Qed.

Lemma ranges_elem_of (entries : gmap string Templates) visit k t :
  macro.ranges entries visit → (k, t) ∈ visit ↔ entries !! k = Some t.
Proof.
  unfold macro.ranges. intros ->. apply elem_of_map_to_list.
Qed.

(** A failed load gives no repository. *)
Lemma load_error_no_repo LoadFromFile range_of macroDir domain files macro_ :
  (macro.load Templates LoadFromFile range_of macroDir domain files macro_).2 ≠ None →
  (macro.load Templates LoadFromFile range_of macroDir domain files macro_).1 = None.
Proof.
  revert macro_. induction files as [|file rest IH]; intros macro_.
  { intros H. by destruct H. }
  cbn [macro.load].
  destruct (macro.IsDir file || _); [apply IH|].
  destruct (LoadFromFile _) as [fileMacro err].
  destruct (notnil err); [reflexivity|].
  destruct (negb _); [apply IH|].
  destruct macro_ as [m|]; [|apply IH].
  destruct (macro.merge m _) as [m' err'].
  destruct (notnil err'); [reflexivity|apply IH].
Qed.

(** C2, as the code has it: merging a source that shares a name with the
    target fails with a duplicate-name error for a shared name, whatever
    the order in which the source is visited; the target keeps all it
    held (and its domains) and holds besides only macros of the source;
    and a load that fails, on a merge or otherwise, gives no repository. *)
Theorem merge_shared_name_fails m src visit :
  macro.ranges (macro.macro src) visit →
  (∃ name, is_Some (macro.macro m !! name) ∧ is_Some (macro.macro src !! name)) →
  (∃ shared, is_Some (macro.macro m !! shared)
             ∧ is_Some (macro.macro src !! shared)
             ∧ (macro.merge m visit).2 = Some (macro.duplicate shared))
  ∧ (∀ k t, macro.macro m !! k = Some t →
            macro.macro (macro.merge m visit).1 !! k = Some t)
  ∧ (∀ k t, macro.macro (macro.merge m visit).1 !! k = Some t →
            macro.macro m !! k = Some t ∨ macro.macro src !! k = Some t)
  ∧ macro.domains (macro.merge m visit).1 = macro.domains m
  ∧ (∀ LoadFromFile range_of macroDir domain files,
       (macro.LoadMacroForDomain Templates LoadFromFile range_of
          macroDir domain files).2 ≠ None →
       (macro.LoadMacroForDomain Templates LoadFromFile range_of
          macroDir domain files).1 = None).
Proof.
  intros Hvisit (name & Hm & [t Hsrc]).
  repeat apply conj.
  - destruct (merge_stops_at_shared visit m name) as (shared & Hin & Hs & Herr).
    + exact (ranges_NoDup _ _ Hvisit).
    + apply list_elem_of_fmap. exists (name, t).
      split; [reflexivity|]. by apply (ranges_elem_of _ _ _ _ Hvisit).
    + exact Hm.
    + exists shared. split; [exact Hs|]. split; [|exact Herr].
      apply list_elem_of_fmap in Hin as ([k' t'] & -> & Hin).
      apply (ranges_elem_of _ _ _ _ Hvisit) in Hin. cbn [fst]. eauto.
  - intros k t'. apply merge_keeps_target.
  - intros k t' [H|H]%merge_adds_visited; [by left|right].
    by apply (ranges_elem_of _ _ _ _ Hvisit).
  - apply merge_keeps_domains.
  - intros LoadFromFile range_of macroDir domain files.
    apply load_error_no_repo.
Qed.

End Merge.

Lemma a_then_b_ranges : macro.ranges (macro.macro source_ab) a_then_b.
Proof.
  unfold macro.ranges, a_then_b, source_ab. cbn [macro.macro].
  rewrite map_to_list_insert by reflexivity.
  rewrite map_to_list_singleton. reflexivity.
Qed.

Lemma target_source_share :
  ∃ name, is_Some (macro.macro target_b !! name)
          ∧ is_Some (macro.macro source_ab !! name).
Proof. exists "b". split; eexists; reflexivity. Qed.

Example merge_shared_name_fails_witness :
  (macro.merge target_b a_then_b).2 = Some (macro.duplicate "b")
  ∧ macro.macro (macro.merge target_b a_then_b).1 !! "b" = Some tt.
Proof.
  destruct (merge_shared_name_fails target_b source_ab a_then_b
              a_then_b_ranges target_source_share) as (_ & Hkeep & _).
  split; [reflexivity|]. apply Hkeep. reflexivity.
Defined.

(** C2 as stated fails: visiting [a] before [b], the merge of [{a, b}] into
    [{b}] fails on [b] with [a] already stored in the target. *)
Lemma merge_failure_changes_target :
  ¬ (∀ (m src : macro.Repo unit) visit,
       macro.ranges (macro.macro src) visit →
       (∃ name, is_Some (macro.macro m !! name)
                ∧ is_Some (macro.macro src !! name)) →
       (∃ name, (macro.merge m visit).2 = Some (macro.duplicate name))
       ∧ (macro.merge m visit).1 = m).
Proof.
  intros H.
  destruct (H target_b source_ab a_then_b a_then_b_ranges target_source_share)
    as [_ Hsame].
  apply (f_equal (fun r => macro.macro r !! "a")) in Hsame.
  vm_compute in Hsame. discriminate Hsame.
Qed.

(** ** Closing a connection *)

(** C9: after [Close] the connection is marked closed; the first call on
    an open connection closes the transport once; every later call leaves
    the connection, and so the number of times its transport was closed, as
    it is; and a call neither panics nor waits. *)
Theorem Close_idempotent (c : ws.Connection) :
  ws.isClosed (ws.Close c) = true
  ∧ (ws.isClosed c = false → ws.ws_closes (ws.Close c) = S (ws.ws_closes c))
  ∧ ws.Close (ws.Close c) = ws.Close c
  ∧ (∀ n, Nat.iter n ws.Close (ws.Close c) = ws.Close c)
  ∧ (∀ s, ws.step s ws.Close_called = Returned (ws.with_conn (ws.Close (ws.conn s)) s)).
Proof.
  assert (ws.Close (ws.Close c) = ws.Close c) as Hagain.
  { unfold ws.Close. destruct (ws.isClosed c) eqn:Hc; cbn [ws.isClosed].
    - rewrite Hc. reflexivity.
    - reflexivity. }
  repeat apply conj.
  - unfold ws.Close. destruct (ws.isClosed c) eqn:Hc; [exact Hc|reflexivity].
  - intros Hc. unfold ws.Close. rewrite Hc. reflexivity.
  - exact Hagain.
  - induction n as [|n IH]; [reflexivity|].
    change (Nat.iter (S n) ws.Close (ws.Close c))
      with (ws.Close (Nat.iter n ws.Close (ws.Close c))).
    rewrite IH. exact Hagain.
  - intros s. unfold ws.step. destruct (ws.loop s); reflexivity.
Qed.

Example Close_idempotent_witness :
  ws.isClosed ws.NewWS = false
  ∧ ws.ws_closes (ws.Close (ws.Close (ws.Close ws.NewWS))) = 1%nat.
Proof.
  split; [reflexivity|].
  destruct (Close_idempotent ws.NewWS) as (_ & Hfirst & Hagain & _).
  rewrite !Hagain. apply Hfirst. reflexivity.
Defined.

(** ** The receive loop and the stream *)

Section Stream.

Implicit Types (s : ws.System) (e : ws.event) (schedule : list ws.event).

Lemma run_app a b s :
  ws.run (a ++ b) s = (s' ← ws.run a s; ws.run b s').
Proof.
  revert s. induction a as [|e a IH]; intros s; [reflexivity|].
  cbn [app ws.run]. destruct (ws.step s e); cbn [mbind outcome_bind]; auto.
Qed.

Lemma run_snoc a e s s' :
  ws.run (a ++ [e]) s = Returned s' ↔
  ∃ s0, ws.run a s = Returned s0 ∧ ws.step s0 e = Returned s'.
Proof.
  rewrite run_app. split.
  - destruct (ws.run a s) as [s0| | |]; cbn [mbind outcome_bind ws.run];
      try discriminate.
    destruct (ws.step s0 e) as [s1| | |] eqn:Hstep; cbn [mbind outcome_bind];
      try discriminate.
    intros [= <-]. eauto.
  - intros (s0 & -> & Hstep). cbn [mbind outcome_bind ws.run].
    rewrite Hstep. reflexivity.
Qed.

(** A step of a caller leaves the receive loop where it is. *)
Lemma step_of_caller s e s' :
  of_receiver e = false → ws.step s e = Returned s' → ws.loop s' = ws.loop s.
Proof.
  unfold ws.step. destruct e; try discriminate; intros _;
    destruct (ws.loop s) eqn:Hloop;
    repeat case_match; try discriminate; intros [= <-]; cbn; congruence.
Qed.

(** Once finished, the receive loop takes no step. *)
Lemma step_when_finished s e s' :
  ws.loop s = ws.Finished → ws.step s e = Returned s' → of_receiver e = false.
Proof.
  unfold ws.step. intros ->. destruct e; try reflexivity; discriminate.
Qed.

Lemma run_when_finished schedule s s' :
  ws.loop s = ws.Finished → ws.run schedule s = Returned s' →
  Forall (λ e, of_receiver e = false) schedule ∧ ws.loop s' = ws.Finished.
Proof.
  revert s. induction schedule as [|e rest IH]; intros s Hfin.
  { intros [= <-]. split; [constructor|exact Hfin]. }
  cbn [ws.run]. destruct (ws.step s e) as [s1| | |] eqn:Hstep; try discriminate.
  cbn [mbind outcome_bind]. intros Hrun.
  pose proof (step_when_finished _ _ _ Hfin Hstep) as He.
  destruct (IH s1) as [Hrest Hloop]; [|exact Hrun|].
  - rewrite (step_of_caller _ _ _ He Hstep). exact Hfin.
  - split; [constructor; assumption|exact Hloop].
Qed.

(** What a step to [close(Messages)] or from it looks like. *)
Lemma step_to_AtClose s e s' :
  ws.step s e = Returned s' → ws.loop s' = ws.AtClose →
  (e = ws.Wait_returns ∧ ws.loop s = ws.AtWait ∧ ws.waitGroup (ws.conn s) = 0)
  ∨ (of_receiver e = false ∧ ws.loop s = ws.AtClose).
Proof.
  intros Hstep Hloop.
  destruct (of_receiver e) eqn:He.
  - left. unfold ws.step in Hstep.
    destruct e; try discriminate He; destruct (ws.loop s) eqn:Hs;
      repeat case_match; try discriminate;
      injection Hstep as <-; cbn in Hloop; try discriminate.
    repeat split; try reflexivity. by apply Z.eqb_eq.
  - right. split; [reflexivity|].
    rewrite <- (step_of_caller _ _ _ He Hstep). exact Hloop.
Qed.

Lemma step_Close_stream s s' :
  ws.step s ws.Close_stream = Returned s' →
  ws.loop s = ws.AtClose ∧ ws.loop s' = ws.Finished
  ∧ ws.Messages_closed (ws.conn s') = true.
Proof.
  unfold ws.step. destruct (ws.loop s); try discriminate.
  case_match; try discriminate. intros [= <-]. by repeat split.
Qed.

(** The loop stands at [close(Messages)] only after [Wait] found the
    counter at zero, and has taken no step since. *)
Lemma AtClose_after_wait schedule s :
  ws.run schedule ws.started = Returned s → ws.loop s = ws.AtClose →
  ∃ before since s1,
    schedule = before ++ ws.Wait_returns :: since
    ∧ ws.run before ws.started = Returned s1
    ∧ ws.loop s1 = ws.AtWait ∧ ws.waitGroup (ws.conn s1) = 0
    ∧ Forall (λ e, of_receiver e = false) since.
Proof.
  revert s. induction schedule as [|e schedule IH] using rev_ind; intros s.
  { intros [= <-]. discriminate. }
  intros (s0 & Hrun & Hstep)%run_snoc Hloop.
  destruct (step_to_AtClose _ _ _ Hstep Hloop) as [(-> & Hs0 & Hzero)|[He Hs0]].
  - exists schedule, [], s0. by repeat split.
  - destruct (IH s0 Hrun Hs0) as (before & since & s1 & -> & H1 & H2 & H3 & H4).
    exists before, (since ++ [e]), s1. repeat split; try assumption.
    + rewrite <- app_assoc. reflexivity.
    + apply Forall_app. split; [exact H4|]. by constructor.
Qed.

(** The stream is closed exactly while the loop is finished; so neither
    the send on the stream nor its close can panic. *)
Lemma step_keeps_invariant s e :
  closed_when_finished s →
  match ws.step s e with
  | Returned s' => closed_when_finished s'
  | Panicked _ => False
  | _ => True
  end.
Proof.
  unfold closed_when_finished, ws.step, ws.Close.
  destruct s as [[closes buf closed wg flag] loop]; cbn.
  intros ->. destruct e, loop; cbn; try exact I; try reflexivity;
    repeat case_match; simplify_eq; cbn in *;
    try exact I; try reflexivity; try discriminate.
Qed.

Lemma run_keeps_invariant schedule s :
  closed_when_finished s →
  match ws.run schedule s with
  | Returned s' => closed_when_finished s'
  | Panicked _ => False
  | _ => True
  end.
Proof.
  revert s. induction schedule as [|e rest IH]; intros s Hinv; [exact Hinv|].
  cbn [ws.run]. pose proof (step_keeps_invariant s e Hinv) as Hstep.
  destruct (ws.step s e) as [s1| | |]; cbn [mbind outcome_bind];
    [exact (IH s1 Hstep)|contradiction|exact I|exact I].
Qed.

(** C3, as the code has it: when the stream is closed, the receive loop
    had left its loop and its [Wait] had found the in-flight counter at
    zero, with no step of the loop in between; after the close the loop
    takes no step, so nothing is delivered on the stream and it is not
    closed again, nor was it closed before; and no schedule makes the
    send on the stream or its close panic. *)
Theorem stream_closed_once_after_wait before after s :
  ws.run (before ++ ws.Close_stream :: after) ws.started = Returned s →
  (∃ earlier since s1,
     before = earlier ++ ws.Wait_returns :: since
     ∧ ws.run earlier ws.started = Returned s1
     ∧ ws.loop s1 = ws.AtWait ∧ ws.waitGroup (ws.conn s1) = 0
     ∧ Forall (λ e, of_receiver e = false) since)
  ∧ Forall (λ e, of_receiver e = false) after
  ∧ (ws.Close_stream ∉ before)
  ∧ ws.Messages_closed (ws.conn s) = true
  ∧ (∀ schedule msg, ws.run schedule ws.started ≠ Panicked msg).
Proof.
  intros Hrun.
  assert (∀ a b s', ws.run (a ++ ws.Close_stream :: b) ws.started = Returned s' →
            ∃ s0 s1, ws.run a ws.started = Returned s0
                     ∧ ws.step s0 ws.Close_stream = Returned s1
                     ∧ ws.run b s1 = Returned s') as Hsplit.
  { intros a b s'. rewrite run_app.
    destruct (ws.run a ws.started) as [s0| | |]; cbn [mbind outcome_bind ws.run];
      try discriminate.
    destruct (ws.step s0 ws.Close_stream) as [s1| | |] eqn:Hstep;
      cbn [mbind outcome_bind]; try discriminate.
    intros H. eauto. }
  assert (∀ a b s', ws.run (a ++ ws.Close_stream :: b) ws.started = Returned s' →
            Forall (λ e, of_receiver e = false) b
            ∧ ws.Messages_closed (ws.conn s') = true) as Hafter.
  { intros a b s' (s0 & s1 & Ha & Hstep & Hb)%Hsplit.
    destruct (step_Close_stream _ _ Hstep) as (_ & Hfin & _).
    destruct (run_when_finished _ _ _ Hfin Hb) as [Hall Hfin'].
    split; [exact Hall|].
    pose proof (run_keeps_invariant (a ++ ws.Close_stream :: b) ws.started
                  eq_refl) as Hinv.
    rewrite run_app, Ha in Hinv. cbn [mbind outcome_bind ws.run] in Hinv.
    rewrite Hstep in Hinv. cbn [mbind outcome_bind] in Hinv. rewrite Hb in Hinv.
    unfold closed_when_finished in Hinv. rewrite Hfin' in Hinv. exact Hinv. }
  destruct (Hsplit _ _ _ Hrun) as (s0 & s1 & Hbefore & Hstep & _).
  destruct (step_Close_stream _ _ Hstep) as (Hs0 & _).
  destruct (Hafter _ _ _ Hrun) as [Hall Hclosed].
  repeat apply conj.
  - exact (AtClose_after_wait _ _ Hbefore Hs0).
  - exact Hall.
  - intros (a & b & ->)%list_elem_of_split.
    rewrite <- app_assoc in Hrun. cbn [app] in Hrun.
    destruct (Hafter _ _ _ Hrun) as [Hno _].
    apply Forall_app in Hno as [_ Hno]. by inversion Hno.
  - exact Hclosed.
  - intros schedule msg Hpanic.
    pose proof (run_keeps_invariant schedule ws.started eq_refl) as Hinv.
    rewrite Hpanic in Hinv. exact Hinv.
Qed.

End Stream.

Example stream_closed_once_after_wait_witness :
  ws.run ([ws.Receive_ok "pong"; ws.Publish; ws.Send_begins; ws.Receive_err;
           ws.Send_ends; ws.Wait_returns] ++ ws.Close_stream :: [ws.Consume; ws.Consume])
         ws.started
  = Returned {| ws.conn := ws.set_Messages [] true ws.NewWS; ws.loop := ws.Finished |}
  ∧ Forall (λ e, of_receiver e = false) [ws.Consume; ws.Consume].
Proof.
  assert (ws.run ([ws.Receive_ok "pong"; ws.Publish; ws.Send_begins; ws.Receive_err;
                   ws.Send_ends; ws.Wait_returns]
                  ++ ws.Close_stream :: [ws.Consume; ws.Consume]) ws.started
          = Returned {| ws.conn := ws.set_Messages [] true ws.NewWS;
                        ws.loop := ws.Finished |}) as Hrun by reflexivity.
  split; [exact Hrun|].
  exact (proj1 (proj2 (stream_closed_once_after_wait _ _ _ Hrun))).
Defined.

(** C3 as stated fails: a [Send] that begins once [Wait] has returned is
    still in flight when the stream is closed, and ends after it. *)
Lemma stream_closed_with_send_in_flight :
  ¬ (∀ before after s0 s,
       ws.run before ws.started = Returned s0 →
       ws.run (before ++ ws.Close_stream :: after) ws.started = Returned s →
       ws.waitGroup (ws.conn s0) = 0).
Proof.
  intros H.
  specialize (H [ws.Receive_err; ws.Wait_returns; ws.Send_begins] [ws.Send_ends]
                _ _ eq_refl eq_refl).
  discriminate H.
Qed.

(** * Further properties of the code *)

(** ** The factory: where it panics, what it hands on *)

Lemma Cut_space_join s before after :
  strings.Cut s " " = Some (before, after) → s = before +:+ " " +:+ after.
Proof.
  revert before; induction s as [|c s IH]; intros before; [discriminate|].
  rewrite Cut_space_cons.
  destruct (Ascii.eqb_spec c " ") as [->|_].
  - intros [= <- <-]. reflexivity.
  - destruct (strings.Cut s " ") as [[b a]|]; [|discriminate].
    intros [= <- <-].
    change (String c b +:+ " " +:+ a) with (String c (b +:+ " " +:+ a)).
    f_equal. exact (IH b eq_refl).
Qed.

Lemma Cut_space_before s before after :
  strings.Cut s " " = Some (before, after) → spaceless before = true.
Proof.
  revert before; induction s as [|c s IH]; intros before; [discriminate|].
  rewrite Cut_space_cons.
  destruct (Ascii.eqb c " ") eqn:Hc.
  - intros [= <- <-]. reflexivity.
  - destruct (strings.Cut s " ") as [[b a]|]; [|discriminate].
    intros [= <- <-]. cbn [spaceless]. rewrite Hc, (IH b eq_refl). reflexivity.
Qed.

Lemma Cut_space_none s : strings.Cut s " " = None → spaceless s = true.
Proof.
  induction s as [|c s IH]; [reflexivity|].
  rewrite Cut_space_cons.
  destruct (Ascii.eqb c " ") eqn:Hc; [discriminate|].
  destruct (strings.Cut s " ") as [[b a]|]; [discriminate|].
  intros _. cbn [spaceless]. rewrite Hc, IH; reflexivity.
Qed.

Lemma append_length a b :
  String.length (a +:+ b) = (String.length a + String.length b)%nat.
Proof.
  induction a as [|c a IH]; [reflexivity|].
  change (String c a +:+ b) with (String c (a +:+ b)).
  cbn [String.length]. rewrite IH. reflexivity.
Qed.

(** A text is a token, or a token, a space and a remainder. *)
Lemma token_or_split s :
  spaceless s = true
  ∨ ∃ token rest, spaceless token = true ∧ s = token +:+ " " +:+ rest.
Proof.
  destruct (strings.Cut s " ") as [[b a]|] eqn:Hcut.
  - right. exists b, a. split; [exact (Cut_space_before _ _ _ Hcut)|].
    exact (Cut_space_join _ _ _ Hcut).
  - left. exact (Cut_space_none _ Hcut).
Qed.

Section FactoryPanics.

Variable macro : option command.MacroRepo.

Lemma Create_token token keyword :
  spaceless token = true →
  index (strings.SplitN token " " PartsNumber) 0 = Returned keyword →
  keyword = token.
Proof.
  intros Htoken. unfold PartsNumber. rewrite (SplitN_spaceless _ Htoken).
  intros [= <-]. reflexivity.
Qed.

Lemma Create_repeat_alone :
  command.Create macro "repeat"
  = Returned (None, Some (Errorf "not enough arguments for repeat command: %s"
                                 [ArgString "repeat"])).
Proof. reflexivity. Qed.

Lemma count_only_panics raw :
  count_only raw → command.Create macro raw = Panicked "index out of range".
Proof.
  induction 1 as [count (times & Hn & Hpos)|count sub (times & Hn & Hpos) _ IH].
  - pose proof (Atoi_spaceless count times Hn) as Hcount.
    rewrite (Create_repeat_count_only macro count Hcount).
    rewrite Hn. cbn [notnil orb]. destruct (Z.leb_spec times 0); [lia|reflexivity].
  - pose proof (Atoi_spaceless count times Hn) as Hcount.
    rewrite (Create_repeat_line macro count sub Hcount).
    rewrite Hn, IH. cbn [notnil orb].
    destruct (Z.leb_spec times 0); [lia|reflexivity].
Qed.

Lemma accepted_count count :
  (let '(times, err) := Atoi count in notnil err || (times <=? 0)) = false →
  repeatable count.
Proof.
  destruct (Atoi count) as [times [err|]] eqn:Hn; [discriminate|].
  cbn [notnil orb]. intros Hpos%Z.leb_gt. exists times. split; [exact Hn|lia].
Qed.

Lemma panics_count_only raw msg :
  command.Create macro raw = Panicked msg → count_only raw.
Proof.
  remember (String.length raw) as n eqn:Hn.
  revert raw msg Hn. induction (lt_wf n) as [n _ IH]. intros raw msg -> Hpanic.
  destruct (token_or_split raw) as [Htoken|(keyword & rest & Hkw & ->)].
  - (* a line that is one token *)
    destruct (SplitN_first raw) as [keyword Hfirst].
    pose proof (Create_token _ _ Htoken Hfirst) as ->.
    destruct (String.eqb_spec raw "repeat") as [->|Hne].
    + rewrite Create_repeat_alone in Hpanic. discriminate.
    + pose proof (Create_returns_unless_repeat macro raw raw Hfirst Hne) as Hret.
      rewrite Hpanic in Hret. destruct Hret.
  - destruct (String.eqb_spec keyword "repeat") as [->|Hne].
    + change ("repeat" +:+ " " +:+ rest) with ("repeat " +:+ rest) in *.
      destruct (token_or_split rest) as [Hcount|(count & sub & Hcount & ->)].
      * rewrite (Create_repeat_count_only macro _ Hcount) in Hpanic.
        constructor. apply accepted_count.
        destruct (Atoi rest) as [times err].
        destruct (notnil err || (times <=? 0)); [discriminate|reflexivity].
      * rewrite (Create_repeat_line macro _ _ Hcount) in Hpanic.
        assert (repeatable count) as Hok.
        { apply accepted_count. destruct (Atoi count) as [times err].
          destruct (notnil err || (times <=? 0)); [discriminate|reflexivity]. }
        constructor; [exact Hok|].
        destruct Hok as (times & Hn & Hpos). rewrite Hn in Hpanic.
        cbn [notnil orb] in Hpanic.
        destruct (Z.leb_spec times 0); [lia|].
        destruct (command.Create macro sub) as [[subCommand err]|msg'| |] eqn:Hsub;
          cbn [mbind outcome_bind] in Hpanic; try discriminate.
        { destruct (notnil err); discriminate. }
        apply (IH (String.length sub)) with (msg := msg'); [|reflexivity|exact Hsub].
        rewrite !append_length. cbn [String.length]. lia.
    + assert (index (strings.SplitN (keyword +:+ " " +:+ rest) " " PartsNumber) 0
              = Returned keyword) as Hfirst.
      { unfold PartsNumber. rewrite (SplitN_token _ _ Hkw). reflexivity. }
      pose proof (Create_returns_unless_repeat macro _ _ Hfirst Hne) as Hret.
      rewrite Hpanic in Hret. destruct Hret.
Qed.

End FactoryPanics.

(** On the [repeat] lines, nested or not, whose innermost [repeat] has an
    accepted count and no sub-command, [Create] panics, with or without a
    macro repository (such a line never reaches it).  A factory without a
    macro repository panics on no other line: there it returns, an
    executer or an error. *)
Theorem Create_panics_iff raw :
  (count_only raw →
   ∀ macro, command.Create macro raw = Panicked "index out of range")
  ∧ ((∃ msg, command.Create None raw = Panicked msg) ↔ count_only raw)
  ∧ (¬ count_only raw → returns (command.Create None raw)).
Proof.
  split; [|split; [split|]].
  - intros H macro. exact (count_only_panics macro _ H).
  - intros [msg H]. exact (panics_count_only None _ _ H).
  - intros H. eexists. exact (count_only_panics None _ H).
  - intros Hnot. pose proof (Create_settles None raw) as Hback.
    destruct (command.Create None raw) as [r|msg| |] eqn:Hraw;
      [exact I| |destruct Hback|destruct Hback].
    exfalso. apply Hnot. exact (panics_count_only None _ _ Hraw).
Qed.

Example Create_panics_iff_witness :
  count_only "repeat 2 repeat 3"
  ∧ command.Create (Some (λ _ _, (NewExit, None))) "repeat 2 repeat 3"
    = Panicked "index out of range".
Proof.
  assert (count_only "repeat 2 repeat 3") as H.
  { apply (count_only_inside "2" "repeat 3").
    - exists 2. split; [reflexivity|lia].
    - apply (count_only_here "3"). exists 3. split; [reflexivity|lia]. }
  split; [exact H|]. exact (proj1 (Create_panics_iff _) H _).
Defined.

Section FactoryHandsOn.

Variable macro : option command.MacroRepo.

(** What follows the first space of a [send] or [edit] line is taken whole,
    spaces and all, as the request or as the text to edit. *)
Theorem Create_keeps_remainder rest :
  command.Create macro ("send " +:+ rest) = Returned (NewSend rest, None)
  ∧ command.Create macro ("edit " +:+ rest) = Returned (NewEdit rest, None).
Proof.
  split.
  - change ("send " +:+ rest) with ("send" +:+ " " +:+ rest).
    destruct (Create_keyword macro "send" rest eq_refl) as [-> Hparts].
    unfold command.Create_body. rewrite Hparts. reflexivity.
  - change ("edit " +:+ rest) with ("edit" +:+ " " +:+ rest).
    destruct (Create_keyword macro "edit" rest eq_refl) as [-> Hparts].
    unfold command.Create_body. rewrite Hparts. reflexivity.
Qed.

Lemma builtin_false keyword :
  builtin keyword = false →
  String.eqb keyword "exit" = false ∧ String.eqb keyword "edit" = false
  ∧ String.eqb keyword "editcmd" = false ∧ String.eqb keyword "send" = false
  ∧ String.eqb keyword "print" = false ∧ String.eqb keyword "wait" = false
  ∧ String.eqb keyword "repeat" = false ∧ String.eqb keyword "sleep" = false.
Proof.
  unfold builtin. intros H.
  repeat (apply orb_false_elim in H as [H ?]). by repeat split.
Qed.

(** A line whose keyword is none of the eight that [Create] handles goes to
    the macro repository, the keyword as the name and what follows the
    first space (or nothing) as the arguments; without a repository it is
    an unknown command, named in the error. *)
Theorem Create_hands_to_macros keyword args :
  spaceless keyword = true → builtin keyword = false →
  command.Create macro (keyword +:+ " " +:+ args)
  = match macro with
    | Some repo => Returned (repo keyword args)
    | None => Returned (None, Some (ErrUnknownCommand keyword))
    end
  ∧ (keyword ≠ "" →
     command.Create macro keyword
     = match macro with
       | Some repo => Returned (repo keyword "")
       | None => Returned (None, Some (ErrUnknownCommand keyword))
       end).
Proof.
  intros Hkw (H1 & H2 & H3 & H4 & H5 & H6 & H7 & H8)%builtin_false. split.
  - destruct (Create_keyword macro keyword args Hkw) as [-> Hparts].
    unfold command.Create_body. rewrite Hparts.
    destruct (String.eqb_spec (keyword +:+ " " +:+ args) "") as [Hempty|_].
    { destruct keyword; discriminate Hempty. }
    cbn [index lookup list_lookup mbind outcome_bind].
    rewrite H1, H2, H3, H4, H5, H6, H7, H8. reflexivity.
  - intros Hne. rewrite Create_unfold. unfold command.Create_body, PartsNumber.
    rewrite (SplitN_spaceless _ Hkw).
    apply String.eqb_neq in Hne. rewrite Hne.
    cbn [index lookup list_lookup mbind outcome_bind].
    rewrite H1, H2, H3, H4, H5, H6, H7, H8. reflexivity.
Qed.

(** The repository is never asked about a line whose keyword is [exit],
    [edit], [editcmd], [send], [print], [wait] or [sleep]: a macro of such
    a name cannot be reached. *)
Theorem Create_builtin_shadows_macro raw keyword :
  index (strings.SplitN raw " " PartsNumber) 0 = Returned keyword →
  builtin keyword = true → keyword ≠ "repeat" →
  command.Create macro raw = command.Create None raw.
Proof.
  intros Hkw Hb Hne.
  rewrite !Create_unfold. unfold command.Create_body.
  destruct (String.eqb raw ""); [reflexivity|].
  rewrite Hkw. cbn [mbind outcome_bind].
  apply String.eqb_neq in Hne. unfold builtin in Hb. rewrite Hne in *.
  repeat (match goal with
          | |- (if ?b then _ else _) = (if ?b then _ else _) =>
              let Hc := fresh in destruct b eqn:Hc; try reflexivity
          end).
  cbn [orb] in Hb. discriminate Hb.
Qed.

End FactoryHandsOn.

Example Create_hands_to_macros_witness :
  command.Create (Some (fun name args => (NewSend (name +:+ "/" +:+ args), None)))
                 "greet big world"
  = Returned (NewSend "greet/big world", None).
Proof.
  apply (proj1 (Create_hands_to_macros
                  (Some (fun name args => (NewSend (name +:+ "/" +:+ args), None)))
                  "greet" "big world" eq_refl eq_refl)).
Defined.

Example Create_builtin_shadows_macro_witness :
  command.Create (Some (fun _ _ => (NewExit, None))) "send hello"
  = command.Create None "send hello".
Proof.
  apply (Create_builtin_shadows_macro _ "send hello" "send");
    [reflexivity|reflexivity|discriminate].
Defined.

(** ** Seconds and durations *)

Lemma Create_sleep_line (macro : option command.MacroRepo) arg :
  command.Create macro ("sleep " +:+ arg) =
    let '(sec, err) := Atoi arg in
    if notnil err || (sec <? 0) then
      Returned (None, Some (Errorf "invalid sleep duration: %s" [ArgString arg]))
    else Returned (NewSleepCommand (time.mul sec time.Second), None).
Proof.
  change ("sleep " +:+ arg) with ("sleep" +:+ " " +:+ arg).
  destruct (Create_keyword macro "sleep" arg eq_refl) as [-> Hparts].
  unfold command.Create_body. rewrite Hparts.
  cbn [String.append String.eqb index lookup list_lookup mbind outcome_bind].
  change (len ["sleep"; arg] <? PartsNumber) with false. cbv iota.
  destruct (Atoi arg) as [sec err]. reflexivity.
Qed.

Lemma seconds_fit sec :
  0 ≤ sec → (time.mul sec time.Second = sec * 1000000000 ↔ sec ≤ 9223372036).
Proof.
  intros Hsec. unfold time.mul, time.wrap64, time.Second. split.
  - intros H. destruct (Z.le_gt_cases sec 9223372036) as [|Hbig]; [assumption|].
    exfalso.
    pose proof (Z.mod_pos_bound (sec * 1000000000 + 2 ^ 63) (2 ^ 64) eq_refl).
    lia.
  - intros Hfit. rewrite Z.mod_small; lia.
Qed.

(** A number of seconds from 0 to 9223372036 gives [wait] and [sleep] that
    many thousand million nanoseconds; a larger one does not fit an [int64]
    of nanoseconds and the executer gets another duration. *)
Theorem Create_seconds (macro : option command.MacroRepo) count sec :
  Atoi count = (sec, None) → 0 ≤ sec →
  ∃ duration,
    command.Create macro ("wait " +:+ count) = Returned (NewWaitForResp duration, None)
    ∧ command.Create macro ("sleep " +:+ count)
      = Returned (NewSleepCommand duration, None)
    ∧ (duration = sec * 1000000000 ↔ sec ≤ 9223372036).
Proof.
  intros Hn Hsec. exists (time.mul sec time.Second).
  rewrite Create_wait_line, Create_sleep_line, Hn. cbn [notnil orb].
  destruct (Z.ltb_spec sec 0); [lia|].
  repeat split; try reflexivity; apply seconds_fit; assumption.
Qed.

Example Create_seconds_witness :
  ∃ duration,
    command.Create None "wait 90" = Returned (NewWaitForResp duration, None)
    ∧ command.Create None "sleep 90" = Returned (NewSleepCommand duration, None)
    ∧ (duration = 90 * 1000000000 ↔ 90 ≤ 9223372036).
Proof. apply (Create_seconds None "90" 90); [reflexivity|lia]. Defined.

(** A number of seconds that is a multiple of 2^55 wraps around to a
    duration of zero: [wait] with it is [wait] with no argument, which
    reads the stream with no timer. *)
Theorem Create_wait_wraps_to_zero (macro : option command.MacroRepo) count sec :
  Atoi count = (sec, None) → 0 ≤ sec → sec mod 2 ^ 55 = 0 →
  command.Create macro ("wait " +:+ count) = command.Create macro "wait".
Proof.
  intros Hn Hsec Hmod.
  rewrite Create_wait_line, Hn. cbn [notnil orb].
  destruct (Z.ltb_spec sec 0); [lia|].
  replace (time.mul sec time.Second) with 0; [reflexivity|].
  unfold time.mul, time.wrap64, time.Second.
  apply Z.mod_divide in Hmod as [k ->]; [|lia].
  replace (k * 2 ^ 55 * 1000000000 + 2 ^ 63)
    with (2 ^ 63 + (k * 1953125) * 2 ^ 64) by lia.
  rewrite Z.mod_add by lia. reflexivity.
Qed.

Example Create_wait_wraps_to_zero_witness :
  command.Create None "wait 36028797018963968" = command.Create None "wait".
Proof.
  apply (Create_wait_wraps_to_zero None "36028797018963968" 36028797018963968);
    [reflexivity|lia|reflexivity].
Defined.

(** ** The factory of [pkg/cmd] *)

Ltac split_line raw :=
  rewrite ?(SplitN_two raw) in *;
  destruct (strings.Cut raw " ") as [[? ?]|];
  repeat match goal with
         | |- context [len [?a; ?b]] => change (len [a; b]) with 2
         | |- context [len [?a]] => change (len [a]) with 1
         | H : context [len [?a; ?b]] |- _ => change (len [a; b]) with 2 in H
         | H : context [len [?a]] |- _ => change (len [a]) with 1 in H
         end;
  cbn [index lookup list_lookup mbind outcome_bind Z.ltb Z.eqb Z.compare
       Pos.compare Pos.compare_cont Pos.eqb] in *.

(** [CommandFactory] returns on every line: each part it reads is there. *)
Theorem CommandFactory_returns raw macro :
  ∃ r, cmd.CommandFactory raw macro = Returned r.
Proof.
  unfold cmd.CommandFactory, CommandPartsNumber.
  destruct (String.eqb raw ""); [eauto|].
  split_line raw;
    repeat (match goal with
            | |- ∃ r, Returned _ = Returned r => eexists; reflexivity
            | |- ∃ r, (if ?b then _ else _) = _ => destruct b
            | |- ∃ r, match ?m with Some _ => _ | None => _ end = _ => destruct m
            | |- ∃ r, (let '(_, _) := ?p in _) = _ => destruct p
            end).
Qed.

(** A line that [CommandFactory] turns into an executer, with no macros at
    hand, [Factory.Create] turns into the same executer. *)
Theorem Create_extends_CommandFactory raw c :
  cmd.CommandFactory raw None = Returned (Some c, None) →
  command.Create None raw = Returned (Some c, None).
Proof.
  rewrite Create_unfold.
  unfold cmd.CommandFactory, command.Create_body, CommandPartsNumber, PartsNumber.
  destruct (String.eqb raw ""); [discriminate|].
  split_line raw; intros H;
    match goal with
    | H : context [String.eqb ?k "exit"] |- _ =>
        destruct (String.eqb_spec k "exit") as [->|?];
          [first [exact H|discriminate H]|];
        destruct (String.eqb_spec k "edit") as [->|?];
          [first [exact H|discriminate H]|];
        destruct (String.eqb_spec k "send") as [->|?];
          [first [exact H|discriminate H]|];
        destruct (String.eqb_spec k "wait") as [->|?]; [|discriminate H];
        cbn [String.eqb Ascii.eqb Bool.eqb] in *;
        first [ exact H
              | destruct (Atoi _) as [sec err];
                destruct (notnil err || (sec <? 0)); [discriminate H|exact H] ]
    end.
Qed.

Example Create_extends_CommandFactory_witness :
  cmd.CommandFactory "wait 7" None = Returned (NewCommandWaitForResp 7000000000, None)
  ∧ command.Create None "wait 7" = Returned (NewCommandWaitForResp 7000000000, None).
Proof.
  assert (cmd.CommandFactory "wait 7" None
          = Returned (NewCommandWaitForResp 7000000000, None)) as H by reflexivity.
  split; [exact H|]. exact (Create_extends_CommandFactory _ _ H).
Defined.

(** ** What executing a command does to the sinks *)

Section Sinks.

Context {E : Type} (exCtx : cmd.ExecutionContext E).

(** A relation between the world before and after that every effect of a
    command respects. *)
Variable R : cmd.World E → cmd.World E → Prop.
Hypothesis R_refl : ∀ w, R w w.
Hypothesis R_trans : ∀ w1 w2 w3, R w1 w2 → R w2 w3 → R w1 w3.
Hypothesis R_Fprint : ∀ c w, R w (cmd.Fprint c w).
Hypothesis R_env : ∀ e w, R w (cmd.with_env e w).
Hypothesis R_file :
  ∀ s w, cmd.OutputFile exCtx = true → R w (cmd.FprintFile s w).

Ltac effects :=
  repeat first
    [ apply R_refl
    | eapply R_trans;
      [|first [apply R_Fprint | apply R_env
              | apply R_file; first [assumption | reflexivity]]] ].

Lemma each_respects (d : drainer E) subCommands w r w' :
  (∀ c w r w', d c w = Returned (r, w') → R w w') →
  cmd.each d subCommands w = Returned (r, w') → R w w'.
Proof.
  intros Hd. revert w.
  induction subCommands as [|c rest IH]; intros w; cbn [cmd.each].
  - intros [= <- <-]. apply R_refl.
  - destruct (d c w) as [[err w1]| | |] eqn:Hrun; cbn [mbind outcome_bind];
      try discriminate.
    pose proof (Hd _ _ _ _ Hrun) as H1.
    destruct (notnil err).
    + intros [= <- <-]. exact H1.
    + intros H. exact (R_trans _ _ _ H1 (IH _ H)).
Qed.

Lemma again_respects (d : drainer E) n c w r w' :
  (∀ c w r w', d c w = Returned (r, w') → R w w') →
  cmd.again d n c w = Returned (r, w') → R w w'.
Proof.
  intros Hd. revert w.
  induction n as [|n IH]; intros w; cbn [cmd.again].
  - intros [= <- <-]. apply R_refl.
  - destruct (d c w) as [[err w1]| | |] eqn:Hrun; cbn [mbind outcome_bind];
      try discriminate.
    pose proof (Hd _ _ _ _ Hrun) as H1.
    destruct (notnil err).
    + intros [= <- <-]. exact H1.
    + intros H. exact (R_trans _ _ _ H1 (IH _ H)).
Qed.

Lemma simple_commands_respect c w r w' :
  match c with
  | CommandSequence _ | RepeatCommand _ _ => True
  | _ => ∀ fuel, cmd.Execute exCtx (S fuel) c w = Returned (r, w') → R w w'
  end.
Proof.
  destruct c; try exact I; intros fuel; cbn [cmd.Execute].
  - intros [= <- <-]. apply R_refl.
  - unfold cmd.CommandEdit_Execute.
    destruct (cmd.RequestEditor_Edit exCtx _ _) as [[req err] e].
    destruct (notnil err || _); intros [= <- <-]; effects.
  - unfold cmd.CommandSend_Execute.
    destruct (cmd.Connection_Send exCtx _ _) as [[m err] e].
    destruct (notnil err); [intros [= <- <-]; effects|].
    destruct m; [|discriminate]. intros [= <- <-]; effects.
  - unfold cmd.CommandPrintMsg_Execute.
    destruct (cmd.Formater_FormatMessage exCtx msg) as [output err].
    destruct (notnil err); [intros [= <- <-]; effects|].
    destruct (Type_ msg =? Request); [|destruct (Type_ msg =? Response)];
      try (intros [= <- <-]; effects);
      destruct (cmd.OutputFile exCtx) eqn:Hfile; try (intros [= <- <-]; effects);
      destruct (cmd.Formater_FormatForFile exCtx msg) as [out2 err2];
      destruct (notnil err2); intros [= <- <-]; effects.
  - unfold cmd.CommandWaitForResp_Execute.
    destruct (timeout =? 0);
      destruct (cmd.Messages exCtx (cmd.env w)) as [[[m|] e]|];
      try discriminate; try destruct (cmd.timer_first exCtx _ _);
      intros [= <- <-]; effects.
  - unfold cmd.CommandCmdEdit_Execute.
    destruct (cmd.RequestEditor_Edit exCtx _ _) as [[rawCmd err] e].
    destruct (notnil err); [intros [= <- <-]; effects|].
    destruct (cmd.CommandFactory rawCmd _) as [[next perr]| | |];
      cbn [mbind outcome_bind]; try discriminate.
    destruct (notnil perr); intros [= <- <-]; effects.
  - intros [= <- <-]. effects.
Qed.

Lemma fuel_respects fuel :
  (∀ c w r w', cmd.Execute exCtx fuel c w = Returned (r, w') → R w w')
  ∧ (∀ c w r w', cmd.drain exCtx fuel c w = Returned (r, w') → R w w').
Proof.
  induction fuel as [|fuel [IHe IHd]].
  - split; [discriminate|].
    intros [c|] w r w'; [discriminate|]. intros [= <- <-]. apply R_refl.
  - split.
    + intros c w r w'.
      pose proof (simple_commands_respect c w r w') as Hsimple.
      destruct c; try exact (Hsimple fuel); cbn [cmd.Execute].
      * apply each_respects. exact IHd.
      * apply again_respects. exact IHd.
    + intros [c|] w r w'; [|intros [= <- <-]; apply R_refl].
      change (cmd.drain exCtx (S fuel) (Some c) w)
        with ('((next, err), w1) ← cmd.Execute exCtx fuel c w;
              if notnil err then Returned (err, w1)
              else cmd.drain exCtx fuel next w1).
      destruct (cmd.Execute exCtx fuel c w) as [[[next err] w1]| | |] eqn:Hex;
        cbn [mbind outcome_bind]; try discriminate.
      pose proof (IHe _ _ _ _ Hex) as H1.
      destruct (notnil err).
      * intros [= <- <-]. exact H1.
      * intros H. exact (R_trans _ _ _ H1 (IHd _ _ _ _ H)).
Qed.

End Sinks.

Lemma grows_refl {E : Type} (w : cmd.World E) : grows w w.
Proof. split; reflexivity. Qed.

Lemma grows_trans {E : Type} (w1 w2 w3 : cmd.World E) :
  grows w1 w2 → grows w2 w3 → grows w1 w3.
Proof. intros [H1 H2] [H3 H4]. split; etrans; eassumption. Qed.

(** Commands only ever append to the screen and to the file sink: whatever
    a command and the chain it starts do, what was written before is still
    there, in front. *)
Theorem Execute_only_appends {E : Type} (exCtx : cmd.ExecutionContext E) fuel :
  (∀ c w r w', cmd.Execute exCtx fuel c w = Returned (r, w') → grows w w')
  ∧ (∀ c w r w', cmd.drain exCtx fuel c w = Returned (r, w') → grows w w').
Proof.
  apply fuel_respects.
  - apply grows_refl.
  - apply grows_trans.
  - intros c w. split; [by apply prefix_app_r|reflexivity].
  - intros e w. split; reflexivity.
  - intros s w _. split; [reflexivity|by apply prefix_app_r].
Qed.

(** Without a file sink in the context, no command touches the record of
    the file sink. *)
Theorem Execute_without_file_sink {E : Type} (exCtx : cmd.ExecutionContext E) fuel :
  cmd.OutputFile exCtx = false →
  (∀ c w r w', cmd.Execute exCtx fuel c w = Returned (r, w') → cmd.file w' = cmd.file w)
  ∧ (∀ c w r w', cmd.drain exCtx fuel c w = Returned (r, w') → cmd.file w' = cmd.file w).
Proof.
  intros Hnone.
  apply (fuel_respects exCtx (λ w w', cmd.file w' = cmd.file w)).
  - reflexivity.
  - intros w1 w2 w3 H1 H2. congruence.
  - reflexivity.
  - reflexivity.
  - intros s w Hsome. congruence.
Qed.

Example Execute_without_file_sink_witness :
  cmd.OutputFile two_editors = false
  ∧ ∀ c w r w', cmd.Execute two_editors 5 c w = Returned (r, w') →
                cmd.file w' = cmd.file w.
Proof.
  split; [reflexivity|].
  exact (proj1 (Execute_without_file_sink two_editors 5 eq_refl)).
Defined.

(** ** Sequences *)

Section Sequences.

Context {E : Type} (exCtx : cmd.ExecutionContext E).

Lemma Execute_Sequence fuel subCommands w :
  cmd.Execute exCtx (S fuel) (CommandSequence subCommands) w
  = cmd.each (cmd.drain exCtx fuel) subCommands w.
Proof. reflexivity. Qed.

Lemma drain_Some fuel c w :
  cmd.drain exCtx (S fuel) (Some c) w
  = ('((next, err), w') ← cmd.Execute exCtx fuel c w;
     if notnil err then Returned (err, w') else cmd.drain exCtx fuel next w').
Proof. reflexivity. Qed.

Lemma drain_None fuel w : cmd.drain exCtx fuel None w = Returned (None, w).
Proof. destruct fuel; reflexivity. Qed.

Lemma each_app (d : drainer E) a b w :
  cmd.each d (a ++ b) w =
    ('((next, err), w1) ← cmd.each d a w;
     if notnil err then Returned ((next, err), w1) else cmd.each d b w1).
Proof.
  revert w. induction a as [|c a IH]; intros w; [reflexivity|].
  cbn [app cmd.each].
  destruct (d c w) as [[err w1]| | |]; cbn [mbind outcome_bind]; try reflexivity.
  destruct (notnil err) eqn:Herr; [|apply IH].
  cbn [mbind outcome_bind]. rewrite Herr. reflexivity.
Qed.

(** A sequence of [a] followed by [b] is the sequence of [a] and then,
    unless that returned an error, the sequence of [b]: an error in [a]
    is the result and nothing of [b] runs. *)
Theorem Sequence_app fuel a b w :
  cmd.Execute exCtx fuel (CommandSequence (a ++ b)) w =
    ('((next, err), w1) ← cmd.Execute exCtx fuel (CommandSequence a) w;
     if notnil err then Returned ((next, err), w1)
     else cmd.Execute exCtx fuel (CommandSequence b) w1).
Proof.
  destruct fuel as [|fuel]; [reflexivity|]. cbn [cmd.Execute]. apply each_app.
Qed.

Lemma each_skips_nil (d : drainer E) subCommands w :
  (∀ w, d None w = Returned (None, w)) →
  cmd.each d subCommands w = cmd.each d (filter is_Some subCommands) w.
Proof.
  intros Hnil. revert w.
  induction subCommands as [|[c|] rest IH]; intros w; [reflexivity| |].
  - rewrite filter_cons_True by (eexists; reflexivity). cbn [cmd.each].
    destruct (d (Some c) w) as [[err w1]| | |];
      cbn [mbind outcome_bind]; try reflexivity.
    destruct (notnil err); [reflexivity|apply IH].
  - rewrite filter_cons_False by (intros [? ?]; discriminate).
    cbn [cmd.each]. rewrite Hnil. cbn [mbind outcome_bind notnil]. apply IH.
Qed.

(** The nil entries of a sequence are passed over. *)
Theorem Sequence_skips_nil fuel subCommands w :
  cmd.Execute exCtx fuel (CommandSequence subCommands) w
  = cmd.Execute exCtx fuel (CommandSequence (filter is_Some subCommands)) w.
Proof.
  destruct fuel as [|fuel]; [reflexivity|]. cbn [cmd.Execute].
  apply each_skips_nil. intros w'. destruct fuel; reflexivity.
Qed.

(** A command that returns an error right away stops a sequence there:
    what comes before it in the sequence has run, what comes after has
    not ([exit] in the middle of a macro ends it). *)
Theorem Sequence_stops_at_error fuel before c e after w w1 w2 :
  cmd.Execute exCtx (S fuel) (CommandSequence before) w = Returned ((None, None), w1) →
  cmd.Execute exCtx fuel c w1 = Returned ((None, Some e), w2) →
  cmd.Execute exCtx (S (S fuel)) (CommandSequence (before ++ Some c :: after)) w
  = Returned ((None, Some e), w2).
Proof.
  intros Hbefore Hc.
  rewrite Sequence_app.
  rewrite (Execute_more_fuel exCtx (S fuel) (S (S fuel))), Hbefore
    by (first [lia | rewrite Hbefore; discriminate]).
  cbn [mbind outcome_bind notnil].
  rewrite Execute_Sequence. cbn [cmd.each]. rewrite drain_Some, Hc. reflexivity.
Qed.

End Sequences.

Example Sequence_stops_at_error_witness :
  cmd.Execute counting 5
    (CommandSequence [NewCommandSend "a"; NewCommandExit; NewCommandSend "b"])
    (blank 0%nat)
  = Returned ((None, Some (Errorf "interrupted" [])),
      {| cmd.env := 1%nat;
         cmd.screen := [cmd.Colored cmd.FgGreen ("->" +:+ cmd.NL);
                        cmd.Plain ("a" +:+ cmd.NL)];
         cmd.file := ["a" +:+ cmd.NL] |}).
Proof.
  eapply (Sequence_stops_at_error counting 3 [NewCommandSend "a"] CommandExit
            (Errorf "interrupted" []) [NewCommandSend "b"]); reflexivity.
Defined.

(** ** Single commands *)

Section Commands.

Context {E : Type} (exCtx : cmd.ExecutionContext E).

(** The chain that [send] starts.  When the transport takes the request
    and the formatter accepts it, the request is printed behind the green
    outbound marker, filed if there is a file sink, and the chain ends
    without error; when the transport refuses it, the chain ends with the
    wrapped error and nothing is printed or filed.  [Send] itself never
    panics: it has a message whenever it has no error. *)
Theorem send_chain fuel request w :
  let '(err, e) := cmd.ws_Send exCtx request (cmd.env w) in
  let msg := {| Data := request; Type_ := Request |} in
  match err with
  | Some _ =>
      cmd.drain exCtx (S (S fuel)) (NewCommandSend request) w
      = Returned (Some (Errorf "fail to send request: %s" [ArgError err]),
                  cmd.with_env e w)
  | None =>
      cmd.Execute exCtx (S fuel) (CommandSend request) w
      = Returned ((NewCommandPrintMsg msg, None), cmd.with_env e w)
      ∧ ∀ output,
          cmd.Formater_FormatMessage exCtx msg = (output, None) →
          (cmd.OutputFile exCtx = false →
           cmd.drain exCtx (S (S (S fuel))) (NewCommandSend request) w
           = Returned (None,
               {| cmd.env := e;
                  cmd.screen := cmd.screen w
                                ++ [cmd.Colored cmd.FgGreen ("->" +:+ cmd.NL);
                                    cmd.Plain (output +:+ cmd.NL)];
                  cmd.file := cmd.file w |}))
          ∧ (∀ filed,
               cmd.OutputFile exCtx = true →
               cmd.Formater_FormatForFile exCtx msg = (filed, None) →
               cmd.drain exCtx (S (S (S fuel))) (NewCommandSend request) w
               = Returned (None,
                   {| cmd.env := e;
                      cmd.screen := cmd.screen w
                                    ++ [cmd.Colored cmd.FgGreen ("->" +:+ cmd.NL);
                                        cmd.Plain (output +:+ cmd.NL)];
                      cmd.file := cmd.file w ++ [filed +:+ cmd.NL] |}))
  end.
Proof.
  destruct (cmd.ws_Send exCtx request (cmd.env w)) as [err e] eqn:Hsend.
  assert (∀ k, cmd.Execute exCtx (S k) (CommandSend request) w
          = match err with
            | Some _ =>
                Returned ((None, Some (Errorf "fail to send request: %s"
                                              [ArgError err])), cmd.with_env e w)
            | None =>
                Returned ((NewCommandPrintMsg {| Data := request; Type_ := Request |},
                           None), cmd.with_env e w)
            end) as Hexec.
  { intros k. cbn [cmd.Execute]. unfold cmd.CommandSend_Execute, cmd.Connection_Send.
    rewrite Hsend. destruct err; reflexivity. }
  destruct err as [bad|].
  - unfold NewCommandSend. rewrite drain_Some, Hexec. reflexivity.
  - split; [apply Hexec|]. intros output Hfmt.
    assert (cmd.drain exCtx (S (S (S fuel))) (NewCommandSend request) w
            = ('((next, err), w') ←
                 cmd.CommandPrintMsg_Execute exCtx
                   {| Data := request; Type_ := Request |} (cmd.with_env e w);
               if notnil err then Returned (err, w')
               else cmd.drain exCtx (S fuel) next w')) as Hchain.
    { unfold NewCommandSend. rewrite drain_Some, Hexec.
      cbn [mbind outcome_bind notnil]. unfold NewCommandPrintMsg.
      rewrite drain_Some. reflexivity. }
    split.
    + intros Hnone. rewrite Hchain.
      unfold cmd.CommandPrintMsg_Execute. rewrite Hfmt, Hnone.
      cbn. unfold cmd.Fprint, cmd.with_env. cbn. rewrite <- app_assoc. reflexivity.
    + intros filed Hsome Hfiled. rewrite Hchain.
      unfold cmd.CommandPrintMsg_Execute. rewrite Hfmt, Hsome, Hfiled.
      cbn. unfold cmd.FprintFile, cmd.Fprint, cmd.with_env. cbn.
      rewrite <- app_assoc. reflexivity.
Qed.

(** Whatever the request editor hands back, [Edit] shows the cursor before
    it and hides it after it: the screen gets the marker, show-cursor, the
    line clearing and hide-cursor, in that order, and the file sink
    nothing.  It never goes on to send an empty request, and when it goes
    on to a command it returns no error. *)
Theorem Edit_restores_cursor fuel content w :
  ∃ next err w',
    cmd.Execute exCtx (S fuel) (CommandEdit content) w = Returned ((next, err), w')
    ∧ cmd.screen w' = cmd.screen w
                      ++ [cmd.Colored cmd.FgGreen ("->" +:+ cmd.NL);
                          cmd.Plain cmd.ShowCursor;
                          cmd.Plain (cmd.LineUp +:+ cmd.LineClear);
                          cmd.Plain cmd.HideCursor]
    ∧ cmd.file w' = cmd.file w
    ∧ next ≠ NewCommandSend ""
    ∧ (next ≠ None → err = None ∧ ∃ req, next = NewCommandSend req).
Proof.
  cbn [cmd.Execute]. unfold cmd.CommandEdit_Execute.
  destruct (cmd.RequestEditor_Edit exCtx content _) as [[req err] e].
  assert (∀ A (x y : list A) a b c d,
            (((x ++ [a]) ++ [b]) ++ [c]) ++ [d] = x ++ [a; b; c; d]) as Hfour.
  { intros. rewrite <- !app_assoc. reflexivity. }
  destruct err as [bad|]; cbn [notnil orb].
  - eexists _, _, _. split; [reflexivity|]. cbn.
    split; [apply Hfour; exact []|]. split; [reflexivity|].
    split; [discriminate|]. intros Hnext. by destruct Hnext.
  - destruct (String.eqb_spec req "") as [->|Hreq].
    + eexists _, _, _. split; [reflexivity|]. cbn.
      split; [apply Hfour; exact []|]. split; [reflexivity|].
      split; [discriminate|]. intros Hnext. by destruct Hnext.
    + eexists _, _, _. split; [reflexivity|]. cbn.
      split; [apply Hfour; exact []|]. split; [reflexivity|].
      split; [intros [= H]; contradiction|].
      intros _. split; [reflexivity|]. eexists. reflexivity.
Qed.

(** [CmdEdit] always comes back, and the error it returns is the editor's:
    a line that does not parse ends the chain without an error. *)
Theorem CmdEdit_error_is_editors fuel w :
  ∃ next w',
    cmd.Execute exCtx (S fuel) CommandCmdEdit w
    = Returned ((next, (cmd.RequestEditor_Edit exCtx "" (cmd.env w)).1.2), w').
Proof.
  cbn [cmd.Execute]. unfold cmd.CommandCmdEdit_Execute. cbn [cmd.Fprint cmd.env].
  destruct (cmd.RequestEditor_Edit exCtx "" (cmd.env w)) as [[rawCmd err] e].
  cbn [fst snd]. destruct err as [bad|]; cbn [notnil]; [eauto|].
  destruct (CommandFactory_returns rawCmd (cmd.Macro_ exCtx)) as [[next perr] ->].
  cbn [mbind outcome_bind]. destruct (notnil perr); eauto.
Qed.

(** A wait with a timeout always comes back: with nothing ever arriving on
    the stream it is the timeout error once the time has gone by. *)
Theorem Wait_with_timeout_returns fuel timeout w :
  timeout ≠ 0 →
  (∃ r, cmd.Execute exCtx (S fuel) (CommandWaitForResp timeout) w = Returned r)
  ∧ (cmd.Messages exCtx (cmd.env w) = None →
     cmd.Execute exCtx (S fuel) (CommandWaitForResp timeout) w
     = Returned ((None, Some (Errorf "timeout" [])),
                 cmd.with_env (cmd.elapse exCtx timeout (cmd.env w)) w)).
Proof.
  intros Hne%Z.eqb_neq. cbn [cmd.Execute]. unfold cmd.CommandWaitForResp_Execute.
  rewrite Hne. split.
  - destruct (cmd.Messages exCtx (cmd.env w)) as [[[msg|] e]|]; [| |eauto];
      destruct (cmd.timer_first exCtx timeout (cmd.env w)); eauto.
  - intros ->. reflexivity.
Qed.

(** When [PrintMessage] returns an error there is no successor and nothing
    has reached the file sink; the screen is untouched as well unless it is
    the formatting for the file that failed, in which case the marker and
    the message are already on the screen. *)
Theorem PrintMsg_error_leaves_file fuel msg w next e w' :
  cmd.Execute exCtx (S fuel) (CommandPrintMsg msg) w = Returned ((next, Some e), w') →
  next = None ∧ cmd.file w' = cmd.file w ∧ cmd.env w' = cmd.env w
  ∧ (cmd.screen w' = cmd.screen w
     ∨ (cmd.OutputFile exCtx = true
        ∧ e = Errorf "fail to write to output file: %s"
                [ArgError (cmd.Formater_FormatForFile exCtx msg).2]
        ∧ ∃ marker,
            cmd.screen w' = cmd.screen w
              ++ [marker;
                  cmd.Plain ((cmd.Formater_FormatMessage exCtx msg).1 +:+ cmd.NL)])).
Proof.
  cbn [cmd.Execute]. unfold cmd.CommandPrintMsg_Execute.
  destruct (cmd.Formater_FormatMessage exCtx msg) as [output err].
  destruct (notnil err); [intros [= <- <- <-]; by repeat split; try left|].
  destruct (Type_ msg =? Request); [|destruct (Type_ msg =? Response)];
    try (intros [= <- <- <-]; by repeat split; try left);
    destruct (cmd.OutputFile exCtx); try discriminate;
    destruct (cmd.Formater_FormatForFile exCtx msg) as [filed ferr];
    destruct (notnil ferr); try discriminate;
    intros [= <- <- <-]; repeat split; right; repeat split;
    eexists; cbn; rewrite <- app_assoc; reflexivity.
Qed.

End Commands.

Example Wait_with_timeout_returns_witness :
  5000000000 ≠ 0
  ∧ cmd.Execute counting 1 (CommandWaitForResp 5000000000) (blank 0%nat)
    = Returned ((None, Some (Errorf "timeout" [])), blank 0%nat).
Proof.
  split; [discriminate|].
  apply (proj2 (Wait_with_timeout_returns counting 0 5000000000 (blank 0%nat)
                  ltac:(discriminate))).
  reflexivity.
Defined.

Example PrintMsg_error_leaves_file_witness :
  cmd.file (blank 0%nat) = cmd.file (blank 0%nat)
  ∧ cmd.Execute counting 1 (CommandPrintMsg {| Data := "x"; Type_ := 7 |}) (blank 0%nat)
    = Returned ((None, Some (Errorf "unknown message type: %s, data: %q"
                               [ArgType 7; ArgString "x"])), blank 0%nat).
Proof.
  assert (cmd.Execute counting 1 (CommandPrintMsg {| Data := "x"; Type_ := 7 |})
            (blank 0%nat)
          = Returned ((None, Some (Errorf "unknown message type: %s, data: %q"
                                     [ArgType 7; ArgString "x"])), blank 0%nat))
    as H by reflexivity.
  split; [|exact H].
  exact (proj1 (proj2 (PrintMsg_error_leaves_file counting 0 _ _ _ _ _ H))).
Defined.

Example send_chain_witness :
  cmd.drain counting 3 (NewCommandSend "ping") (blank 0%nat)
  = Returned (None,
      {| cmd.env := 1%nat;
         cmd.screen := [cmd.Colored cmd.FgGreen ("->" +:+ cmd.NL);
                        cmd.Plain ("ping" +:+ cmd.NL)];
         cmd.file := ["ping" +:+ cmd.NL] |}).
Proof.
  pose proof (send_chain counting 0 "ping" (blank 0%nat)) as H.
  cbn [counting cmd.ws_Send blank cmd.env] in H.
  destruct H as [_ H]. destruct (H "ping" eq_refl) as [_ Hfile].
  exact (Hfile "ping" eq_refl eq_refl).
Defined.

(** ** Building and merging repositories *)

Section Repositories.

Context {Templates : Type}.
Variable NewMacro : list string → Templates * option error.
Implicit Types (m src : macro.Repo Templates) (visit : list (string * Templates)).

(** [AddCommands] that returns an error leaves the repository as it was;
    the name taken, no commands and a template that cannot be built are
    the three ways it does. *)
Theorem AddCommands_error_unchanged m name rawCommands :
  (macro.AddCommands NewMacro m name rawCommands).2 ≠ None →
  (macro.AddCommands NewMacro m name rawCommands).1 = m
  ∧ (is_Some (macro.macro m !! name) ∨ rawCommands = []
     ∨ (NewMacro rawCommands).2 ≠ None).
Proof.
  unfold macro.AddCommands.
  case_bool_decide as Hdup; [intros _; split; [reflexivity|by left]|].
  destruct rawCommands as [|c rest]; [intros _; split; [reflexivity|by right; left]|].
  change (len (c :: rest) =? 0) with false. cbv iota.
  destruct (NewMacro (c :: rest)) as [cmds [err|]]; cbn [notnil fst snd].
  - intros _. split; [reflexivity|]. right; right. discriminate.
  - intros H. by destruct H.
Qed.

(** [AddCommands] that returns no error has stored the template under the
    name, which was free, and touched no other name; from then on the name
    is taken: adding it again fails with the duplicate error and changes
    nothing. *)
Theorem AddCommands_once m name rawCommands :
  (macro.AddCommands NewMacro m name rawCommands).2 = None →
  let m' := (macro.AddCommands NewMacro m name rawCommands).1 in
  macro.macro m !! name = None
  ∧ macro.macro m' !! name = Some (NewMacro rawCommands).1
  ∧ (∀ other, other ≠ name → macro.macro m' !! other = macro.macro m !! other)
  ∧ macro.domains m' = macro.domains m
  ∧ (∀ again, macro.AddCommands NewMacro m' name again
              = (m', Some (macro.duplicate name))).
Proof.
  unfold macro.AddCommands.
  case_bool_decide as Hdup; [discriminate|].
  destruct (len rawCommands =? 0); [discriminate|].
  destruct (NewMacro rawCommands) as [cmds [err|]]; cbn [notnil fst snd];
    [discriminate|].
  intros _. repeat split.
  - destruct (macro.macro m !! name) eqn:H; [|reflexivity].
    exfalso. apply Hdup. eauto.
  - cbn. apply lookup_insert_eq.
  - intros other Hne. cbn. by apply lookup_insert_ne.
  - intros again. rewrite bool_decide_eq_true_2; [reflexivity|].
    cbn. rewrite lookup_insert_eq. eauto.
Qed.

End Repositories.

Example AddCommands_error_unchanged_witness :
  (macro.AddCommands (λ _, (tt, None)) target_b "b" ["exit"]).1 = target_b.
Proof.
  apply (AddCommands_error_unchanged (λ _, (tt, None)) target_b "b" ["exit"]).
  discriminate.
Defined.

Example AddCommands_once_witness :
  macro.macro (macro.AddCommands (λ _, (tt, None)) target_b "a" ["exit"]).1 !! "a"
  = Some tt.
Proof.
  apply (AddCommands_once (λ _, (tt, None)) target_b "a" ["exit"]). reflexivity.
Defined.

Section MergeDisjoint.

Context {Templates : Type}.
Implicit Types (m src : macro.Repo Templates) (visit : list (string * Templates)).

Lemma merge_fresh visit m :
  NoDup visit.*1 →
  (∀ name, name ∈ visit.*1 → macro.macro m !! name = None) →
  macro.merge m visit
  = ({| macro.macro := list_to_map visit ∪ macro.macro m;
        macro.domains := macro.domains m |}, None).
Proof.
  revert m. induction visit as [|[name cmd] rest IH]; intros m Hnodup Hfresh.
  { cbn [macro.merge list_to_map foldr]. rewrite (left_id_L ∅ (∪)).
    by destruct m. }
  cbn [fmap list_fmap fst] in Hnodup, Hfresh.
  apply NoDup_cons in Hnodup as [Hname Hnodup].
  cbn [macro.merge]. rewrite bool_decide_eq_false_2.
  2:{ rewrite (Hfresh name) by left. by intros [? ?]. }
  rewrite IH; [|exact Hnodup|].
  - cbn [macro.store macro.macro macro.domains list_to_map foldr uncurry].
    f_equal. f_equal.
    rewrite <- insert_union_l, <- insert_union_r; [reflexivity|].
    by apply not_elem_of_list_to_map_1.
  - intros other Hin. cbn [macro.store macro.macro].
    rewrite lookup_insert_ne; [apply Hfresh; by right|].
    intros ->. contradiction.
Qed.

Lemma ranges_list_to_map (entries : gmap string Templates) visit :
  macro.ranges entries visit → list_to_map visit = entries.
Proof.
  unfold macro.ranges. intros Hperm.
  rewrite <- (list_to_map_to_list entries).
  apply list_to_map_proper; [|exact Hperm].
  rewrite Hperm. apply NoDup_fst_map_to_list.
Qed.

(** Merging succeeds exactly when the two repositories share no name, and
    then the target holds the macros of both, whatever the order in which
    the source was visited; its domains stay its own. *)
Theorem merge_succeeds_iff_disjoint m src visit :
  macro.ranges (macro.macro src) visit →
  ((macro.merge m visit).2 = None
   ↔ ∀ name, macro.macro m !! name = None ∨ macro.macro src !! name = None)
  ∧ ((macro.merge m visit).2 = None →
     (macro.merge m visit).1
     = {| macro.macro := macro.macro src ∪ macro.macro m;
          macro.domains := macro.domains m |}).
Proof.
  intros Hvisit.
  assert ((∀ name, macro.macro m !! name = None ∨ macro.macro src !! name = None) →
          macro.merge m visit
          = ({| macro.macro := macro.macro src ∪ macro.macro m;
                macro.domains := macro.domains m |}, None)) as Hok.
  { intros Hdisjoint. rewrite merge_fresh.
    - by rewrite (ranges_list_to_map _ _ Hvisit).
    - exact (ranges_NoDup _ _ Hvisit).
    - intros name ([k t] & -> & Hin)%list_elem_of_fmap.
      apply (ranges_elem_of _ _ _ _ Hvisit) in Hin. cbn [fst].
      destruct (Hdisjoint k) as [H|H]; [exact H|congruence]. }
  assert ((macro.merge m visit).2 = None →
          ∀ name, macro.macro m !! name = None ∨ macro.macro src !! name = None)
    as Hdisjoint.
  { intros Hnone name.
    destruct (macro.macro m !! name) as [t|] eqn:Hm; [|by left].
    destruct (macro.macro src !! name) as [t'|] eqn:Hsrc; [|by right].
    exfalso.
    destruct (merge_stops_at_shared visit m name) as (shared & _ & _ & Herr).
    - exact (ranges_NoDup _ _ Hvisit).
    - apply list_elem_of_fmap. exists (name, t'). split; [reflexivity|].
      by apply (ranges_elem_of _ _ _ _ Hvisit).
    - rewrite Hm. eauto.
    - congruence. }
  split; [split|].
  - exact Hdisjoint.
  - intros H. by rewrite (Hok H).
  - intros H. by rewrite (Hok (Hdisjoint H)).
Qed.

Variable GetExecuter : Templates → list string → Executer * option error.
Variable Fields : string → list string.

(** After a merge that succeeded, every macro of the target and of the
    source is found in the target and gives what it gave in the repository
    it came from; any other name is an unknown command, named in the
    error. *)
Theorem Get_after_merge m src visit name argString :
  macro.ranges (macro.macro src) visit →
  (macro.merge m visit).2 = None →
  macro.Get GetExecuter Fields (macro.merge m visit).1 name argString
  = if bool_decide (is_Some (macro.macro src !! name))
    then macro.Get GetExecuter Fields src name argString
    else macro.Get GetExecuter Fields m name argString.
Proof.
  intros Hvisit Hnone.
  destruct (merge_succeeds_iff_disjoint m src visit Hvisit) as [_ Hunion].
  rewrite (Hunion Hnone). unfold macro.Get. cbn [macro.macro].
  rewrite lookup_union.
  destruct (macro.macro src !! name) as [t|] eqn:Hsrc.
  - rewrite bool_decide_eq_true_2 by eauto.
    destruct (macro.macro m !! name); reflexivity.
  - rewrite bool_decide_eq_false_2 by (by intros [? ?]).
    destruct (macro.macro m !! name); reflexivity.
Qed.

(** A name that the repository does not hold is an unknown command. *)
Lemma Get_unknown m name argString :
  macro.macro m !! name = None →
  macro.Get GetExecuter Fields m name argString
  = (None, Some (Errorf "unknown command: %s" [ArgString name])).
Proof. unfold macro.Get. intros ->. reflexivity. Qed.

Lemma GetNames_loop_fst names visit :
  macro.GetNames_loop Templates names visit = names ++ visit.*1.
Proof.
  revert names. induction visit as [|[name cmd] rest IH]; intros names.
  - cbn. by rewrite app_nil_r.
  - cbn [macro.GetNames_loop]. rewrite IH, <- app_assoc. reflexivity.
Qed.

(** [GetNames] lists every name of the repository, each exactly once. *)
Theorem GetNames_each_once m visit :
  macro.ranges (macro.macro m) visit →
  NoDup (macro.GetNames visit)
  ∧ (∀ name, name ∈ macro.GetNames visit ↔ is_Some (macro.macro m !! name))
  ∧ length (macro.GetNames visit) = size (macro.macro m).
Proof.
  intros Hvisit. unfold macro.GetNames. rewrite GetNames_loop_fst. cbn [app].
  repeat split.
  - exact (ranges_NoDup _ _ Hvisit).
  - intros ([k t] & -> & Hin)%list_elem_of_fmap.
    apply (ranges_elem_of _ _ _ _ Hvisit) in Hin. cbn [fst]. eauto.
  - intros [t Hm]. apply list_elem_of_fmap. exists (name, t).
    split; [reflexivity|]. by apply (ranges_elem_of _ _ _ _ Hvisit).
  - rewrite length_fmap. unfold macro.ranges in Hvisit. rewrite Hvisit.
    apply length_map_to_list.
Qed.

End MergeDisjoint.

Lemma only_c_ranges : macro.ranges (macro.macro source_c) only_c.
Proof.
  unfold macro.ranges, only_c, source_c. cbn [macro.macro].
  rewrite map_to_list_singleton. reflexivity.
Qed.

Example merge_succeeds_iff_disjoint_witness :
  macro.merge target_b only_c
  = ({| macro.macro := {[ "c" := tt ]} ∪ {[ "b" := tt ]};
        macro.domains := ["example.com"] |}, None).
Proof.
  destruct (merge_succeeds_iff_disjoint target_b source_c only_c only_c_ranges)
    as [_ Hunion].
  assert ((macro.merge target_b only_c).2 = None) as Hnone by reflexivity.
  specialize (Hunion Hnone).
  destruct (macro.merge target_b only_c) as [m' err]. cbn [fst snd] in *.
  by subst.
Defined.

Example Get_after_merge_witness :
  macro.Get (λ _ args, (NewSend (default "" (head args)), None)) (λ s, [s])
    (macro.merge target_b only_c).1 "c" "hello"
  = (NewSend "hello", None).
Proof.
  rewrite (Get_after_merge (λ _ args, (NewSend (default "" (head args)), None))
             (λ s, [s]) target_b source_c only_c "c" "hello" only_c_ranges eq_refl).
  reflexivity.
Defined.

Example GetNames_each_once_witness :
  macro.GetNames a_then_b = ["a"; "b"] ∧ NoDup (macro.GetNames a_then_b).
Proof.
  split; [reflexivity|].
  exact (proj1 (GetNames_each_once source_ab a_then_b a_then_b_ranges)).
Defined.

(** ** Parsing a macro file *)

Section ParseConfig.

Context {Templates : Type}.
Variable NewMacro : list string → Templates * option error.

Lemma AddCommands_usable (repo : macro.Repo Templates) name rawCommands :
  macro.macro repo !! name = None → usable NewMacro rawCommands →
  macro.AddCommands NewMacro repo name rawCommands
  = (macro.store name (NewMacro rawCommands).1 repo, None).
Proof.
  intros Hfree [Hsome Hnew]. unfold macro.AddCommands.
  rewrite bool_decide_eq_false_2 by (rewrite Hfree; by intros [? ?]).
  destruct rawCommands as [|c rest]; [contradiction|].
  change (len (c :: rest) =? 0) with false. cbv iota.
  destruct (NewMacro (c :: rest)) as [cmds err]. cbn [snd] in Hnew. subst err.
  reflexivity.
Qed.

Lemma addAll_usable visit (repo : macro.Repo Templates) :
  NoDup visit.*1 →
  (∀ name, name ∈ visit.*1 → macro.macro repo !! name = None) →
  Forall (λ entry, usable NewMacro entry.2) visit →
  macro.addAll NewMacro repo visit
  = ({| macro.macro := ((λ rawCommands, (NewMacro rawCommands).1) <$> list_to_map visit) ∪ macro.macro repo;
        macro.domains := macro.domains repo |}, None).
Proof.
  revert repo. induction visit as [|[name cmds] rest IH]; intros repo Hnodup Hfresh Hgood.
  { cbn [macro.addAll list_to_map foldr]. rewrite fmap_empty, (left_id_L ∅ (∪)).
    by destruct repo. }
  cbn [fmap list_fmap fst] in Hnodup, Hfresh.
  apply NoDup_cons in Hnodup as [Hname Hnodup].
  apply Forall_cons in Hgood as [Hhere Hgood]. cbn [snd] in Hhere.
  cbn [macro.addAll].
  rewrite (AddCommands_usable repo name cmds) by (first [apply Hfresh; left|exact Hhere]).
  cbn [notnil]. rewrite IH; [|exact Hnodup| |exact Hgood].
  - cbn [macro.store macro.macro macro.domains list_to_map foldr uncurry].
    f_equal. f_equal. rewrite fmap_insert.
    rewrite <- insert_union_l, <- insert_union_r; [reflexivity|].
    rewrite lookup_fmap. by rewrite (not_elem_of_list_to_map_1 _ _ Hname).
  - intros other Hin. cbn [macro.store macro.macro].
    rewrite lookup_insert_ne; [apply Hfresh; by right|].
    intros ->. contradiction.
Qed.

Lemma addAll_accepted visit (repo : macro.Repo Templates) :
  (macro.addAll NewMacro repo visit).2 = None →
  Forall (λ entry, usable NewMacro entry.2) visit.
Proof.
  revert repo. induction visit as [|[name cmds] rest IH]; intros repo; [constructor|].
  cbn [macro.addAll].
  destruct (macro.AddCommands NewMacro repo name cmds) as [repo' err] eqn:Hadd.
  destruct err as [e|]; cbn [notnil]; [discriminate|].
  intros Hrest. constructor; [|exact (IH _ Hrest)].
  cbn [snd]. unfold macro.AddCommands in Hadd. split.
  - intros ->. case_bool_decide; discriminate.
  - case_bool_decide; [discriminate|].
    destruct (len cmds =? 0); [discriminate|].
    destruct (NewMacro cmds) as [t [bad|]]; [discriminate|reflexivity].
Qed.

(** A decoded macro file gives a repository exactly when its version is
    ["1"] and every macro in it has commands that [NewMacro] accepts.  If
    so, the repository holds a template for each macro of the file, under
    its name, and the domains of the file, whatever the order in which
    the macros were visited (the duplicate check of [AddCommands] never
    fires while a file is parsed).  If not, an error is returned and no
    repository: no macro is ever left out silently. *)
Theorem parseConfig_loads (cfg : macro.config) visit :
  macro.ranges (macro.Macro cfg) visit →
  let accepted :=
    macro.Version cfg = "1"
    ∧ ∀ name rawCommands,
        macro.Macro cfg !! name = Some rawCommands → usable NewMacro rawCommands in
  (accepted →
   macro.parseConfig NewMacro (Some cfg, None) visit
   = Returned (Some {| macro.macro := (λ rawCommands, (NewMacro rawCommands).1) <$> macro.Macro cfg;
                       macro.domains := macro.Domains cfg |},
               Some cfg, None))
  ∧ (∀ repo c err,
       macro.parseConfig NewMacro (Some cfg, None) visit
       = Returned (Some repo, c, err) → accepted)
  ∧ (¬ accepted →
     ∃ e, macro.parseConfig NewMacro (Some cfg, None) visit
          = Returned (None, None, Some e)).
Proof.
  intros Hvisit accepted.
  assert (∀ repo,
            macro.addAll NewMacro (macro.New (macro.Domains cfg)) visit = (repo, None) →
            ∀ name rawCommands,
              macro.Macro cfg !! name = Some rawCommands → usable NewMacro rawCommands)
    as Hadded.
  { intros repo Hadd name cmds Hin.
    apply (ranges_elem_of _ _ _ _ Hvisit) in Hin.
    assert (Forall (λ entry, usable NewMacro entry.2) visit) as Hall.
    { apply (addAll_accepted visit (macro.New (macro.Domains cfg))).
      by rewrite Hadd. }
    rewrite Forall_forall in Hall. exact (Hall _ Hin). }
  unfold macro.parseConfig. cbn [notnil]. split; [|split].
  - intros [-> Hgood]. cbn [String.eqb negb].
    change (negb ("1" =? "1")%string) with false. cbv iota.
    rewrite addAll_usable.
    + cbn [notnil macro.New macro.macro macro.domains].
      rewrite (ranges_list_to_map _ _ Hvisit), (right_id_L ∅ (∪)). reflexivity.
    + exact (ranges_NoDup _ _ Hvisit).
    + intros name _. apply lookup_empty.
    + apply Forall_forall. intros [name cmds] Hin.
      apply (ranges_elem_of _ _ _ _ Hvisit) in Hin. exact (Hgood _ _ Hin).
  - intros repo c err.
    destruct (String.eqb_spec (macro.Version cfg) "1") as [Hv|Hv];
      cbn [negb]; [|discriminate].
    destruct (macro.addAll NewMacro (macro.New (macro.Domains cfg)) visit)
      as [added bad] eqn:Hadd.
    destruct bad as [e|]; cbn [notnil]; [discriminate|]. intros _.
    split; [exact Hv|exact (Hadded _ eq_refl)].
  - intros Hnot.
    destruct (String.eqb_spec (macro.Version cfg) "1") as [Hv|Hv];
      cbn [negb]; [|eexists; reflexivity].
    destruct (macro.addAll NewMacro (macro.New (macro.Domains cfg)) visit)
      as [added bad] eqn:Hadd.
    destruct bad as [e|]; cbn [notnil]; [eexists; reflexivity|].
    exfalso. apply Hnot. split; [exact Hv|exact (Hadded _ eq_refl)].
Qed.

(** A macro file of another version is refused before any macro is looked
    at, and a refused file gives neither a repository nor its [config]. *)
Theorem parseConfig_refuses decoded visit repo cfg e :
  macro.parseConfig NewMacro decoded visit = Returned (repo, cfg, Some e) →
  repo = None ∧ cfg = None
  ∧ (∀ c, decoded = (Some c, None) → macro.Version c ≠ "1" →
          e = Errorf "unsupported macro version: %s" [ArgString (macro.Version c)]).
Proof.
  unfold macro.parseConfig. destruct decoded as [c err].
  destruct err as [bad|]; cbn [notnil].
  { intros [= <- <- <-]. repeat split. intros ? [=]. }
  destruct c as [c|]; [|discriminate].
  destruct (String.eqb_spec (macro.Version c) "1") as [Hv|Hv]; cbn [negb].
  - destruct (macro.addAll NewMacro _ visit) as [r err].
    destruct err as [bad|]; cbn [notnil]; [|discriminate].
    intros [= <- <- <-]. repeat split. intros ? [= <-] ?. contradiction.
  - intros [= <- <- <-]. repeat split. intros ? [= <-] _. reflexivity.
Qed.

End ParseConfig.

Lemma only_greet_ranges : macro.ranges (macro.Macro cfg_greet) only_greet.
Proof.
  unfold macro.ranges, only_greet, cfg_greet. cbn [macro.Macro].
  rewrite map_to_list_singleton. reflexivity.
Qed.

Example parseConfig_loads_witness :
  macro.parseConfig keep_steps (Some cfg_greet, None) only_greet
  = Returned (Some {| macro.macro := (λ rawCommands, (keep_steps rawCommands).1)
                                       <$> macro.Macro cfg_greet;
                      macro.domains := ["example.com"] |},
              Some cfg_greet, None).
Proof.
  apply (proj1 (parseConfig_loads keep_steps cfg_greet only_greet only_greet_ranges)).
  split; [reflexivity|].
  intros name rawCommands. cbn [cfg_greet macro.Macro].
  intros [<- <-]%lookup_singleton_Some. split; [discriminate|reflexivity].
Defined.

Example parseConfig_refuses_witness :
  macro.parseConfig keep_steps (Some cfg_v2, None) [("greet", ["exit"])]
  = Returned (None, None, Some (Errorf "unsupported macro version: %s" [ArgString "2"]))
  ∧ (None : option (macro.Repo (list string))) = None.
Proof.
  assert (macro.parseConfig keep_steps (Some cfg_v2, None) [("greet", ["exit"])]
          = Returned (None, None,
                      Some (Errorf "unsupported macro version: %s" [ArgString "2"])))
    as H by reflexivity.
  split; [exact H|].
  exact (proj1 (parseConfig_refuses keep_steps _ _ _ _ _ H)).
Defined.

(** ** Loading the macros of a domain *)

Lemma drop_app_length pre suf :
  strings.drop (String.length pre) (pre +:+ suf) = suf.
Proof. induction pre as [|c pre IH]; [by destruct suf|exact IH]. Qed.

Lemma drop_split n s :
  (n ≤ String.length s)%nat →
  ∃ pre, s = pre +:+ strings.drop n s ∧ String.length pre = n.
Proof.
  revert s. induction n as [|n IH]; intros s Hn.
  - exists "". split; reflexivity.
  - destruct s as [|c s]; cbn [String.length] in Hn; [lia|].
    destruct (IH s) as (pre & Hs & Hlen); [lia|].
    exists (String c pre). cbn [strings.drop String.length].
    change (String c pre +:+ strings.drop n s) with (String c (pre +:+ strings.drop n s)).
    split; congruence.
Qed.

(** [HasSuffix s suffix] holds exactly when [s] ends with [suffix]. *)
Lemma HasSuffix_spec s suffix :
  strings.HasSuffix s suffix = true ↔ ∃ pre, s = pre +:+ suffix.
Proof.
  unfold strings.HasSuffix. split.
  - intros [Hle Heq]%andb_prop. apply Nat.leb_le in Hle.
    apply String.eqb_eq in Heq.
    destruct (drop_split (String.length s - String.length suffix) s) as (pre & Hs & _);
      [lia|].
    exists pre. congruence.
  - intros [pre ->]. rewrite append_length.
    apply andb_true_intro. split; [apply Nat.leb_le; lia|].
    replace (String.length pre + String.length suffix - String.length suffix)%nat
      with (String.length pre) by lia.
    rewrite drop_app_length. apply String.eqb_refl.
Qed.

(** A source applies to a domain exactly when the domain ends with one of
    the suffixes the source lists: a source that lists none applies to no
    domain, one that lists the empty suffix to every domain. *)
Theorem hasDomain_iff_suffix domain fileDomains :
  macro.hasDomain domain fileDomains = true
  ↔ ∃ suffix pre, suffix ∈ fileDomains ∧ domain = pre +:+ suffix.
Proof.
  induction fileDomains as [|d rest IH]; cbn [macro.hasDomain].
  - split; [discriminate|]. intros (? & ? & H & _). by apply elem_of_nil in H.
  - destruct (strings.HasSuffix domain d) eqn:Hd.
    + split; [|reflexivity]. intros _.
      apply HasSuffix_spec in Hd as [pre ->]. exists d, pre. split; [left|reflexivity].
    + rewrite IH. split.
      * intros (suffix & pre & Hin & ->). exists suffix, pre. split; [by right|reflexivity].
      * intros (suffix & pre & Hin & ->).
        apply elem_of_cons in Hin as [->|Hin]; [|by eauto].
        assert (strings.HasSuffix (pre +:+ d) d = true) as Hyes
          by (apply HasSuffix_spec; eauto).
        congruence.
Qed.

Section Loading.

Context {Templates : Type}.
Variable LoadFromFile : string → macro.Repo Templates * option error.
Variable range_of : string → gmap string Templates → list (string * Templates).
Variables macroDir domain : string.

(** Whatever order a [range] visits a map in, it visits its entries. *)
Hypothesis range_ok : ∀ file entries, macro.ranges entries (range_of file entries).

Lemma macro_file_guard file :
  macro.IsDir file
  || negb (strings.HasSuffix (macro.Name file) ".yaml")
     && negb (strings.HasSuffix (macro.Name file) ".yml")
  = negb (macro_file file).
Proof.
  unfold macro_file.
  destruct (macro.IsDir file), (strings.HasSuffix _ ".yaml"),
    (strings.HasSuffix _ ".yml"); reflexivity.
Qed.

Lemma load_cons file rest acc :
  macro.load Templates LoadFromFile range_of macroDir domain (file :: rest) acc
  = if negb (macro_file file)
    then macro.load Templates LoadFromFile range_of macroDir domain rest acc
    else
      let '(fileMacro, err) :=
        LoadFromFile (macroDir +:+ "/" +:+ macro.Name file) in
      if notnil err then (None, err)
      else if negb (macro.hasDomain domain (macro.domains fileMacro))
      then macro.load Templates LoadFromFile range_of macroDir domain rest acc
      else
        match acc with
        | None =>
            macro.load Templates LoadFromFile range_of macroDir domain rest
              (Some fileMacro)
        | Some m =>
            let '(m', err) :=
              macro.merge m (range_of (macro.Name file) (macro.macro fileMacro)) in
            if notnil err then
              (None, Some (Errorf "fail to loading macro from file %s, %w "
                                  [ArgString (macro.Name file); ArgError err]))
            else macro.load Templates LoadFromFile range_of macroDir domain rest
                   (Some m')
        end.
Proof. cbn [macro.load]. rewrite macro_file_guard. reflexivity. Qed.

(** Directories and files that are neither [.yaml] nor [.yml] count for
    nothing: the load is that of the macro files alone. *)
Theorem LoadMacroForDomain_reads_macro_files files :
  macro.LoadMacroForDomain Templates LoadFromFile range_of macroDir domain files
  = macro.LoadMacroForDomain Templates LoadFromFile range_of macroDir domain
      (filter (λ file, macro_file file = true) files).
Proof.
  unfold macro.LoadMacroForDomain. generalize (@None (macro.Repo Templates)).
  induction files as [|file rest IH]; intros acc; [reflexivity|].
  rewrite load_cons. destruct (macro_file file) eqn:Hfile; cbn [negb].
  - rewrite filter_cons_True by exact Hfile. rewrite load_cons, Hfile. cbn [negb].
    destruct (LoadFromFile _) as [fileMacro err].
    destruct (notnil err); [reflexivity|].
    destruct (negb _); [apply IH|].
    destruct acc as [m|]; [|apply IH].
    destruct (macro.merge m _) as [m' err']. destruct (notnil err'); [reflexivity|apply IH].
  - rewrite filter_cons_False by congruence. apply IH.
Qed.

(** A load that succeeds has read every macro file of the directory without
    error, those of other domains too: one broken file fails the load for
    every domain. *)
Theorem LoadMacroForDomain_needs_every_file files file :
  (macro.LoadMacroForDomain Templates LoadFromFile range_of macroDir domain files).2
  = None →
  file ∈ files → macro_file file = true →
  (LoadFromFile (macroDir +:+ "/" +:+ macro.Name file)).2 = None.
Proof.
  unfold macro.LoadMacroForDomain. generalize (@None (macro.Repo Templates)).
  induction files as [|first rest IH]; intros acc Hok Hin Hfile.
  { by apply elem_of_nil in Hin. }
  rewrite load_cons in Hok.
  apply elem_of_cons in Hin as [->|Hin].
  - rewrite Hfile in Hok. cbn [negb] in Hok.
    destruct (LoadFromFile _) as [fileMacro [err|]]; cbn [notnil snd] in Hok |- *;
      [discriminate Hok|reflexivity].
  - destruct (negb (macro_file first)); [exact (IH _ Hok Hin Hfile)|].
    destruct (LoadFromFile (macroDir +:+ "/" +:+ macro.Name first))
      as [fileMacro [err|]]; cbn [notnil snd] in Hok; [discriminate Hok|].
    destruct (negb _); [exact (IH _ Hok Hin Hfile)|].
    destruct acc as [m|]; [|exact (IH _ Hok Hin Hfile)].
    destruct (macro.merge m _) as [m' [err'|]]; cbn [notnil snd] in Hok;
      [discriminate Hok|].
    exact (IH _ Hok Hin Hfile).
Qed.

Lemma merge_no_error_lookup (m src : macro.Repo Templates) visit k t :
  macro.ranges (macro.macro src) visit →
  (macro.merge m visit).2 = None →
  macro.macro (macro.merge m visit).1 !! k = Some t
  ↔ macro.macro m !! k = Some t ∨ macro.macro src !! k = Some t.
Proof.
  intros Hvisit Hnone.
  destruct (merge_succeeds_iff_disjoint m src visit Hvisit) as [[Hdisjoint _] Hunion].
  rewrite (Hunion Hnone). cbn [macro.macro]. rewrite lookup_union_Some_raw.
  destruct (Hdisjoint Hnone k) as [Hm|Hsrc]; split.
  - intros [H|[_ H]]; [by right|congruence].
  - intros [H|H]; [congruence|by left].
  - intros [H|[_ H]]; [congruence|by left].
  - intros [H|H]; [by right|congruence].
Qed.

Lemma load_onto (files : list macro.DirEntry) m res :
  macro.load Templates LoadFromFile range_of macroDir domain files (Some m)
  = (res, None) →
  ∃ r, res = Some r ∧ macro.domains r = macro.domains m
       ∧ ∀ k t, macro.macro r !! k = Some t
                ↔ macro.macro m !! k = Some t
                  ∨ ∃ file, file ∈ files
                            ∧ applies LoadFromFile macroDir domain file
                            ∧ macro.macro
                                (LoadFromFile (macroDir +:+ "/" +:+ macro.Name file)).1
                              !! k = Some t.
Proof.
  revert m. induction files as [|first rest IH]; intros m.
  { cbn [macro.load]. intros [= <-]. exists m. repeat split; [by left|].
    intros [H|(? & H & _)]; [exact H|]. by apply elem_of_nil in H. }
  rewrite load_cons. unfold applies in *.
  destruct (macro_file first) eqn:Hfile; cbn [negb].
  2:{ intros (r & -> & Hdom & Hr)%IH. exists r. repeat split; [exact Hdom| |].
      - intros [H|(file & Hin & Hap & H)]%Hr; [by left|]. right. exists file.
        split; [by right|]. by split.
      - intros [H|(file & Hin & Hap & H)]; apply Hr; [by left|]. right.
        apply elem_of_cons in Hin as [->|Hin]; [|by eauto].
        destruct Hap as [Hyes _]. congruence. }
  destruct (LoadFromFile (macroDir +:+ "/" +:+ macro.Name first))
    as [fileMacro err] eqn:Hload.
  destruct err as [e|]; cbn [notnil]; [discriminate|].
  destruct (macro.hasDomain domain (macro.domains fileMacro)) eqn:Hdomain; cbn [negb].
  2:{ intros (r & -> & Hdom & Hr)%IH. exists r. repeat split; [exact Hdom| |].
      - intros [H|(file & Hin & Hap & H)]%Hr; [by left|]. right. exists file.
        split; [by right|]. by split.
      - intros [H|(file & Hin & Hap & H)]; apply Hr; [by left|]. right.
        apply elem_of_cons in Hin as [->|Hin]; [|by eauto].
        destruct Hap as [_ Hyes]. rewrite Hload in Hyes. cbn [fst] in Hyes. congruence. }
  destruct (macro.merge m (range_of (macro.Name first) (macro.macro fileMacro)))
    as [m' err'] eqn:Hmerge.
  destruct err' as [e|]; cbn [notnil]; [discriminate|].
  intros (r & -> & Hdom & Hr)%IH.
  assert (∀ k t, macro.macro m' !! k = Some t
                 ↔ macro.macro m !! k = Some t ∨ macro.macro fileMacro !! k = Some t)
    as Hm'.
  { intros k t.
    pose proof (merge_no_error_lookup m fileMacro
                  (range_of (macro.Name first) (macro.macro fileMacro)) k t
                  (range_ok _ _)) as H.
    rewrite Hmerge in H. apply H. reflexivity. }
  exists r. repeat split.
  - rewrite Hdom. pose proof (merge_keeps_domains
      (range_of (macro.Name first) (macro.macro fileMacro)) m) as H.
    by rewrite Hmerge in H.
  - intros [[H|H]%Hm'|(file & Hin & Hap & H)]%Hr; [by left| |].
    + right. exists first. split; [left|]. rewrite Hload. cbn [fst]. by repeat split.
    + right. exists file. split; [by right|]. by split.
  - intros [H|(file & Hin & Hap & H)]; apply Hr.
    + left. apply Hm'. by left.
    + apply elem_of_cons in Hin as [->|Hin]; [|by eauto].
      left. apply Hm'. right. rewrite Hload in H. exact H.
Qed.

(** What a load that succeeds returns.  When no source applies to the
    domain it is no repository at all, and no error either.  Otherwise it
    is a repository that holds exactly the macros of the sources that
    apply, and whose domains are those of the first such source in the
    directory. *)
Theorem LoadMacroForDomain_result files res :
  macro.LoadMacroForDomain Templates LoadFromFile range_of macroDir domain files
  = (res, None) →
  (res = None ∧ ∀ file, file ∈ files → ¬ applies LoadFromFile macroDir domain file)
  ∨ ∃ r before first after,
      res = Some r ∧ files = before ++ first :: after
      ∧ Forall (λ file, ¬ applies LoadFromFile macroDir domain file) before
      ∧ applies LoadFromFile macroDir domain first
      ∧ macro.domains r
        = macro.domains (LoadFromFile (macroDir +:+ "/" +:+ macro.Name first)).1
      ∧ ∀ k t, macro.macro r !! k = Some t
               ↔ ∃ file, file ∈ files
                         ∧ applies LoadFromFile macroDir domain file
                         ∧ macro.macro
                             (LoadFromFile (macroDir +:+ "/" +:+ macro.Name file)).1
                           !! k = Some t.
Proof.
  unfold macro.LoadMacroForDomain.
  induction files as [|first rest IH].
  { cbn [macro.load]. intros [= <-]. left. split; [reflexivity|].
    intros file H. by apply elem_of_nil in H. }
  rewrite load_cons.
  assert (¬ applies LoadFromFile macroDir domain first →
          macro.load Templates LoadFromFile range_of macroDir domain rest None
          = (res, None) →
          (res = None
           ∧ ∀ file, file ∈ first :: rest → ¬ applies LoadFromFile macroDir domain file)
          ∨ ∃ r before first' after,
              res = Some r ∧ first :: rest = before ++ first' :: after
              ∧ Forall (λ file, ¬ applies LoadFromFile macroDir domain file) before
              ∧ applies LoadFromFile macroDir domain first'
              ∧ macro.domains r
                = macro.domains
                    (LoadFromFile (macroDir +:+ "/" +:+ macro.Name first')).1
              ∧ ∀ k t, macro.macro r !! k = Some t
                       ↔ ∃ file, file ∈ first :: rest
                                 ∧ applies LoadFromFile macroDir domain file
                                 ∧ macro.macro
                                     (LoadFromFile
                                        (macroDir +:+ "/" +:+ macro.Name file)).1
                                   !! k = Some t) as Hskip.
  { intros Hnot [[-> Hnone]|(r & before & first' & after & -> & -> & Hbefore & Hap
                             & Hdom & Hr)]%IH.
    - left. split; [reflexivity|].
      intros file [->|Hin]%elem_of_cons; [exact Hnot|by apply Hnone].
    - right. exists r, (first :: before), first', after.
      split; [reflexivity|]. split; [reflexivity|]. split; [by constructor|].
      split; [exact Hap|]. split; [exact Hdom|]. intros k t. split.
      + intros (file & Hin & Hfile & H)%Hr. exists file. split; [by right|]. by split.
      + intros (file & Hin & Hfile & H). apply Hr.
        apply elem_of_cons in Hin as [->|Hin]; [contradiction|]. by eauto. }
  destruct (macro_file first) eqn:Hfile; cbn [negb].
  2:{ apply Hskip. intros [Hyes _]. congruence. }
  destruct (LoadFromFile (macroDir +:+ "/" +:+ macro.Name first))
    as [fileMacro err] eqn:Hload.
  destruct err as [e|]; cbn [notnil]; [discriminate|].
  destruct (macro.hasDomain domain (macro.domains fileMacro)) eqn:Hdomain; cbn [negb].
  2:{ apply Hskip. intros [_ Hyes]. rewrite Hload in Hyes. cbn [fst] in Hyes.
      congruence. }
  intros (r & -> & Hdom & Hr)%load_onto. right.
  assert (applies LoadFromFile macroDir domain first) as Hap.
  { split; [exact Hfile|]. rewrite Hload. exact Hdomain. }
  exists r, [], first, rest. rewrite Hload. cbn [fst].
  split; [reflexivity|]. split; [reflexivity|]. split; [constructor|].
  split; [exact Hap|]. split; [exact Hdom|]. intros k t. split.
  - intros [H|(file & Hin & Hfile' & H)]%Hr.
    + exists first. split; [left|]. rewrite Hload. by split.
    + exists file. split; [by right|]. by split.
  - intros (file & Hin & Hfile' & H). apply Hr.
    apply elem_of_cons in Hin as [->|Hin]; [|by eauto].
    left. rewrite Hload in H. exact H.
Qed.

End Loading.

Lemma some_order_ranges file (entries : gmap string unit) :
  macro.ranges entries (some_order file entries).
Proof. unfold macro.ranges, some_order. reflexivity. Qed.

Lemma some_dir_loads :
  (macro.LoadMacroForDomain unit some_files some_order "macros" "api.example.com"
     some_dir).2 = None.
Proof. vm_compute. reflexivity. Qed.

Example LoadMacroForDomain_needs_every_file_witness :
  (some_files ("macros" +:+ "/" +:+ "c.yml")).2 = None.
Proof.
  apply (LoadMacroForDomain_needs_every_file some_files some_order "macros"
           "api.example.com" some_dir {| macro.Name := "c.yml"; macro.IsDir := false |}
           some_dir_loads).
  - unfold some_dir. repeat constructor.
  - reflexivity.
Defined.

Example LoadMacroForDomain_result_witness :
  ∃ r, (macro.LoadMacroForDomain unit some_files some_order "macros"
          "api.example.com" some_dir).1 = Some r
       ∧ macro.domains r = ["example.com"]
       ∧ macro.macro r !! "b" = Some tt ∧ macro.macro r !! "c" = Some tt.
Proof.
  destruct (macro.LoadMacroForDomain unit some_files some_order "macros"
              "api.example.com" some_dir) as [res err] eqn:Hload.
  assert (err = None) as ->.
  { pose proof some_dir_loads as H. rewrite Hload in H. exact H. }
  destruct (LoadMacroForDomain_result some_files some_order "macros"
              "api.example.com" some_order_ranges some_dir res Hload)
    as [[-> Hnone]|(r & before & first & after & -> & Hfiles & Hbefore & Hfirst
                    & Hdom & Hr)].
  - exfalso. apply (Hnone {| macro.Name := "b.yaml"; macro.IsDir := false |}).
    + unfold some_dir. repeat constructor.
    + split; reflexivity.
  - exists r. split; [reflexivity|].
    assert (∀ name, name = "b.yaml" ∨ name = "c.yml" →
              applies some_files "macros" "api.example.com"
                {| macro.Name := name; macro.IsDir := false |}) as Hap.
    { intros name [->| ->]; split; reflexivity. }
    split; [|split].
    + rewrite Hdom.
      assert (first ∈ some_dir) as Hin
        by (rewrite Hfiles; apply elem_of_app; right; left).
      destruct Hfirst as [Hfile Hyes].
      unfold some_dir in Hin.
      repeat (apply elem_of_cons in Hin as [->|Hin]);
        try discriminate Hfile; try reflexivity.
      by apply elem_of_nil in Hin.
    + apply Hr. exists {| macro.Name := "b.yaml"; macro.IsDir := false |}.
      split; [unfold some_dir; repeat constructor|]. split; [apply Hap; by left|reflexivity].
    + apply Hr. exists {| macro.Name := "c.yml"; macro.IsDir := false |}.
      split; [unfold some_dir; repeat constructor|]. split; [apply Hap; by right|reflexivity].
Defined.

(** ** The stream in order, and its bounds *)

Section Delivery.

Implicit Types (s : ws.System) (e : ws.event) (schedule : list ws.event).

(** One step: what it takes off the stream, then what the stream and the
    loop hold after it, is what they held before, then what it received. *)
Lemma step_delivery s e s' :
  ws.step s e = Returned s' →
  ws.delivered [e] s ++ ws.Messages (ws.conn s') ++ ws.pending s'
  = ws.Messages (ws.conn s) ++ ws.pending s
    ++ map (λ data, {| Data := data; Type_ := Response |}) (ws.received [e]).
Proof.
  unfold ws.pending. cbn [ws.delivered]. intros Hstep. rewrite Hstep.
  unfold ws.step in Hstep.
  destruct s as [[closes buf closed wg flag] loop].
  cbn [ws.conn ws.loop ws.Messages ws.Messages_closed ws.waitGroup] in *.
  destruct e, loop; cbn [ws.received map] in *; try discriminate Hstep;
    try (injection Hstep as <-; cbn; by rewrite ?app_nil_r);
    try (destruct closed; [discriminate Hstep|];
         destruct (length buf <? ws.WSMessageBufferSize)%nat; [|discriminate Hstep];
         injection Hstep as <-; cbn; by rewrite ?app_nil_r);
    try (destruct (wg =? 0); [|discriminate Hstep];
         injection Hstep as <-; cbn; by rewrite ?app_nil_r);
    try (destruct (0 <? wg); [|discriminate Hstep];
         injection Hstep as <-; cbn; by rewrite ?app_nil_r);
    try (destruct closed; [discriminate Hstep|];
         injection Hstep as <-; cbn; by rewrite ?app_nil_r);
    try (destruct buf as [|m0 buf0]; [destruct closed; [|discriminate Hstep]|];
         injection Hstep as <-; cbn; by rewrite ?app_nil_r);
    try (unfold ws.Close in *; cbn in *; destruct flag;
         injection Hstep as <-; cbn; by rewrite ?app_nil_r).
Qed.

Lemma delivered_cons e rest s s1 :
  ws.step s e = Returned s1 →
  ws.delivered (e :: rest) s = ws.delivered [e] s ++ ws.delivered rest s1.
Proof.
  intros Hstep. cbn [ws.delivered]. rewrite Hstep.
  destruct e; try reflexivity.
  destruct (ws.Messages (ws.conn s)); reflexivity.
Qed.

Lemma received_cons e rest :
  ws.received (e :: rest) = ws.received [e] ++ ws.received rest.
Proof. destruct e; reflexivity. Qed.

(** Along any run, what the commands have taken off the stream, what the
    stream still holds and what the receive loop is about to put on it
    make up, in this order, what was there at the start followed by the
    messages the transport handed over since, each as a Response. *)
Lemma delivery_in_order schedule s s' :
  ws.run schedule s = Returned s' →
  ws.delivered schedule s ++ ws.Messages (ws.conn s') ++ ws.pending s'
  = ws.Messages (ws.conn s) ++ ws.pending s
    ++ map (λ data, {| Data := data; Type_ := Response |}) (ws.received schedule).
Proof.
  revert s. induction schedule as [|e rest IH]; intros s.
  { intros [= <-]. cbn. by rewrite app_nil_r. }
  cbn [ws.run].
  destruct (ws.step s e) as [s1| | |] eqn:Hstep; cbn [mbind outcome_bind];
    try discriminate.
  intros Hrun. specialize (IH _ Hrun).
  rewrite (delivered_cons _ _ _ _ Hstep), received_cons, map_app.
  rewrite <- app_assoc, IH.
  pose proof (step_delivery _ _ _ Hstep) as H1.
  rewrite !app_assoc in *. rewrite H1. reflexivity.
Qed.

(** Every message the transport hands over is delivered as a Response, in
    the order it came, none of them twice and, as long as the receive loop
    has not been left holding one, none left out: what has been taken off
    the stream followed by what waits on it and in the loop is what the
    transport handed over. *)
Theorem stream_delivers_in_order schedule s :
  ws.run schedule ws.started = Returned s →
  ws.delivered schedule ws.started ++ ws.Messages (ws.conn s) ++ ws.pending s
  = map (λ data, {| Data := data; Type_ := Response |}) (ws.received schedule).
Proof. intros Hrun. exact (delivery_in_order _ _ _ Hrun). Qed.

Lemma step_keeps_bounds s e s' :
  ws.step s e = Returned s' →
  (length (ws.Messages (ws.conn s)) ≤ ws.WSMessageBufferSize)%nat
  ∧ 0 ≤ ws.waitGroup (ws.conn s) →
  (length (ws.Messages (ws.conn s')) ≤ ws.WSMessageBufferSize)%nat
  ∧ 0 ≤ ws.waitGroup (ws.conn s').
Proof.
  unfold ws.step, ws.WSMessageBufferSize.
  destruct s as [[closes buf closed wg flag] loop].
  cbn [ws.conn ws.loop ws.Messages ws.Messages_closed ws.waitGroup].
  intros Hstep [Hbuf Hwg].
  destruct e, loop; try discriminate Hstep;
    try (injection Hstep as <-; cbn; split; lia);
    try (destruct closed; [discriminate Hstep|];
         destruct (Nat.ltb_spec (length buf) 100); [|discriminate Hstep];
         injection Hstep as <-; cbn; rewrite length_app; cbn; split; lia);
    try (destruct (wg =? 0); [|discriminate Hstep];
         injection Hstep as <-; cbn; split; lia);
    try (destruct (Z.ltb_spec 0 wg); [|discriminate Hstep];
         injection Hstep as <-; cbn; split; lia);
    try (destruct closed; [discriminate Hstep|];
         injection Hstep as <-; cbn; split; lia);
    try (destruct buf as [|m0 buf0]; [destruct closed; [|discriminate Hstep]|];
         injection Hstep as <-; cbn in *; split; lia);
    try (unfold ws.Close in *; cbn in *; destruct flag;
         injection Hstep as <-; cbn; split; lia).
Qed.

(** The stream never holds more than 100 messages, and the in-flight
    counter never goes below zero. *)
Theorem stream_bounds schedule s :
  ws.run schedule ws.started = Returned s →
  (length (ws.Messages (ws.conn s)) ≤ 100)%nat ∧ 0 ≤ ws.waitGroup (ws.conn s).
Proof.
  assert (∀ s0,
            (length (ws.Messages (ws.conn s0)) ≤ ws.WSMessageBufferSize)%nat
            ∧ 0 ≤ ws.waitGroup (ws.conn s0) →
            ws.run schedule s0 = Returned s →
            (length (ws.Messages (ws.conn s)) ≤ ws.WSMessageBufferSize)%nat
            ∧ 0 ≤ ws.waitGroup (ws.conn s)) as Hgen.
  { induction schedule as [|e rest IH]; intros s0 Hs0; [by intros [= <-]|].
    cbn [ws.run]. destruct (ws.step s0 e) as [s1| | |] eqn:Hstep;
      cbn [mbind outcome_bind]; try discriminate.
    apply IH. exact (step_keeps_bounds _ _ _ Hstep Hs0). }
  intros Hrun. apply (Hgen ws.started); [|exact Hrun].
  cbn. unfold ws.WSMessageBufferSize. lia.
Qed.

(** Once the receive loop has left its loop and no send is in flight,
    nothing stands in the way of the close: the wait returns, the stream is
    closed, and what it held is still there for the commands to take. *)
Theorem close_is_not_blocked schedule s :
  ws.run schedule ws.started = Returned s →
  ws.loop s = ws.AtWait → ws.waitGroup (ws.conn s) = 0 →
  ∃ s', ws.run [ws.Wait_returns; ws.Close_stream] s = Returned s'
        ∧ ws.loop s' = ws.Finished
        ∧ ws.Messages_closed (ws.conn s') = true
        ∧ ws.Messages (ws.conn s') = ws.Messages (ws.conn s).
Proof.
  intros Hrun Hloop Hzero.
  pose proof (run_keeps_invariant schedule ws.started eq_refl) as Hinv.
  rewrite Hrun in Hinv. unfold closed_when_finished in Hinv. rewrite Hloop in Hinv.
  destruct s as [[closes buf closed wg flag] loop].
  cbn [ws.conn ws.loop ws.Messages_closed ws.waitGroup] in *. subst.
  eexists. split; [reflexivity|]. by repeat split.
Qed.

End Delivery.

Example stream_delivers_in_order_witness :
  ws.delivered [ws.Receive_ok "a"; ws.Publish; ws.Receive_ok "b"; ws.Consume;
                ws.Publish; ws.Receive_ok "c"] ws.started
  = [{| Data := "a"; Type_ := Response |}].
Proof.
  pose proof (stream_delivers_in_order
                [ws.Receive_ok "a"; ws.Publish; ws.Receive_ok "b"; ws.Consume;
                 ws.Publish; ws.Receive_ok "c"] _ eq_refl) as H.
  cbn [ws.received map] in H.
  change [{| Data := "a"; Type_ := Response |}; {| Data := "b"; Type_ := Response |};
          {| Data := "c"; Type_ := Response |}]
    with ([{| Data := "a"; Type_ := Response |}]
          ++ [{| Data := "b"; Type_ := Response |}]
          ++ [{| Data := "c"; Type_ := Response |}]) in H.
  cbn [ws.Messages ws.conn ws.pending ws.loop] in H.
  apply app_inj_2 in H as [H _]; [exact H|reflexivity].
Defined.

Example stream_bounds_witness :
  (length (ws.Messages (ws.conn
     {| ws.conn := ws.set_Messages [{| Data := "a"; Type_ := Response |}] false ws.NewWS;
        ws.loop := ws.AtReceive |})) ≤ 100)%nat.
Proof.
  apply (stream_bounds [ws.Receive_ok "a"; ws.Publish]). reflexivity.
Defined.

Example close_is_not_blocked_witness :
  ∃ s', ws.run [ws.Wait_returns; ws.Close_stream]
          {| ws.conn := ws.NewWS; ws.loop := ws.AtWait |} = Returned s'
        ∧ ws.loop s' = ws.Finished
        ∧ ws.Messages_closed (ws.conn s') = true
        ∧ ws.Messages (ws.conn s') = [].
Proof.
  apply (close_is_not_blocked [ws.Receive_err]); reflexivity.
Defined.

(** ** The headers of a dial *)

Lemma Cut_colon_cons c s :
  strings.Cut (String c s) ":" =
    if Ascii.eqb c ":" then Some (EmptyString, s)
    else match strings.Cut s ":" with
         | Some (before, after) => Some (String c before, after)
         | None => None
         end.
Proof.
  cbn [strings.Cut String.prefix String.length strings.drop].
  destruct (Ascii.ascii_dec ":" c) as [<-|Hne].
  - destruct s; reflexivity.
  - destruct (Ascii.eqb_spec c ":") as [->|_]; [congruence|reflexivity].
Qed.

Lemma Cut_colons s :
  match strings.Cut s ":" with
  | Some (before, after) => colons s = S (colons after)
  | None => colons s = O
  end.
Proof.
  induction s as [|c s IH]; [reflexivity|].
  rewrite Cut_colon_cons. cbn [colons].
  destruct (Ascii.eqb c ":"); [reflexivity|].
  destruct (strings.Cut s ":") as [[b a]|]; exact IH.
Qed.

Lemma colons_le_length s : (colons s ≤ String.length s)%nat.
Proof.
  induction s as [|c s IH]; [reflexivity|].
  cbn [colons String.length]. destruct (Ascii.eqb c ":"); lia.
Qed.

Lemma pieces_colons cuts s :
  (colons s ≤ cuts)%nat → length (strings.pieces cuts s ":") = S (colons s).
Proof.
  revert s. induction cuts as [|cuts IH]; intros s Hle.
  - cbn [strings.pieces length]. lia.
  - cbn [strings.pieces]. pose proof (Cut_colons s) as Hcut.
    destruct (strings.Cut s ":") as [[b a]|].
    + cbn [length]. rewrite IH; lia.
    + cbn [length]. lia.
Qed.

(** Splitting on colons gives one part more than there are colons. *)
Lemma Split_colons s : length (strings.Split s ":") = S (colons s).
Proof.
  unfold strings.Split, strings.SplitN. cbn [Z.eqb Z.ltb Z.compare].
  apply pieces_colons, colons_le_length.
Qed.

Section Dial.

Variable TrimSpace : string → string.

Lemma Headers_step added headerInput rest :
  ws.Headers TrimSpace added (headerInput :: rest)
  = if bool_decide (colons headerInput = 1%nat) then
      match strings.Split headerInput ":" with
      | header :: value :: _ =>
          ws.Headers TrimSpace (added ++ [(TrimSpace header, TrimSpace value)]) rest
      | _ => (None, Some (Errorf "invalid header: %s" [ArgString headerInput]))
      end
    else (None, Some (Errorf "invalid header: %s" [ArgString headerInput])).
Proof.
  cbn [ws.Headers]. unfold len, ws.HeaderPartsNumber.
  rewrite Split_colons. case_bool_decide as Hone.
  - rewrite Hone. reflexivity.
  - destruct (Z.eqb_spec (Z.of_nat (S (colons headerInput))) 2); [lia|reflexivity].
Qed.

(** The headers of a dial are accepted exactly when each of them holds one
    colon and no more: a value with a colon of its own, a URL say, makes the
    header invalid.  The first such header is the one the error names, and
    the headers after it are not looked at. *)
Theorem Headers_need_one_colon added inputs :
  ((ws.Headers TrimSpace added inputs).2 = None
   ↔ Forall (λ headerInput, colons headerInput = 1%nat) inputs)
  ∧ (∀ good bad rest,
       inputs = good ++ bad :: rest →
       Forall (λ headerInput, colons headerInput = 1%nat) good →
       colons bad ≠ 1%nat →
       ws.Headers TrimSpace added inputs
       = (None, Some (Errorf "invalid header: %s" [ArgString bad]))).
Proof.
  split.
  - revert added. induction inputs as [|headerInput rest IH]; intros added.
    { split; [constructor|reflexivity]. }
    rewrite Headers_step. case_bool_decide as Hone.
    + pose proof (Split_colons headerInput) as Hlen. rewrite Hone in Hlen.
      destruct (strings.Split headerInput ":") as [|header [|value tail]];
        try discriminate Hlen.
      rewrite IH. split; [by constructor|]. by intros [_ ?]%Forall_cons.
    + cbn [snd]. split; [discriminate|]. by intros [? _]%Forall_cons.
  - intros good bad rest -> Hgood Hbad. revert added.
    induction Hgood as [|headerInput good Hone _ IH]; intros added.
    + cbn [app]. rewrite Headers_step. by rewrite bool_decide_eq_false_2.
    + cbn [app]. rewrite Headers_step, bool_decide_eq_true_2 by exact Hone.
      pose proof (Split_colons headerInput) as Hlen. rewrite Hone in Hlen.
      destruct (strings.Split headerInput ":") as [|header [|value tail]];
        try discriminate Hlen.
      apply IH.
Qed.

End Dial.

Example Headers_need_one_colon_witness :
  ws.Headers (λ s, s) [] ["Accept: text/plain"; "Origin: http://example.com"; "X: 1"]
  = (None, Some (Errorf "invalid header: %s" [ArgString "Origin: http://example.com"])).
Proof.
  apply (proj2 (Headers_need_one_colon (λ s, s) [] _) ["Accept: text/plain"]
           "Origin: http://example.com" ["X: 1"]).
  - reflexivity.
  - by repeat constructor.
  - discriminate.
Defined.

Example Execute_only_appends_witness :
  grows (blank 0%nat)
    {| cmd.env := 1%nat;
       cmd.screen := [cmd.Colored cmd.FgGreen ("->" +:+ cmd.NL);
                      cmd.Plain ("ping" +:+ cmd.NL)];
       cmd.file := ["ping" +:+ cmd.NL] |}.
Proof.
  apply (proj2 (Execute_only_appends counting 3) (NewCommandSend "ping") (blank 0%nat)
           None).
  reflexivity.
Defined.

Example Edit_restores_cursor_witness :
  ∃ next err w',
    cmd.Execute counting 1 (CommandEdit "") (blank 0%nat) = Returned ((next, err), w')
    ∧ next ≠ NewCommandSend "".
Proof.
  destruct (Edit_restores_cursor counting 0 "" (blank 0%nat))
    as (next & err & w' & Hexec & _ & _ & Hnot & _).
  exists next, err, w'. by split.
Defined.

Example hasDomain_iff_suffix_witness :
  macro.hasDomain "api.example.com" [".org"; "example.com"] = true.
Proof.
  apply hasDomain_iff_suffix. exists "example.com", "api.".
  split; [by repeat constructor|reflexivity].
Defined.
